(** * Range streaming and frozen mutations: a shallow embedding

    The development follows [dht/range_streamer.cc] and [frozen_mutation.hh].
    C++ exceptions become the left summand of a result, calls to the logger
    are collected in order, and [std::unordered_map] becomes a [gmap] that is
    iterated through [map_to_list]. The [std::unordered_multimap] of a run is
    the list of its entries in iteration order, with the place of a new
    entry left to the container; the threads of [parallel_for_each] are
    interleaved by a reactor that is a parameter. *)

From stdpp Require Import gmap strings list fin_maps.
From Stdlib Require Import ZArith NArith Lia.

(** ** Exceptions and logging *)

Module Effects.

Section effects.
Context {inet_address token_range : Type}.

(** The texts given to [std::runtime_error], with their arguments. *)
Inductive error_message :=
| unable_to_find_sufficient_sources (range_ : token_range) (keyspace : string)
| no_sources_found_for (desired_range : token_range)
| can_not_find_in_pending_range_addresses (desired_range : token_range)
| expected_1_endpoint_but_found (n : nat)
| multiple_endpoints_found_for (desired_range : token_range)
| node_required_to_move_data_is_down (source_ip : inet_address)
| mixed_sending_and_receiving.

Inductive exception :=
| runtime_error (what : error_message)
(** [assert (_tokens.empty() == false)] *)
| assertion_failed
(** [front()] of an empty vector *)
| front_of_empty_vector
(** thrown by [_abort_source.check()] *)
| abort_requested_exception
(** whatever the transport throws out of [sp.execute()] *)
| stream_exception (what : string).

Inductive log_level := debug | info | warn.

Inductive log_message :=
| endpoint_is_filtered (keyspace : string) (address : inet_address)
| unable_to_find_sources_rf1_replace (range_ : token_range) (keyspace : string)
| entered (func : string) (keyspace_name : string)
| sizes (keyspace_name : string) (desired_ranges_size range_addresses_size : nat)
| use_strict_sources (keyspace_name : string) (nr_nodes_in_ring rf : nat) (strict : bool)
| range_exists_on (description keyspace_name : string) (range_ : token_range)
    (sources : list inet_address)
| ranges_from_source (description keyspace_name : string) (ranges : list token_range)
    (source : inet_address) (range_size : nat)
| remaining (keyspace : string) (source : inet_address) (range_vec : list token_range)
| stream_starts (description : string) (nr_ranges_remaining : nat)
| keyspace_started (description : string) (ips : list inet_address) (keyspace : string)
    (nodes_to_stream : nat)
| streaming_out_of (description : string) (source : inet_address) (keyspace : string)
    (from to : Z) (nr_ranges_total : nat)
| source_failed (description : string) (source : inet_address) (keyspace : string)
    (e : exception)
| source_succeeded (description : string) (source : inet_address) (keyspace : string)
| stream_failed (description : string) (nr_ranges_remaining : nat)
| stream_succeeded (description : string) (nr_ranges_remaining : nat).

Definition log_entry : Type := log_level * log_message.

(** A computation logs a sequence of entries and then either throws or
    returns. What was logged before a throw stays logged. *)
Definition M (A : Type) : Type := list log_entry * (exception + A).

Definition ret {A} (a : A) : M A := ([], inr a).

Definition bind {A B} (m : M A) (f : A → M B) : M B :=
  match m with
  | (l, inl e) => (l, inl e)
  | (l, inr a) => let '(l', r) := f a in (l ++ l', r)
  end.

Definition throw {A} (e : exception) : M A := ([], inl e).

Definition logger (lvl : log_level) (msg : log_message) : M unit :=
  ([(lvl, msg)], inr tt).

Definition logged {A} (m : M A) : list log_entry := m.1.
Definition outcome {A} (m : M A) : exception + A := m.2.

(** [for (auto x : xs) { acc = body(acc, x); }] *)
Fixpoint for_each {A S} (xs : list A) (body : S → A → M S) (acc : S) : M S :=
  match xs with
  | [] => ret acc
  | x :: rest => bind (body acc x) (for_each rest body)
  end.

End effects.

Arguments error_message : clear implicits.
Arguments exception : clear implicits.
Arguments log_message : clear implicits.
Arguments log_entry : clear implicits.
Arguments M : clear implicits.

End Effects.

Export Effects.

Notation "'let!' x ':=' m 'in' k" := (bind m (λ x, k))
  (at level 10, x name, m at level 100, k at level 200).
Notation "'do!' m 'in' k" := (bind m (λ _, k))
  (at level 10, m at level 100, k at level 200).

(** ** The collaborators of the range streamer

    Gossip, snitch, token metadata, replication strategies and the database
    are outside these sources. They are taken as interfaces: a record or
    class holds what each call used in [range_streamer.cc] answers. *)

Module RangeStreamer.

(** Modelled from the spec: [locator::replication_strategy_type] is declared
    outside these sources, and only its member for the everywhere pattern is
    named. *)
Inductive replication_strategy_type :=
| everywhere_topology
| other_topology (tag : nat).

(** Modelled from the spec: [streaming::stream_reason] is declared outside
    these sources; a stream plan is bound to one of the reasons bootstrap,
    decommission, replace, rebuild and repair. *)
Inductive stream_reason := bootstrap | decommission | replace | rebuild | repair.

Global Instance replication_strategy_type_eq_dec : EqDecision replication_strategy_type.
Proof. solve_decision. Defined.
Global Instance stream_reason_eq_dec : EqDecision stream_reason.
Proof. solve_decision. Defined.

(** [std::unordered_multimap], the type of [_to_stream], is given by its
    elements in iteration order. Where [emplace] puts the new element among
    the others, and whether it moves them, depends on the hash function and
    on the buckets, which the code leaves to the standard library:
    [emplaced] stands for that choice. It keeps the elements. *)
Class UnorderedMultimap (K V : Type) := {
  emplaced : K → V → list (K * V) → list (K * V);
  emplaced_elements :
    ∀ k v elements, emplaced k v elements ≡ₚ elements ++ [(k, v)]
}.

(** [parallel_for_each] over threads started with [seastar::async]: the
    threads run concurrently, each one blocked while a plan of its own is
    executed. The reactor decides how what they do is interleaved, which
    keeps the order of each thread, and which of the exceptions thrown
    [parallel_for_each] passes on. *)
Class ParallelForEach := {
  interleaved : ∀ {A : Type}, list (list A) → list A;
  interleaved_elements :
    ∀ {A : Type} (threads : list (list A)), interleaved threads ≡ₚ concat threads;
  interleaved_order :
    ∀ {A : Type} (threads : list (list A)) (thread : list A),
      thread ∈ threads → thread `sublist_of` interleaved threads;
  passed_on : ∀ {A : Type}, A → list A → A;
  passed_on_thrown : ∀ {A : Type} (e : A) (es : list A), passed_on e es ∈ e :: es
}.

(** [range<token>::contains(other, dht::tri_compare)] *)
Class RingRange (token_range : Type) := {
  contains : token_range → token_range → bool
}.

(** The calls made on [locator::token_metadata]. *)
Class TokenMetadata (inet_address token topology token_metadata : Type)
    `{Countable token} := {
  get_topology : token_metadata → topology;
  get_all_endpoints : token_metadata → list inet_address;
  clone_only_token_map : token_metadata → token_metadata;
  update_normal_tokens :
    gset token → inet_address → token_metadata → token_metadata
}.

Section collaborators.
Context {inet_address token_range token topology token_metadata : Type}.
Context `{Countable inet_address, Countable token_range, Countable token}.

Record abstract_replication_strategy := {
  get_type : replication_strategy_type;
  strat_get_range_addresses :
    token_metadata → gmap token_range (list inet_address)
}.

Record effective_replication_map := {
  get_replication_factor : nat;
  get_range_addresses : gmap token_range (list inet_address)
}.

Record keyspace := {
  get_replication_strategy : abstract_replication_strategy;
  get_effective_replication_map : effective_replication_map
}.

Record config := { consistent_rangemovement : bool }.

(** [find_keyspace] is used as the code uses it: its result is taken
    without a check. *)
Record database := {
  find_keyspace : string → keyspace;
  get_config : config
}.

Record gossiper := {
  is_enabled : bool;
  is_alive : inet_address → bool
}.

Record i_endpoint_snitch := {
  get_sorted_list_by_proximity :
    inet_address → list inet_address → list inet_address
}.

Record i_source_filter := {
  should_include : topology → inet_address → bool
}.

(** Process-wide state read by the streamer. *)
Record globals := {
  get_broadcast_address : inet_address;
  get_local_snitch_ptr : i_endpoint_snitch;
  logger_is_enabled : log_level → bool
}.

(** What a stream plan is given before [execute()]. *)
Inductive plan_request :=
| request_ranges (source : inet_address) (keyspace : string)
    (ranges : list token_range)
| transfer_ranges (source : inet_address) (keyspace : string)
    (ranges : list token_range).

(** A plan is named ["{description}-{keyspace}-index-{sp_index}"]. *)
Record stream_plan := {
  sp_description : string;
  sp_keyspace : string;
  sp_number : Z;
  sp_reason : stream_reason;
  sp_request : option plan_request
}.

(** The transport: how the execution of a plan ends. *)
Record stream_manager := {
  execute : stream_plan → option (exception inet_address token_range)
}.

(** The abort source: whether an abort has been requested by the time the
    plan of that number, for that source and keyspace, is about to be
    dispatched. *)
Record abort_source := {
  abort_requested : inet_address → string → Z → bool
}.

Record range_streamer := {
  _db : database;
  _stream_manager : stream_manager;
  _abort_source : abort_source;
  get_token_metadata : token_metadata;
  _tokens : gset token;
  _address : inet_address;
  _description : string;
  _reason : stream_reason;
  _source_filters : list i_source_filter;
  _to_stream : list (string * gmap inet_address (list token_range));
  _nr_tx_added : Z;
  _nr_rx_added : Z
}.

End collaborators.

Arguments abstract_replication_strategy _ _ _ {_ _}.
Arguments effective_replication_map _ _ {_ _}.
Arguments keyspace _ _ _ {_ _}.
Arguments database _ _ _ {_ _}.
Arguments gossiper : clear implicits.
Arguments i_endpoint_snitch : clear implicits.
Arguments i_source_filter : clear implicits.
Arguments globals : clear implicits.
Arguments plan_request : clear implicits.
Arguments stream_plan : clear implicits.
Arguments stream_manager : clear implicits.
Arguments abort_source : clear implicits.
Arguments range_streamer _ _ _ _ _ {_ _ _ _ _ _}.

(** ** The range streamer: resolving sources and planning fetches *)

Section operations.
Context {inet_address token_range token topology token_metadata : Type}.
Context `{Countable inet_address, Countable token_range, Countable token}.
Context `{!RingRange token_range}.
Context `{!TokenMetadata inet_address token topology token_metadata}.

Context `{!UnorderedMultimap string (gmap inet_address (list token_range))}.
Context {reactor : ParallelForEach}.

(** Process-wide state, and the width in bits of the counters
    [_nr_tx_added] and [_nr_rx_added], whose declaration is in the header
    outside these sources. *)
Context (env : globals inet_address) (nr_added_bits : Z).

Local Abbreviation streamer :=
  (range_streamer inet_address token_range token topology token_metadata).
Local Abbreviation M := (Effects.M inet_address token_range).
Local Abbreviation fetch_map := (gmap inet_address (list token_range)).
Local Abbreviation range_map := (gmap token_range (list inet_address)).

(** [m[k].push_back(v)] *)
Definition push_back_at `{Countable K} {V} (k : K) (v : V)
    (m : gmap K (list V)) : gmap K (list V) :=
  <[k := default [] (m !! k) ++ [v]]> m.

(** The loop over [source_filters]: some filter does not include the
    address. *)
Definition filtered (source_filters : list (i_source_filter inet_address topology))
    (topo : topology) (address : inet_address) : bool :=
  existsb (λ filter, negb (should_include filter topo address)) source_filters.

(** The loop over [addresses] in [get_range_fetch_map]. *)
Fixpoint try_addresses (self : streamer)
    (source_filters : list (i_source_filter inet_address topology))
    (keyspace : string) (range_ : token_range) (addresses : list inet_address)
    (found_source : bool) (range_fetch_map_map : fetch_map)
    : M (bool * fetch_map) :=
  match addresses with
  | [] => ret (found_source, range_fetch_map_map)
  | address :: rest =>
      if decide (address = get_broadcast_address env) then
        try_addresses self source_filters keyspace range_ rest true
          range_fetch_map_map
      else if filtered source_filters (get_topology (get_token_metadata self)) address then
        do! logger debug (endpoint_is_filtered keyspace address) in
        try_addresses self source_filters keyspace range_ rest found_source
          range_fetch_map_map
      else
        ret (true, push_back_at address range_ range_fetch_map_map)
  end.

(** The body of the loop over [ranges_with_sources]. *)
Definition fetch_range (self : streamer)
    (source_filters : list (i_source_filter inet_address topology))
    (keyspace : string) (range_fetch_map_map : fetch_map)
    (x : token_range * list inet_address) : M fetch_map :=
  let range_ := x.1 in
  let addresses := x.2 in
  let! r := try_addresses self source_filters keyspace range_ addresses false
              range_fetch_map_map in
  let found_source := r.1 in
  let range_fetch_map_map := r.2 in
  if found_source then ret range_fetch_map_map
  else
    let ks := find_keyspace (_db self) keyspace in
    let rf := get_replication_factor (get_effective_replication_map ks) in
    if bool_decide (_reason self = replace) && bool_decide (rf = 1) then
      do! logger warn (unable_to_find_sources_rf1_replace range_ keyspace) in
      ret range_fetch_map_map
    else
      throw (runtime_error (unable_to_find_sufficient_sources range_ keyspace)).

Definition get_range_fetch_map (self : streamer)
    (ranges_with_sources : range_map)
    (source_filters : list (i_source_filter inet_address topology))
    (keyspace : string) : M fetch_map :=
  for_each (map_to_list ranges_with_sources)
    (fetch_range self source_filters keyspace) ∅.

(** The loop over [range_addresses] in [get_all_ranges_with_sources_for]
    for one desired range. *)
Definition add_sources_of (snitch : i_endpoint_snitch inet_address)
    (address : inet_address) (desired_range : token_range)
    (acc : bool * range_map) (x : token_range * list inet_address)
    : bool * range_map :=
  let src_range := x.1 in
  if contains src_range desired_range then
    let addresses := x.2 in
    let preferred := get_sorted_list_by_proximity snitch address addresses in
    (true, foldl (λ range_sources p, push_back_at desired_range p range_sources)
             acc.2 preferred)
  else acc.

Definition get_all_ranges_with_sources_for (self : streamer)
    (keyspace_name : string) (desired_ranges : list token_range) : M range_map :=
  do! logger debug (entered "get_all_ranges_with_sources_for" keyspace_name) in
  let ks := find_keyspace (_db self) keyspace_name in
  let erm := get_effective_replication_map ks in
  let range_addresses := get_range_addresses erm in
  do! logger debug (sizes keyspace_name (length desired_ranges) (size range_addresses)) in
  let snitch := get_local_snitch_ptr env in
  for_each desired_ranges (λ range_sources desired_range,
    let r := foldl (add_sources_of snitch (_address self) desired_range)
               (false, range_sources) (map_to_list range_addresses) in
    let found := r.1 in
    if found then ret r.2
    else throw (runtime_error (no_sources_found_for desired_range))) ∅.

(** The body of the loop over [range_addresses] in
    [get_all_ranges_with_strict_sources_for]. *)
Definition add_strict_source (rf : nat) (pending_range_addresses : range_map)
    (desired_range : token_range) (range_sources : range_map)
    (x : token_range * list inet_address) : M range_map :=
  let src_range := x.1 in
  if contains src_range desired_range then
    let old_endpoints := x.2 in
    match pending_range_addresses !! desired_range with
    | None =>
        throw (runtime_error (can_not_find_in_pending_range_addresses desired_range))
    | Some new_endpoints =>
        let! old_endpoints :=
          (if decide (length old_endpoints = rf) then
             let old_endpoints := filter (λ ep, ep ∉ new_endpoints) old_endpoints in
             if decide (length old_endpoints ≠ 1) then
               throw (runtime_error (expected_1_endpoint_but_found (length old_endpoints)))
             else ret old_endpoints
           else ret old_endpoints) in
        match old_endpoints with
        | [] => throw front_of_empty_vector
        | front :: _ => ret (push_back_at desired_range front range_sources)
        end
    end
  else ret range_sources.

(** The validation that follows it, for one desired range. *)
Definition validate (g : gossiper inet_address) (desired_range : token_range)
    (range_sources : range_map) : M range_map :=
  match range_sources !! desired_range with
  | None => throw (runtime_error (no_sources_found_for desired_range))
  | Some sources =>
      if decide (length sources ≠ 1) then
        throw (runtime_error (multiple_endpoints_found_for desired_range))
      else
        match sources with
        | [] => throw front_of_empty_vector
        | source_ip :: _ =>
            if is_enabled g && negb (is_alive g source_ip) then
              throw (runtime_error (node_required_to_move_data_is_down source_ip))
            else ret range_sources
        end
  end.

Definition get_all_ranges_with_strict_sources_for (self : streamer)
    (keyspace_name : string) (desired_ranges : list token_range)
    (g : gossiper inet_address) : M range_map :=
  do! logger debug (entered "get_all_ranges_with_strict_sources_for" keyspace_name) in
  if decide (_tokens self = ∅) then throw assertion_failed
  else
    let ks := find_keyspace (_db self) keyspace_name in
    let strat := get_replication_strategy ks in
    let erm := get_effective_replication_map ks in
    let metadata_clone := clone_only_token_map (get_token_metadata self) in
    let range_addresses := strat_get_range_addresses strat metadata_clone in
    let metadata_clone :=
      update_normal_tokens (_tokens self) (_address self) metadata_clone in
    let pending_range_addresses := strat_get_range_addresses strat metadata_clone in
    do! logger debug (sizes keyspace_name (length desired_ranges) (size range_addresses)) in
    for_each desired_ranges (λ range_sources desired_range,
      let! range_sources :=
        for_each (map_to_list range_addresses)
          (add_strict_source (get_replication_factor erm) pending_range_addresses
             desired_range) range_sources in
      validate g desired_range range_sources) ∅.

Definition use_strict_sources_for_ranges (self : streamer)
    (keyspace_name : string) : M bool :=
  let ks := find_keyspace (_db self) keyspace_name in
  let erm := get_effective_replication_map ks in
  let rf := get_replication_factor erm in
  let nr_nodes_in_ring := length (get_all_endpoints (get_token_metadata self)) in
  let everywhere_topology :=
    bool_decide (get_type (get_replication_strategy ks) = everywhere_topology) in
  let strict :=
    consistent_rangemovement (get_config (_db self))
    && negb (bool_decide (_tokens self = ∅))
    && negb everywhere_topology
    && bool_decide (rf ≤ nr_nodes_in_ring) in
  do! logger debug (use_strict_sources keyspace_name nr_nodes_in_ring rf strict) in
  ret strict.

(** *** Adding plans to a run *)

Definition set_nr_tx_added (n : Z) (self : streamer) : streamer :=
  {| _db := _db self; _stream_manager := _stream_manager self;
     _abort_source := _abort_source self;
     get_token_metadata := get_token_metadata self; _tokens := _tokens self;
     _address := _address self; _description := _description self;
     _reason := _reason self; _source_filters := _source_filters self;
     _to_stream := _to_stream self;
     _nr_tx_added := n; _nr_rx_added := _nr_rx_added self |}.

Definition set_nr_rx_added (n : Z) (self : streamer) : streamer :=
  {| _db := _db self; _stream_manager := _stream_manager self;
     _abort_source := _abort_source self;
     get_token_metadata := get_token_metadata self; _tokens := _tokens self;
     _address := _address self; _description := _description self;
     _reason := _reason self; _source_filters := _source_filters self;
     _to_stream := _to_stream self;
     _nr_tx_added := _nr_tx_added self; _nr_rx_added := n |}.

Definition set_to_stream
    (ts : list (string * gmap inet_address (list token_range)))
    (self : streamer) : streamer :=
  {| _db := _db self; _stream_manager := _stream_manager self;
     _abort_source := _abort_source self;
     get_token_metadata := get_token_metadata self; _tokens := _tokens self;
     _address := _address self; _description := _description self;
     _reason := _reason self; _source_filters := _source_filters self;
     _to_stream := ts;
     _nr_tx_added := _nr_tx_added self; _nr_rx_added := _nr_rx_added self |}.

(** [n++] on a counter of [nr_added_bits] bits *)
Definition incr (n : Z) : Z := ((n + 1) mod 2 ^ nr_added_bits)%Z.

(** [_to_stream.emplace(keyspace_name, m)]: the multimap holds one more
    entry; its place in the iteration is the multimap's choice. *)
Definition emplace (keyspace_name : string) (m : fetch_map) (self : streamer)
    : streamer :=
  set_to_stream (emplaced keyspace_name m (_to_stream self)) self.

Definition add_tx_ranges (self : streamer) (keyspace_name : string)
    (ranges_per_endpoint : fetch_map) : streamer * M unit :=
  if decide (_nr_rx_added self ≠ 0%Z) then
    (self, throw (runtime_error mixed_sending_and_receiving))
  else
    let self := set_nr_tx_added (incr (_nr_tx_added self)) self in
    (emplace keyspace_name ranges_per_endpoint self, ret tt).

Definition add_rx_ranges (self : streamer) (keyspace_name : string)
    (ranges_per_endpoint : fetch_map) : streamer * M unit :=
  if decide (_nr_tx_added self ≠ 0%Z) then
    (self, throw (runtime_error mixed_sending_and_receiving))
  else
    let self := set_nr_rx_added (incr (_nr_rx_added self)) self in
    (emplace keyspace_name ranges_per_endpoint self, ret tt).

(** [!is_replacing && use_strict_sources_for_ranges(keyspace_name) ? ... : ...]:
    the right operand of [&&] is evaluated only if the left one holds. *)
Definition resolve_sources (self : streamer) (keyspace_name : string)
    (ranges : list token_range) (g : gossiper inet_address)
    (is_replacing : bool) : M range_map :=
  let! strict :=
    (if negb is_replacing then use_strict_sources_for_ranges self keyspace_name
     else ret false) in
  if strict
  then get_all_ranges_with_strict_sources_for self keyspace_name ranges g
  else get_all_ranges_with_sources_for self keyspace_name ranges.

(** What [add_ranges] computes between the increment of the counter and
    the [emplace]. *)
Definition plan_ranges_for (self : streamer) (keyspace_name : string)
    (ranges : list token_range) (g : gossiper inet_address)
    (is_replacing : bool) : M fetch_map :=
  let! ranges_for_keyspace :=
    resolve_sources self keyspace_name ranges g is_replacing in
  do! (if logger_is_enabled env debug then
         for_each (map_to_list ranges_for_keyspace) (λ _ x,
           logger debug
             (range_exists_on (_description self) keyspace_name x.1 x.2)) tt
       else ret tt) in
  let! range_fetch_map :=
    get_range_fetch_map self ranges_for_keyspace (_source_filters self)
      keyspace_name in
  do! (if logger_is_enabled env debug then
         for_each (map_to_list range_fetch_map) (λ _ x,
           logger debug
             (ranges_from_source (_description self) keyspace_name x.2 x.1
                (length x.2))) tt
       else ret tt) in
  ret range_fetch_map.

Definition add_ranges (self : streamer) (keyspace_name : string)
    (ranges : list token_range) (g : gossiper inet_address)
    (is_replacing : bool) : streamer * M unit :=
  if decide (_nr_tx_added self ≠ 0%Z) then
    (self, throw (runtime_error mixed_sending_and_receiving))
  else
    let self := set_nr_rx_added (incr (_nr_rx_added self)) self in
    match plan_ranges_for self keyspace_name ranges g is_replacing with
    | (l, inl e) => (self, (l, inl e))
    | (l, inr range_fetch_map) =>
        (emplace keyspace_name range_fetch_map self, (l, inr tt))
    end.

(** *** A run as a sequence of calls *)

Inductive call :=
| call_add_tx_ranges (keyspace_name : string) (ranges_per_endpoint : fetch_map)
| call_add_rx_ranges (keyspace_name : string) (ranges_per_endpoint : fetch_map)
| call_add_ranges (keyspace_name : string) (ranges : list token_range)
    (g : gossiper inet_address) (is_replacing : bool).

Definition perform (c : call) (self : streamer) : streamer * M unit :=
  match c with
  | call_add_tx_ranges ks m => add_tx_ranges self ks m
  | call_add_rx_ranges ks m => add_rx_ranges self ks m
  | call_add_ranges ks ranges g is_replacing =>
      add_ranges self ks ranges g is_replacing
  end.

(** The calls are made one after the other, whether or not one throws; the
    history keeps each call with how it ended. *)
Fixpoint run (calls : list call) (self : streamer)
    : streamer * list (call * (exception inet_address token_range + unit)) :=
  match calls with
  | [] => (self, [])
  | c :: rest =>
      let r := perform c self in
      let rs := run rest r.1 in
      (rs.1, (c, outcome r.2) :: rs.2)
  end.



(** *** Streaming the plans of a run *)

Local Abbreviation plan := (stream_plan inet_address token_range).
Local Abbreviation exn := (exception inet_address token_range).
Local Abbreviation entry := (log_entry inet_address token_range).

(** The locals of the thread that serves one source; [range_vec] is kept
    apart, the loop consumes it. *)
Record locals := {
  ranges_to_stream : list token_range;
  sp_index : Z;
  nr_ranges_streamed : Z
}.

(** What a piece of that thread leaves behind: the log, the plans handed
    to the transport, the exception in flight if any, and the state. *)
Record thread := {
  thread_log : list entry;
  thread_plans : list plan;
  thread_exception : option exn;
  thread_range_vec : list token_range;
  thread_locals : locals
}.

Definition ranges_of_request (r : plan_request inet_address token_range)
    : list token_range :=
  match r with
  | request_ranges _ _ ranges => ranges
  | transfer_ranges _ _ ranges => ranges
  end.

(** The ranges a plan carries. *)
Definition ranges_of_plan (sp : plan) : list token_range :=
  from_option ranges_of_request [] (sp_request sp).

(** The lambda [do_streaming]; [unsigned] is 32 bits wide and [size_t] 64. *)
Definition do_streaming (self : streamer) (keyspace : string)
    (source : inet_address) (nr_ranges_total : nat)
    (range_vec : list token_range) (st : locals) : thread :=
  let index := sp_index st in
  let st := {| ranges_to_stream := ranges_to_stream st;
               sp_index := ((index + 1) mod 2 ^ 32)%Z;
               nr_ranges_streamed := nr_ranges_streamed st |} in
  if abort_requested (_abort_source self) source keyspace index then
    {| thread_log := []; thread_plans := [];
       thread_exception := Some abort_requested_exception;
       thread_range_vec := range_vec; thread_locals := st |}
  else
    let size := Z.of_nat (length (ranges_to_stream st)) in
    let line :=
      (info, streaming_out_of (_description self) source keyspace
               (nr_ranges_streamed st)
               ((nr_ranges_streamed st + size) mod 2 ^ 64)%Z
               nr_ranges_total) in
    let st := {| ranges_to_stream := ranges_to_stream st;
                 sp_index := sp_index st;
                 nr_ranges_streamed :=
                   ((nr_ranges_streamed st + size) mod 2 ^ 32)%Z |} in
    let sp :=
      {| sp_description := _description self; sp_keyspace := keyspace;
         sp_number := index; sp_reason := _reason self;
         sp_request :=
           if decide (_nr_rx_added self ≠ 0%Z) then
             Some (request_ranges source keyspace (ranges_to_stream st))
           else if decide (_nr_tx_added self ≠ 0%Z) then
             Some (transfer_ranges source keyspace (ranges_to_stream st))
           else None |} in
    match execute (_stream_manager self) sp with
    | Some e =>
        {| thread_log := [line]; thread_plans := [sp]; thread_exception := Some e;
           thread_range_vec := range_vec; thread_locals := st |}
    | None =>
        {| thread_log := [line]; thread_plans := [sp]; thread_exception := None;
           thread_range_vec := range_vec;
           thread_locals := {| ranges_to_stream := [];
                             sp_index := sp_index st;
                             nr_ranges_streamed := nr_ranges_streamed st |} |}
    end.

(** Sequencing: the second piece runs if the first did not throw. *)
Definition followed_by (t t' : thread) : thread :=
  {| thread_log := thread_log t ++ thread_log t';
     thread_plans := thread_plans t ++ thread_plans t';
     thread_exception := thread_exception t';
     thread_range_vec := thread_range_vec t';
     thread_locals := thread_locals t' |}.

Definition and_then (t : thread) (k : list token_range → locals → thread) : thread :=
  match thread_exception t with
  | Some _ => t
  | None => followed_by t (k (thread_range_vec t) (thread_locals t))
  end.

(** The [for] loop: the first range is moved from [range_vec] to the end of
    [ranges_to_stream], and a plan is dispatched once that holds
    [nr_ranges_per_stream_plan] ranges or more. *)
Fixpoint stream_loop (self : streamer) (keyspace : string)
    (source : inet_address) (nr_ranges_total nr_ranges_per_stream_plan : nat)
    (range_vec : list token_range) (st : locals) : thread :=
  match range_vec with
  | [] =>
      {| thread_log := []; thread_plans := []; thread_exception := None;
         thread_range_vec := []; thread_locals := st |}
  | r :: rest =>
      let st := {| ranges_to_stream := ranges_to_stream st ++ [r];
                   sp_index := sp_index st;
                   nr_ranges_streamed := nr_ranges_streamed st |} in
      if decide (length (ranges_to_stream st) < nr_ranges_per_stream_plan) then
        stream_loop self keyspace source nr_ranges_total
          nr_ranges_per_stream_plan rest st
      else
        let t := do_streaming self keyspace source nr_ranges_total rest st in
        match thread_exception t with
        | Some _ => t
        | None =>
            followed_by t
              (stream_loop self keyspace source nr_ranges_total
                 nr_ranges_per_stream_plan rest (thread_locals t))
        end
  end.

(** The [try] block. *)
Definition stream_ranges (self : streamer) (keyspace : string)
    (source : inet_address) (range_vec : list token_range) : thread :=
  let nr_ranges_total := length range_vec in
  let nr_ranges_per_stream_plan := nr_ranges_total / 10 in
  and_then
    (stream_loop self keyspace source nr_ranges_total
       nr_ranges_per_stream_plan range_vec
       {| ranges_to_stream := []; sp_index := 0; nr_ranges_streamed := 0 |})
    (λ range_vec st,
       if decide (0 < length (ranges_to_stream st)) then
         do_streaming self keyspace source nr_ranges_total range_vec st
       else
         {| thread_log := []; thread_plans := []; thread_exception := None;
            thread_range_vec := range_vec; thread_locals := st |}).

(** The thread of one source: the [try] block, its [catch (...)] handler
    and the line logged on success. *)
Definition stream_source (self : streamer) (keyspace : string)
    (source : inet_address) (range_vec : list token_range) : thread :=
  let t := stream_ranges self keyspace source range_vec in
  match thread_exception t with
  | Some e =>
      {| thread_log :=
           thread_log t ++ [(warn, source_failed (_description self) source keyspace e)];
         thread_plans := thread_plans t;
         thread_exception := Some e;
         thread_range_vec :=
           foldl (λ range_vec range, range_vec ++ [range]) (thread_range_vec t)
             (ranges_to_stream (thread_locals t));
         thread_locals := thread_locals t |}
  | None =>
      {| thread_log :=
           thread_log t ++ [(info, source_succeeded (_description self) source keyspace)];
         thread_plans := thread_plans t;
         thread_exception := None;
         thread_range_vec := thread_range_vec t;
         thread_locals := thread_locals t |}
  end.

(** The sizes are [size_t]; a sum of lengths of vectors that are all in
    memory stays below [2 ^ 64]. *)
Definition nr_ranges_to_stream (self : streamer) : M nat :=
  for_each (_to_stream self) (λ nr_ranges_remaining fetch,
    let keyspace := fetch.1 in
    let ip_range_vec := fetch.2 in
    for_each (map_to_list ip_range_vec) (λ nr_ranges_remaining ip_range,
      let source := ip_range.1 in
      let range_vec := ip_range.2 in
      do! logger debug (remaining keyspace source range_vec) in
      ret (nr_ranges_remaining + length range_vec)) nr_ranges_remaining) 0.

(** [parallel_for_each] over the sources of one keyspace. Every thread runs
    to its end whether or not another one failed; each owns its
    [range_vec], and what it does depends on no other thread. The threads
    run concurrently: the lines they log and the plans they hand to the
    transport are interleaved, and the exception passed on is one of those
    thrown, as the reactor has it. *)
Record keyspace_run := {
  kr_log : list entry;
  kr_plans : list plan;
  kr_exception : option exn;
  kr_ip_range_vec : fetch_map
}.

Definition stream_keyspace (self : streamer) (keyspace : string)
    (ip_range_vec : fetch_map) : keyspace_run :=
  let ips := (map_to_list ip_range_vec).*1 in
  let threads :=
    map (λ ip_range, stream_source self keyspace ip_range.1 ip_range.2)
      (map_to_list ip_range_vec) in
  {| kr_log :=
       (info, keyspace_started (_description self) ips keyspace (size ip_range_vec))
       :: interleaved (map thread_log threads);
     kr_plans := interleaved (map thread_plans threads);
     kr_exception :=
       match omap thread_exception threads with
       | [] => None
       | e :: es => Some (passed_on e es)
       end;
     kr_ip_range_vec :=
       map_imap (λ source range_vec,
         Some (thread_range_vec (stream_source self keyspace source range_vec)))
         ip_range_vec |}.

(** [do_for_each] over [_to_stream]: one keyspace after the other, until
    one fails. *)
Record stream_run := {
  sr_log : list entry;
  sr_plans : list plan;
  sr_exception : option exn;
  sr_to_stream : list (string * fetch_map)
}.

Fixpoint stream_keyspaces (self : streamer)
    (to_stream : list (string * fetch_map)) : stream_run :=
  match to_stream with
  | [] => {| sr_log := []; sr_plans := []; sr_exception := None; sr_to_stream := [] |}
  | stream :: rest =>
      let kr := stream_keyspace self stream.1 stream.2 in
      match kr_exception kr with
      | Some e =>
          {| sr_log := kr_log kr; sr_plans := kr_plans kr;
             sr_exception := Some e;
             sr_to_stream := (stream.1, kr_ip_range_vec kr) :: rest |}
      | None =>
          let sr := stream_keyspaces self rest in
          {| sr_log := kr_log kr ++ sr_log sr;
             sr_plans := kr_plans kr ++ sr_plans sr;
             sr_exception := sr_exception sr;
             sr_to_stream := (stream.1, kr_ip_range_vec kr) :: sr_to_stream sr |}
      end
  end.

(** [stream_async]: the streamer afterwards, the plans handed to the
    transport, and the log with the outcome. The durations in the log
    lines are left out. *)
Definition stream_async (self : streamer) : streamer * list plan * M unit :=
  let before := nr_ranges_to_stream self in
  let starts :=
    match outcome before with
    | inr nr_ranges_remaining =>
        [(info, stream_starts (_description self) nr_ranges_remaining)]
    | inl _ => []
    end in
  let sr := stream_keyspaces self (_to_stream self) in
  let self' := set_to_stream (sr_to_stream sr) self in
  let after := nr_ranges_to_stream self' in
  let ends :=
    match outcome after with
    | inr nr_ranges_remaining =>
        if decide (nr_ranges_remaining ≠ 0) then
          [(warn, stream_failed (_description self) nr_ranges_remaining)]
        else
          [(info, stream_succeeded (_description self) nr_ranges_remaining)]
    | inl _ => []
    end in
  (self', sr_plans sr,
   (logged before ++ starts ++ sr_log sr ++ logged after ++ ends,
    match sr_exception sr with
    | Some e => inl e
    | None => inr tt
    end)).

End operations.

Arguments call _ _ {_ _}.
Arguments locals : clear implicits.
Arguments thread : clear implicits.
Arguments keyspace_run _ _ {_ _}.
Arguments stream_run _ _ {_ _}.

End RangeStreamer.

(** ** Frozen mutations

    [frozen_mutation.hh] declares the codec and defines [consume] and the
    visitor that feeds a flattened consumer. *)

Module FrozenMutation.

(** The types below come from headers outside these sources; each is kept to
    what [frozen_mutation.hh] uses of it. *)

Definition bytes : Type := list Byte.byte.
Definition UUID : Type := N.
Definition column_id : Type := N.
Definition partition_key : Type := bytes.
Definition clustering_key : Type := bytes.
Definition token : Type := Z.

Inductive stop_iteration := no | yes.

Global Instance stop_iteration_eq_dec : EqDecision stop_iteration.
Proof. solve_decision. Defined.

(** Modelled from the spec: [tombstone] is declared outside these sources. A
    tombstone is absent or carries a timestamp and a deletion time. *)
Inductive tombstone :=
| no_tombstone
| deleted (timestamp : Z) (deletion_time : Z).

(** Modelled from the spec: [apply] of a tombstone, defined outside these
    sources, keeps the later of the two. *)
Definition tombstone_apply (this t : tombstone) : tombstone :=
  match this, t with
  | no_tombstone, _ => t
  | _, no_tombstone => this
  | deleted ts1 dt1, deleted ts2 dt2 =>
      if ((ts1 <? ts2) || ((ts1 =? ts2) && (dt1 <? dt2)))%Z then t else this
  end.

(** Modelled from the spec: [row_marker] is declared outside these sources;
    it is the liveness marker of a row. *)
Inductive row_marker :=
| no_marker
| marker (timestamp : Z) (ttl_and_expiry : option (Z * Z)).

(** Modelled from the spec: [apply] of a marker, defined outside these
    sources, keeps the one with the later timestamp. *)
Definition row_marker_apply (this rm : row_marker) : row_marker :=
  match this, rm with
  | no_marker, _ => rm
  | _, no_marker => this
  | marker ts1 _, marker ts2 _ => if (ts1 <? ts2)%Z then rm else this
  end.

(** Modelled from the spec: the cells are declared outside these sources; a
    cell is atomic or a collection, and is kept in its serialized form. *)
Inductive atomic_cell_or_collection :=
| atomic_cell (serialized : bytes)
| collection_mutation (serialized : bytes).

(** Modelled from the spec: [position_in_partition] is declared outside
    these sources; rows and tombstones are in position order, and one
    position is after all clustered rows. *)
Inductive position_in_partition :=
| for_key (ck : clustering_key)
| after_all_clustered_rows.

Record range_tombstone := {
  rt_start : clustering_key;
  rt_end : clustering_key;
  rt_tomb : tombstone
}.

(** [rt.position()] *)
Definition position (rt : range_tombstone) : position_in_partition :=
  for_key (rt_start rt).

Record range_tombstone_change := {
  rtc_position : position_in_partition;
  rtc_tombstone : tombstone
}.

(** A row is the sequence of its cells, in the order [append_cell] put them. *)
Definition row : Type := list (column_id * atomic_cell_or_collection).

(** Modelled from the spec: [deletable_row] and [rows_entry] are declared
    outside these sources; a clustering row has a position, a tombstone, a
    marker and cells. *)
Record deletable_row := {
  deleted_at : tombstone;
  created_at : row_marker;
  cells : row
}.

Record rows_entry := {
  entry_position : position_in_partition;
  entry_dummy : bool;
  entry_continuous : bool;
  entry_row : deletable_row
}.

(** Modelled from the spec: [schema] is declared outside these sources; of a
    schema the codec uses the version, the table and the names. *)
Record schema := {
  version : UUID;
  table_id : UUID;
  ks_name : string;
  cf_name : string
}.

Record decorated_key := {
  dk_token : token;
  dk_key : partition_key
}.

(** Modelled from the spec: [mutation_partition] is declared outside these
    sources. It holds what the round trip names: the partition tombstone, the
    static row, the range tombstones and the clustering rows in position
    order. *)
Record mutation_partition := {
  partition_tombstone : tombstone;
  static_row : row;
  row_tombstones : list range_tombstone;
  clustered_rows : list rows_entry
}.

(** Modelled from the spec: [mutation] is declared outside these sources; a
    mutation is the change set of one partition, built under a schema. *)
Record mutation := {
  mutation_schema : schema;
  mutation_key : partition_key;
  partition : mutation_partition
}.

(** The calls of [mutation_partition_view_virtual_visitor]; the two
    overloads for cells are told apart by the cell. *)
Inductive visit :=
| accept_partition_tombstone (t : tombstone)
| accept_static_cell (id : column_id) (cell : atomic_cell_or_collection)
| accept_row_tombstone (rt : range_tombstone)
| accept_row (key : position_in_partition) (deleted_at : tombstone)
    (rm : row_marker) (dummy continuous : bool)
| accept_row_cell (id : column_id) (cell : atomic_cell_or_collection).

(** Modelled from the spec: the serializer behind [bytes_ostream] is outside
    these sources. The byte layout is internal, and what the buffer must
    preserve is the schema version tag, the partition key and the ordered
    sequence of events. The buffer is given by what reading it yields: the
    identifiers, the key, the calls that [mutation_partition_view::accept]
    makes on a visitor, and whether the reader then throws because the bytes
    are malformed. *)
Record bytes_ostream := {
  read_table_id : UUID;
  read_schema_version : UUID;
  read_key : partition_key;
  read_partition : list visit;
  read_malformed : bool
}.

Record frozen_mutation := {
  _bytes : bytes_ostream;
  _pk : partition_key
}.

Inductive error :=
| schema_mismatch_error (expected : UUID) (access : schema)
| deserialization_error
(** [std::throw_with_nested(std::runtime_error(...))] with the key, the
    keyspace and the table in the text *)
| failed_consuming_mutation (key : partition_key) (ks_name cf_name : string)
    (nested : error)
(** a cell visited before any row: [_current_row] is null *)
| null_current_row.

Definition column_family_id (fm : frozen_mutation) : UUID :=
  read_table_id (_bytes fm).
Definition schema_version (fm : frozen_mutation) : UUID :=
  read_schema_version (_bytes fm).
Definition key (fm : frozen_mutation) : partition_key := _pk fm.

(** Modelled from the spec: [check_schema_version] is declared outside these
    sources; it fails with a schema-mismatch error if the schema's version
    does not equal the frozen stamp. *)
Definition check_schema_version (expected : UUID) (access : schema)
    : error + unit :=
  if decide (expected = version access) then inr tt
  else inl (schema_mismatch_error expected access).

Section codec.
(** [dht::get_token(s, key)], the partitioner of the schema. *)
Context (get_token : schema → partition_key → token).

Definition decorate_key (s : schema) (k : partition_key) : decorated_key :=
  {| dk_token := get_token s k; dk_key := k |}.

(** [mutation::decorated_key()] and [frozen_mutation::decorated_key(s)] *)
Definition mutation_decorated_key (m : mutation) : decorated_key :=
  decorate_key (mutation_schema m) (mutation_key m).
Definition frozen_decorated_key (fm : frozen_mutation) (s : schema)
    : decorated_key :=
  decorate_key s (key fm).

(** *** Freezing *)

(** Modelled from the spec: the serializer of a partition is outside these
    sources. A row is written as the call that opens it and one call for
    each of its cells. *)
Definition write_row (e : rows_entry) : list visit :=
  accept_row (entry_position e) (deleted_at (entry_row e))
    (created_at (entry_row e)) (entry_dummy e) (entry_continuous e)
  :: map (λ c, accept_row_cell c.1 c.2) (cells (entry_row e)).

(** Modelled from the spec: the serializer of a partition is outside these
    sources. The partition tombstone comes first, then the static row, the
    range tombstones and the rows in position order. *)
Definition write_partition (p : mutation_partition) : list visit :=
  accept_partition_tombstone (partition_tombstone p)
  :: map (λ c, accept_static_cell c.1 c.2) (static_row p)
  ++ map accept_row_tombstone (row_tombstones p)
  ++ flat_map write_row (clustered_rows p).

(** Modelled from the spec: [freeze] is defined outside these sources. It
    tags the buffer with the version of the schema the mutation was built
    under and extracts the partition key up front. *)
Definition freeze (m : mutation) : frozen_mutation :=
  {| _bytes :=
       {| read_table_id := table_id (mutation_schema m);
          read_schema_version := version (mutation_schema m);
          read_key := mutation_key m;
          read_partition := write_partition (partition m);
          read_malformed := false |};
     _pk := mutation_key m |}.

(** *** Unfreezing *)

Definition empty_partition : mutation_partition :=
  {| partition_tombstone := no_tombstone; static_row := [];
     row_tombstones := []; clustered_rows := [] |}.

Definition append_cell (id : column_id) (cell : atomic_cell_or_collection)
    (r : row) : row :=
  r ++ [(id, cell)].

Definition new_rows_entry (key : position_in_partition) (deleted_at : tombstone)
    (rm : row_marker) (dummy continuous : bool) : rows_entry :=
  {| entry_position := key; entry_dummy := dummy;
     entry_continuous := continuous;
     entry_row :=
       {| deleted_at := tombstone_apply no_tombstone deleted_at;
          created_at := row_marker_apply no_marker rm;
          cells := [] |} |}.

Definition append_row_cell (id : column_id) (cell : atomic_cell_or_collection)
    (e : rows_entry) : rows_entry :=
  {| entry_position := entry_position e; entry_dummy := entry_dummy e;
     entry_continuous := entry_continuous e;
     entry_row :=
       {| deleted_at := deleted_at (entry_row e);
          created_at := created_at (entry_row e);
          cells := append_cell id cell (cells (entry_row e)) |} |}.

(** Modelled from the spec: the visitor that [unfreeze] builds a partition
    with is outside these sources. It replays the events with the row
    operations of the visitor of [frozen_mutation.hh] below ([append_cell],
    [apply] of the marker and of the tombstone); the row that cells go to is
    the last one appended. *)
Definition build (p : mutation_partition) (v : visit)
    : error + mutation_partition :=
  match v with
  | accept_partition_tombstone t =>
      inr {| partition_tombstone := tombstone_apply (partition_tombstone p) t;
             static_row := static_row p;
             row_tombstones := row_tombstones p;
             clustered_rows := clustered_rows p |}
  | accept_static_cell id cell =>
      inr {| partition_tombstone := partition_tombstone p;
             static_row := append_cell id cell (static_row p);
             row_tombstones := row_tombstones p;
             clustered_rows := clustered_rows p |}
  | accept_row_tombstone rt =>
      inr {| partition_tombstone := partition_tombstone p;
             static_row := static_row p;
             row_tombstones := row_tombstones p ++ [rt];
             clustered_rows := clustered_rows p |}
  | accept_row key deleted_at rm dummy continuous =>
      inr {| partition_tombstone := partition_tombstone p;
             static_row := static_row p;
             row_tombstones := row_tombstones p;
             clustered_rows :=
               clustered_rows p
               ++ [new_rows_entry key deleted_at rm dummy continuous] |}
  | accept_row_cell id cell =>
      match last (clustered_rows p) with
      | None => inl null_current_row
      | Some e =>
          inr {| partition_tombstone := partition_tombstone p;
                 static_row := static_row p;
                 row_tombstones := row_tombstones p;
                 clustered_rows :=
                   removelast (clustered_rows p) ++ [append_row_cell id cell e] |}
      end
  end.

Fixpoint build_all (vs : list visit) (p : mutation_partition)
    : error + mutation_partition :=
  match vs with
  | [] => inr p
  | v :: rest =>
      match build p v with
      | inl e => inl e
      | inr p' => build_all rest p'
      end
  end.

(** Modelled from the spec: [unfreeze] is defined outside these sources. It
    fails with a schema-mismatch error if the schema's version does not equal
    the frozen stamp; otherwise it reconstructs a mutation of that schema and
    key from the events, and a failure of the reader is wrapped with the key,
    keyspace and table. *)
Definition unfreeze (fm : frozen_mutation) (s : schema) : error + mutation :=
  match check_schema_version (schema_version fm) s with
  | inl e => inl e
  | inr _ =>
      match build_all (read_partition (_bytes fm)) empty_partition with
      | inl e => inl e
      | inr p =>
          if read_malformed (_bytes fm) then
            inl (failed_consuming_mutation (key fm) (ks_name s) (cf_name s)
                   deserialization_error)
          else
            inr {| mutation_schema := s; mutation_key := key fm;
                   partition := p |}
      end
  end.

End codec.

(** *** Consuming

    The flattened consumer and the generator of range tombstone changes are
    interfaces declared outside these sources; the visitor and [consume] are
    those of [frozen_mutation.hh]. *)

Class FlattenedConsumerV2 (Consumer Result : Type) := {
  consume_new_partition : decorated_key → Consumer → Consumer;
  consume_tombstone : tombstone → Consumer → Consumer;
  consume_static_row : row → Consumer → stop_iteration * Consumer;
  consume_range_tombstone_change :
    range_tombstone_change → Consumer → stop_iteration * Consumer;
  consume_clustering_row : rows_entry → Consumer → stop_iteration * Consumer;
  consume_end_of_partition : Consumer → stop_iteration * Consumer;
  consume_end_of_stream : Consumer → Result * Consumer
}.

Class RangeTombstoneChangeGenerator (Generator : Type) := {
  generator_for : schema → Generator;
  reset : Generator → Generator;
  flush : position_in_partition → Generator →
          list range_tombstone_change * Generator;
  consume_range_tombstone : range_tombstone → Generator → Generator
}.

Section consume.
Context (get_token : schema → partition_key → token).
Context {Consumer Result Generator : Type}.
Context `{!FlattenedConsumerV2 Consumer Result}.
Context `{!RangeTombstoneChangeGenerator Generator}.

(** [_current_row] points into [_current_row_entry] or is null, so one
    field stands for both. *)
Record frozen_mutation_consumer_adaptor := {
  _schema : schema;
  _dk : option decorated_key;
  _static_row : option row;
  _rt_gen : Generator;
  _current_row_entry : option rows_entry;
  _consumer : Consumer;
  _stop_consuming : stop_iteration
}.

Record frozen_mutation_consume_result := {
  stop : stop_iteration;
  result : Result
}.

Local Abbreviation adaptor := frozen_mutation_consumer_adaptor.

Definition new_adaptor (s : schema) (consumer : Consumer) : adaptor :=
  {| _schema := s; _dk := None; _static_row := None;
     _rt_gen := generator_for s; _current_row_entry := None;
     _consumer := consumer; _stop_consuming := no |}.

Definition set_static_row (r : option row) (a : adaptor) : adaptor :=
  {| _schema := _schema a; _dk := _dk a; _static_row := r;
     _rt_gen := _rt_gen a; _current_row_entry := _current_row_entry a;
     _consumer := _consumer a; _stop_consuming := _stop_consuming a |}.

Definition set_rt_gen (g : Generator) (a : adaptor) : adaptor :=
  {| _schema := _schema a; _dk := _dk a; _static_row := _static_row a;
     _rt_gen := g; _current_row_entry := _current_row_entry a;
     _consumer := _consumer a; _stop_consuming := _stop_consuming a |}.

Definition set_current_row_entry (e : option rows_entry) (a : adaptor)
    : adaptor :=
  {| _schema := _schema a; _dk := _dk a; _static_row := _static_row a;
     _rt_gen := _rt_gen a; _current_row_entry := e;
     _consumer := _consumer a; _stop_consuming := _stop_consuming a |}.

Definition set_consumer (c : Consumer) (stop : stop_iteration) (a : adaptor)
    : adaptor :=
  {| _schema := _schema a; _dk := _dk a; _static_row := _static_row a;
     _rt_gen := _rt_gen a; _current_row_entry := _current_row_entry a;
     _consumer := c; _stop_consuming := stop |}.

(** [if (!_stop_consuming) { _stop_consuming = _consumer.consume(x); }] *)
Definition offer (call : Consumer → stop_iteration * Consumer) (a : adaptor)
    : adaptor :=
  match _stop_consuming a with
  | yes => a
  | no => let r := call (_consumer a) in set_consumer r.2 r.1 a
  end.

Definition flush_rows_and_tombstones (pos : position_in_partition)
    (a : adaptor) : adaptor :=
  let a :=
    match _static_row a with
    | Some (c :: r) =>
        offer (consume_static_row (c :: r)) (set_static_row (Some []) a)
    | _ => a
    end in
  let flushed := flush pos (_rt_gen a) in
  let a :=
    foldl (λ a rt, offer (consume_range_tombstone_change rt) a)
      (set_rt_gen flushed.2 a) flushed.1 in
  match _current_row_entry a with
  | Some row_entry =>
      offer (consume_clustering_row row_entry) (set_current_row_entry None a)
  | None => a
  end.

Definition on_new_partition (key : partition_key) (a : adaptor) : adaptor :=
  let a := set_rt_gen (reset (_rt_gen a)) a in
  let dk := decorate_key get_token (_schema a) key in
  {| _schema := _schema a; _dk := Some dk; _static_row := _static_row a;
     _rt_gen := _rt_gen a; _current_row_entry := _current_row_entry a;
     _consumer := consume_new_partition dk (_consumer a);
     _stop_consuming := _stop_consuming a |}.

(** The overrides of the visitor. *)
Definition accept (a : adaptor) (v : visit) : error + adaptor :=
  match v with
  | accept_partition_tombstone t =>
      inr (set_consumer (consume_tombstone t (_consumer a)) (_stop_consuming a) a)
  | accept_static_cell id cell =>
      inr (set_static_row
             (Some (append_cell id cell (default [] (_static_row a)))) a)
  | accept_row_tombstone rt =>
      let a := flush_rows_and_tombstones (position rt) a in
      inr (set_rt_gen (consume_range_tombstone rt (_rt_gen a)) a)
  | accept_row key deleted_at rm dummy continuous =>
      let a := flush_rows_and_tombstones key a in
      inr (set_current_row_entry
             (Some (new_rows_entry key deleted_at rm dummy continuous)) a)
  | accept_row_cell id cell =>
      match _current_row_entry a with
      | None => inl null_current_row
      | Some e =>
          inr (set_current_row_entry (Some (append_row_cell id cell e)) a)
      end
  end.

Fixpoint accept_all (vs : list visit) (a : adaptor) : adaptor * option error :=
  match vs with
  | [] => (a, None)
  | v :: rest =>
      match accept a v with
      | inl e => (a, Some e)
      | inr a' => accept_all rest a'
      end
  end.

Definition on_end_of_partition (a : adaptor)
    : adaptor * frozen_mutation_consume_result :=
  let a := flush_rows_and_tombstones after_all_clustered_rows a in
  let r := consume_end_of_partition (_consumer a) in
  let a :=
    set_consumer r.2
      (match r.1 with yes => yes | no => _stop_consuming a end) a in
  let res := consume_end_of_stream (_consumer a) in
  (set_consumer res.2 (_stop_consuming a) a,
   {| stop := _stop_consuming a; result := res.1 |}).

(** [frozen_mutation::consume(s, adaptor)]: the check of the version comes
    before the [try] block, so its error is not wrapped. *)
Definition consume_with (fm : frozen_mutation) (s : schema) (a : adaptor)
    : adaptor * (error + frozen_mutation_consume_result) :=
  match check_schema_version (schema_version fm) s with
  | inl e => (a, inl e)
  | inr _ =>
      let a := on_new_partition (_pk fm) a in
      match accept_all (read_partition (_bytes fm)) a with
      | (a, Some e) => (a, inl e)
      | (a, None) =>
          if read_malformed (_bytes fm) then
            (a, inl (failed_consuming_mutation (key fm) (ks_name s) (cf_name s)
                       deserialization_error))
          else
            let r := on_end_of_partition a in (r.1, inr r.2)
      end
  end.

(** [frozen_mutation::consume(s, consumer)] *)
Definition consume (fm : frozen_mutation) (s : schema) (consumer : Consumer)
    : Consumer * (error + frozen_mutation_consume_result) :=
  let r := consume_with fm s (new_adaptor s consumer) in
  (_consumer r.1, r.2).

End consume.

Arguments frozen_mutation_consumer_adaptor : clear implicits.
Arguments frozen_mutation_consume_result : clear implicits.

End FrozenMutation.

(** ** A ring of three nodes

    The scenario of the specification: nodes [B] and [C] own the ring with a
    replication factor of 2, and node [A] joins with the token 50. It is the
    concrete input of the examples below. *)

Module Example.
Import RangeStreamer.

Definition A : nat := 1.
Definition B : nat := 2.
Definition C : nat := 3.
(** A node that a filter rejects. *)
Definition D : nat := 4.

(** Ranges are pairs of bounds that do not wrap around the ring. *)
Global Instance pair_contains : RingRange (Z * Z) := {|
  contains := λ src r, ((src.1 <=? r.1) && (r.2 <=? src.2))%Z
|}.

(** Token metadata is the list of the tokens with their owners. *)
Global Instance token_list : TokenMetadata nat Z unit (list (Z * nat)) := {|
  get_topology := λ _, tt;
  get_all_endpoints := λ tm, remove_dups tm.*2;
  clone_only_token_map := λ tm, tm;
  update_normal_tokens := λ tokens ep tm,
    tm ++ map (λ t, (t, ep)) (elements tokens)
|}.

(** A multimap that puts a new entry before the others. *)
Global Instance newest_first : UnorderedMultimap string (gmap nat (list (Z * Z))) := {|
  emplaced := λ k v elements, (k, v) :: elements;
  emplaced_elements := λ k v elements, Permutation_cons_append elements (k, v)
|}.

(** A reactor that runs the threads to their end one after the other, and
    passes on the first exception. *)
Global Instance one_after_the_other : ParallelForEach.
Proof.
  refine {| interleaved := λ A threads, concat threads;
            passed_on := λ A e es, e |}.
  - reflexivity.
  - intros A threads thread Hin.
    induction Hin as [thread threads|other thread threads _ IH]; cbn.
    + apply sublist_inserts_r. reflexivity.
    + apply sublist_inserts_l, IH.
  - intros A e es. left.
Defined.

Definition active_ring : gmap (Z * Z) (list nat) :=
  {[ (0, 100)%Z := [B; C]; (100, 200)%Z := [C; B] ]}.

Definition pending_ring : gmap (Z * Z) (list nat) :=
  {[ (0, 50)%Z := [A; C]; (50, 100)%Z := [B; C]; (100, 200)%Z := [C; B] ]}.

Definition strategy : abstract_replication_strategy nat (Z * Z) (list (Z * nat)) := {|
  get_type := other_topology 0;
  strat_get_range_addresses := λ tm,
    if bool_decide (A ∈ tm.*2) then pending_ring else active_ring
|}.

Definition some_keyspace (rf : nat) : keyspace nat (Z * Z) (list (Z * nat)) := {|
  get_replication_strategy := strategy;
  get_effective_replication_map :=
    {| get_replication_factor := rf; get_range_addresses := active_ring |}
|}.

Definition env : globals nat := {|
  get_broadcast_address := A;
  get_local_snitch_ptr :=
    {| get_sorted_list_by_proximity := λ _ addresses, rev addresses |};
  logger_is_enabled := λ _, true
|}.

Definition gossip : gossiper nat := {|
  is_enabled := true;
  is_alive := λ _, true
|}.

Definition not_D : i_source_filter nat unit := {|
  should_include := λ _ address, bool_decide (address ≠ D)
|}.

(** A transport on which the plan numbered [fails_at] fails. *)
Definition transport (fails_at : Z) : stream_manager nat (Z * Z) := {|
  execute := λ sp,
    if decide (sp_number sp = fails_at)
    then Some (stream_exception "connection reset")
    else None
|}.

(** The streamer of node [A]. *)
Definition streamer (reason : stream_reason) (rf : nat) (fails_at : Z)
    (to_stream : list (string * gmap nat (list (Z * Z))))
    (nr_rx_added : Z) : range_streamer nat (Z * Z) Z unit (list (Z * nat)) := {|
  _db := {| find_keyspace := λ _, some_keyspace rf;
            get_config := {| consistent_rangemovement := true |} |};
  _stream_manager := transport fails_at;
  _abort_source := {| abort_requested := λ _ _ _, false |};
  get_token_metadata := [(0%Z, B); (100%Z, C)];
  _tokens := {[ 50%Z ]};
  _address := A;
  _description := "Bootstrap";
  _reason := reason;
  _source_filters := [not_D];
  _to_stream := to_stream;
  _nr_tx_added := 0;
  _nr_rx_added := nr_rx_added
|}.

(** Twenty ranges of width 10. *)
Definition twenty_ranges : list (Z * Z) :=
  map (λ i, (10 * Z.of_nat i, 10 * Z.of_nat i + 10)%Z) (seq 0 20).

End Example.

(** ** A mutation and two schemas

    The mutation of the test [test_deserialization_using_wrong_schema_throws]:
    one row with two regular cells, built under the first schema. *)

Module ExampleMutation.
Import FrozenMutation.

Definition s1 : schema :=
  {| version := 1%N; table_id := 7%N; ks_name := "some_keyspace";
     cf_name := "some_table" |}.

(** The same table with one more column, hence another version. *)
Definition s2 : schema :=
  {| version := 2%N; table_id := 7%N; ks_name := "some_keyspace";
     cf_name := "some_table" |}.

Definition bytes_of (text : string) : bytes :=
  Stdlib.Strings.String.list_byte_of_string text.

Definition the_row : rows_entry :=
  {| entry_position := for_key [];
     entry_dummy := false; entry_continuous := true;
     entry_row :=
       {| deleted_at := no_tombstone; created_at := no_marker;
          cells := [(0%N, atomic_cell (bytes_of "val1"));
                    (1%N, atomic_cell (bytes_of "val2"))] |} |}.

Definition m : mutation :=
  {| mutation_schema := s1;
     mutation_key := bytes_of "key";
     partition :=
       {| partition_tombstone := no_tombstone; static_row := [];
          row_tombstones := []; clustered_rows := [the_row] |} |}.

(** A consumer that keeps the names of the calls made on it. *)
Global Instance recorder : FlattenedConsumerV2 (list string) nat := {|
  consume_new_partition := λ _ calls, calls ++ ["consume_new_partition"];
  consume_tombstone := λ _ calls, calls ++ ["consume(tombstone)"];
  consume_static_row := λ _ calls, (no, calls ++ ["consume(static_row)"]);
  consume_range_tombstone_change := λ _ calls,
    (no, calls ++ ["consume(range_tombstone_change)"]);
  consume_clustering_row := λ _ calls, (no, calls ++ ["consume(clustering_row)"]);
  consume_end_of_partition := λ calls, (no, calls ++ ["consume_end_of_partition"]);
  consume_end_of_stream := λ calls,
    (length calls, calls ++ ["consume_end_of_stream"])
|}.

(** A generator that turns each range tombstone into the change that opens
    it, at the next flush. *)
Global Instance opening_changes : RangeTombstoneChangeGenerator (list range_tombstone) := {|
  generator_for := λ _, [];
  reset := λ _, [];
  flush := λ _ pending,
    (map (λ rt, {| rtc_position := position rt; rtc_tombstone := rt_tomb rt |})
       pending, []);
  consume_range_tombstone := λ rt pending, pending ++ [rt]
|}.

Definition murmur (s : schema) (k : partition_key) : token :=
  Z.of_nat (length k).

End ExampleMutation.

(** ** Other runs of node [A]

    The streamer of the ring above on a transport that never fails, with an
    abort source that answers every check the same way. *)

Module ExampleRuns.
Import RangeStreamer.

(** A transport on which every plan runs. *)
Definition reliable : stream_manager nat (Z * Z) := {| execute := λ _, None |}.

Definition streamer_on (transport : stream_manager nat (Z * Z)) (aborting : bool)
    (to_stream : list (string * gmap nat (list (Z * Z))))
    : range_streamer nat (Z * Z) Z unit (list (Z * nat)) :=
  let joining := Example.streamer bootstrap 2 0 to_stream 1 in
  {| _db := _db joining;
     _stream_manager := transport;
     _abort_source := {| abort_requested := λ _ _ _, aborting |};
     get_token_metadata := get_token_metadata joining;
     _tokens := _tokens joining;
     _address := _address joining;
     _description := _description joining;
     _reason := _reason joining;
     _source_filters := _source_filters joining;
     _to_stream := to_stream;
     _nr_tx_added := _nr_tx_added joining;
     _nr_rx_added := _nr_rx_added joining |}.

(** A reactor that runs the threads to their end one after the other,
    the last one first, and passes on the last exception. *)
Definition last_thread_first : ParallelForEach.
Proof.
  refine {| interleaved := λ A threads, concat (reverse threads);
            passed_on := λ A e es, default e (last es) |}.
  - intros A threads. induction threads as [|thread threads IH]; [reflexivity|].
    rewrite reverse_cons, concat_app. cbn [concat].
    rewrite app_nil_r, IH. apply Permutation_app_comm.
  - intros A threads thread Hin. apply elem_of_reverse in Hin.
    induction Hin as [thread threads'|other thread threads' _ IH]; cbn.
    + apply sublist_inserts_r. reflexivity.
    + apply sublist_inserts_l, IH.
  - intros A e es. destruct (last es) as [x|] eqn:Hlast; cbn; [|left].
    apply last_Some in Hlast as [es' ->]. right.
    apply elem_of_app. right. left.
Defined.

(** Three keyspaces; the source of the second has two ranges, hence two
    plans. *)
Definition three_keyspaces : list (string * gmap nat (list (Z * Z))) :=
  [("ks1", {[ Example.B := [(0, 10)%Z] ]});
   ("ks2", {[ Example.C := [(0, 10)%Z; (10, 20)%Z] ]});
   ("ks3", {[ Example.B := [(20, 30)%Z] ]})].

End ExampleRuns.

(** ** Vocabulary of the statements *)

Section vocabulary.
Context {inet_address token_range : Type}.
Context `{Countable inet_address, Countable token_range}.

(** A fetch map built from the ranges [seen]: the local node is not a key,
    every vector holds ranges of [seen] without repetition, and no range is
    in the vectors of two endpoints. *)
Definition single_source (local : inet_address)
    (m : gmap inet_address (list token_range)) (seen : list token_range)
    : Prop :=
  m !! local = None
  ∧ (∀ a v, m !! a = Some v → NoDup v ∧ ∀ r, r ∈ v → r ∈ seen)
  ∧ (∀ r a1 a2 v1 v2,
       m !! a1 = Some v1 → m !! a2 = Some v2 → r ∈ v1 → r ∈ v2 → a1 = a2).

(** No endpoint to stream a range from: the local node is not among the
    candidates and every candidate is filtered. *)
Definition no_source (local : inet_address) (is_filtered : inet_address → bool)
    (addresses : list inet_address) : Prop :=
  (local ∉ addresses) ∧ (∀ a, a ∈ addresses → is_filtered a = true).

(** The ranges that a run still has to stream: the sum of the sizes of the
    work lists of all its sources. *)
Definition ranges_remaining
    (to_stream : list (string * gmap inet_address (list token_range))) : nat :=
  sum_list (map (λ fetch,
                   sum_list (map (λ ip_range, length ip_range.2)
                               (map_to_list fetch.2)))
              to_stream).

End vocabulary.

Section vocabulary_of_resolution.
Context {inet_address token_range : Type}.
Context `{!RangeStreamer.RingRange token_range}.

(** A candidate to stream from: the local node, which holds the range
    already, or an endpoint that no filter rejects. *)
Definition has_source (local : inet_address) (is_filtered : inet_address → bool)
    (addresses : list inet_address) : Prop :=
  local ∈ addresses ∨ ∃ a, a ∈ addresses ∧ is_filtered a = false.

(** The ring ranges, with their replicas, that contain a desired range. *)
Definition containing (desired_range : token_range)
    (range_addresses : list (token_range * list inet_address))
    : list (token_range * list inet_address) :=
  filter (λ x, RangeStreamer.contains x.1 desired_range = true) range_addresses.

(** The replicas of the ring ranges that contain a desired range, each
    replica set in the order of the snitch, one set after the other. *)
Definition candidates (snitch : RangeStreamer.i_endpoint_snitch inet_address)
    (address : inet_address) (desired_range : token_range)
    (range_addresses : list (token_range * list inet_address))
    : list inet_address :=
  concat (map (λ x, RangeStreamer.get_sorted_list_by_proximity snitch address x.2)
            (containing desired_range range_addresses)).

End vocabulary_of_resolution.

(** * Properties

    ** Reasoning about computations in [M] *)

Import RangeStreamer.

Section monad_lemmas.
Context {inet_address token_range : Type}.
Local Abbreviation M := (Effects.M inet_address token_range).

Lemma bind_ret_l {A B} (a : A) (f : A → M B) : bind (ret a) f = f a.
Proof. unfold bind, ret. by destruct (f a). Qed.

Lemma bind_inr {A B} (m : M A) (f : A → M B) l b :
  bind m f = (l, inr b) →
  ∃ a l1 l2, m = (l1, inr a) ∧ f a = (l2, inr b) ∧ l = l1 ++ l2.
Proof.
  destruct m as [l1 [e|a]]; simpl; [congruence|].
  destruct (f a) as [l2 r] eqn:Hf. intros [= <- ->]. eauto 6.
Qed.

Lemma bind_inl {A B} (m : M A) (f : A → M B) l e :
  bind m f = (l, inl e) →
  m = (l, inl e) ∨
  ∃ a l1 l2, m = (l1, inr a) ∧ f a = (l2, inl e) ∧ l = l1 ++ l2.
Proof.
  destruct m as [l1 [e'|a]]; simpl.
  - intros [= <- <-]. by left.
  - destruct (f a) as [l2 r] eqn:Hf. intros [= <- ->]. right. eauto 6.
Qed.

Lemma outcome_bind_returns {A B} (m : M A) (f : A → M B) a :
  outcome m = inr a → outcome (bind m f) = outcome (f a).
Proof.
  destruct m as [l [e|a']]; simpl; [done|]. intros [= ->].
  by destruct (f a).
Qed.

(** An invariant that tracks the elements walked so far. *)
Lemma for_each_invariant {A S} (I : S → list A → Prop) (body : S → A → M S) xs :
  (∀ acc done x l acc',
     I acc done → body acc x = (l, inr acc') → I acc' (done ++ [x])) →
  ∀ done acc l acc',
    I acc done → for_each xs body acc = (l, inr acc') → I acc' (done ++ xs).
Proof.
  intros Hbody. induction xs as [|x rest IH]; intros done acc l acc' HI.
  - intros [= _ <-]. by rewrite app_nil_r.
  - cbn [for_each]. intros (acc1 & l1 & l2 & Hx & Hrest & _)%bind_inr.
    rewrite cons_middle, app_assoc. eapply IH; [|done]. eauto.
Qed.

(** A property that every returning turn of a loop preserves holds when the
    loop returns. *)
Lemma for_each_preserves {A S} (P : S → Prop) (body : S → A → M S) xs :
  (∀ acc x l acc', x ∈ xs → P acc → body acc x = (l, inr acc') → P acc') →
  ∀ acc l acc', P acc → for_each xs body acc = (l, inr acc') → P acc'.
Proof.
  induction xs as [|x rest IH]; intros Hbody acc l acc' HP.
  - by intros [= _ <-].
  - cbn [for_each]. intros (acc1 & l1 & l2 & Hx & Hrest & _)%bind_inr.
    eapply IH; [|eapply Hbody; [|done..]|done].
    + intros ???? Hin. apply Hbody. apply elem_of_cons. by right.
    + apply elem_of_cons. by left.
Qed.

(** When a loop returns, every turn returned, and what it logged is in the
    log of the loop. *)
Lemma for_each_turn {A S} (body : S → A → M S) xs x :
  x ∈ xs →
  ∀ acc l acc', for_each xs body acc = (l, inr acc') →
  ∃ acc1 lx acc2, body acc1 x = (lx, inr acc2) ∧ lx ⊆ l.
Proof.
  induction xs as [|y rest IH]; [by intros ?%elem_of_nil|].
  intros Hin acc l acc'. cbn [for_each].
  intros (acc1 & l1 & l2 & Hy & Hrest & ->)%bind_inr.
  apply elem_of_cons in Hin as [->|Hin].
  - exists acc, l1, acc1. split; [done|]. intros e ?. apply elem_of_app. auto.
  - destruct (IH Hin _ _ _ Hrest) as (acc2 & lx & acc3 & ? & Hsub).
    exists acc2, lx, acc3. split; [done|].
    intros e ?. apply elem_of_app. auto.
Qed.

(** When a loop throws, some turn threw that exception. *)
Lemma for_each_throws {A S} (body : S → A → M S) xs :
  ∀ acc l e, for_each xs body acc = (l, inl e) →
  ∃ x acc1 lx, x ∈ xs ∧ body acc1 x = (lx, inl e).
Proof.
  induction xs as [|y rest IH]; intros acc l e; [done|]. cbn [for_each].
  intros [Hy|(acc1 & l1 & l2 & Hy & Hrest & _)]%bind_inl.
  - exists y, acc, l. split; [|done]. apply elem_of_cons. by left.
  - destruct (IH _ _ _ Hrest) as (x & acc2 & lx & ? & ?).
    exists x, acc2, lx. split; [|done]. apply elem_of_cons. by right.
Qed.

(** A loop whose turns all return returns. *)
Lemma for_each_returns {A S} (body : S → A → M S) xs :
  (∀ acc x, x ∈ xs → ∃ l acc', body acc x = (l, inr acc')) →
  ∀ acc, ∃ l acc', for_each xs body acc = (l, inr acc').
Proof.
  induction xs as [|y rest IH]; intros Hbody acc; [by eexists _, _|].
  cbn [for_each].
  destruct (Hbody acc y) as (l1 & acc1 & ->); [apply elem_of_cons; by left|].
  destruct IH with (acc := acc1) as (l2 & acc2 & Hrest).
  { intros ?? Hin. apply Hbody. apply elem_of_cons. by right. }
  cbn [bind]. rewrite Hrest. by eexists _, _.
Qed.

End monad_lemmas.

(** ** The fetch map *)

Section fetch_map.
Context {inet_address token_range token topology token_metadata : Type}.
Context `{Countable inet_address, Countable token_range, Countable token}.
Context `{!RingRange token_range}.
Context `{!TokenMetadata inet_address token topology token_metadata}.
Context `{!UnorderedMultimap string (gmap inet_address (list token_range))}.
Context {reactor : ParallelForEach}.
Context (env : globals inet_address).

Local Abbreviation streamer :=
  (range_streamer inet_address token_range token topology token_metadata).
Local Abbreviation fetch_map := (gmap inet_address (list token_range)).

Implicit Types (self : streamer) (m : fetch_map) (r : token_range).
Implicit Types (a : inet_address) (addresses : list inet_address).

Lemma lookup_push_back_at m a a' r :
  push_back_at a r m !! a' =
    if decide (a = a') then Some (default [] (m !! a) ++ [r]) else m !! a'.
Proof. unfold push_back_at. by rewrite lookup_insert. Qed.

(** The loop over the candidates leaves the map as it is or appends the
    range to the vector of one endpoint that is neither the local node nor
    filtered; it reports a source exactly when it met the local node or
    appended. *)
Lemma try_addresses_spec self filters ks r addresses found m l found' m' :
  try_addresses env self filters ks r addresses found m = (l, inr (found', m')) →
  (m' = m ∧
   (found' = true ↔ found = true ∨ get_broadcast_address env ∈ addresses) ∧
   ∀ a, a ∈ addresses → a ≠ get_broadcast_address env →
        filtered filters (get_topology (get_token_metadata self)) a = true)
  ∨ (∃ a, a ∈ addresses ∧ a ≠ get_broadcast_address env ∧
          filtered filters (get_topology (get_token_metadata self)) a = false ∧
          m' = push_back_at a r m ∧ found' = true).
Proof.
  revert found l. induction addresses as [|a rest IH]; intros found l.
  - intros [= _ <- <-]. left. split_and!; [done| |by intros ? ?%elem_of_nil].
    split; [by left|]. by intros [?|?%elem_of_nil].
  - cbn [try_addresses]. case_decide as Hself.
    + intros [(-> & Hfound & Hall)|(a' & ? & ? & ? & ? & ?)]%IH.
      * left. split_and!; [done| |].
        -- rewrite Hfound. subst a. rewrite elem_of_cons. intuition.
        -- intros a' [->|?]%elem_of_cons ?; [done|]. by apply Hall.
      * right. exists a'. split_and!; try done. apply elem_of_cons. by right.
    + destruct (filtered _ _ a) eqn:Hf.
      * intros (u & l1 & l2 & _ & Hrest & _)%bind_inr.
        apply IH in Hrest as [(-> & Hfound & Hall)|(a' & ? & ? & ? & ? & ?)].
        -- left. split_and!; [done| |].
           ++ rewrite Hfound, elem_of_cons. intuition congruence.
           ++ intros a' [->|?]%elem_of_cons ?; [done|]. by apply Hall.
        -- right. exists a'. split_and!; try done. apply elem_of_cons. by right.
      * intros [= _ <- <-]. right. exists a. split_and!; try done.
        apply elem_of_cons. by left.
Qed.

Lemma try_addresses_returns self filters ks r addresses found m :
  ∃ l res, try_addresses env self filters ks r addresses found m = (l, inr res).
Proof.
  revert found. induction addresses as [|a rest IH]; intros found; simpl.
  - by eexists _, _.
  - case_decide; [apply IH|].
    destruct (filtered _ _ a); [|by eexists _, _].
    destruct (IH found) as (l & res & ->). simpl. by eexists _, _.
Qed.

(** What one turn of the loop over [ranges_with_sources] does to the map. *)
Lemma fetch_range_spec self filters ks m r addresses l m' :
  fetch_range env self filters ks m (r, addresses) = (l, inr m') →
  m' = m ∨ ∃ a, a ∈ addresses ∧ a ≠ get_broadcast_address env ∧
                filtered filters (get_topology (get_token_metadata self)) a = false ∧
                m' = push_back_at a r m.
Proof.
  unfold fetch_range. cbn [fst snd].
  intros ([found m1] & l1 & l2 & Htry & Hrest & _)%bind_inr.
  assert (m' = m1) as ->.
  { cbn [fst snd] in Hrest. destruct found; [by injection Hrest|].
    destruct (_ && _); [|done].
    by apply bind_inr in Hrest as (? & ? & ? & _ & [= _ <-] & _). }
  apply try_addresses_spec in Htry as [(-> & _)|(a & ? & ? & ? & -> & _)];
    [by left|right; eauto 6].
Qed.

Lemma single_source_push_back local m seen a r :
  single_source local m seen → a ≠ local → r ∉ seen →
  single_source local (push_back_at a r m) (seen ++ [r]).
Proof.
  intros (Hlocal & Hvec & Hone) Ha Hr. split_and!.
  - rewrite lookup_push_back_at. by case_decide.
  - intros a' v. rewrite lookup_push_back_at. case_decide as Heq.
    + intros [= <-]. destruct (m !! a) as [old|] eqn:Hold; simpl.
      * destruct (Hvec _ _ Hold) as [Hnodup Hin]. split.
        -- apply NoDup_app. split_and!; [done| |apply NoDup_singleton].
           intros r' ? ->%list_elem_of_singleton. auto.
        -- intros r' [?|?]%elem_of_app; apply elem_of_app; auto.
      * split; [apply NoDup_singleton|].
        intros r' ?. apply elem_of_app. by right.
    + intros Hv. destruct (Hvec _ _ Hv) as [Hnodup Hin]. split; [done|].
      intros r' ?. apply elem_of_app. auto.
  - assert (∀ a' v r', m !! a' = Some v → r' ∈ v → r' ≠ r) as Hfresh.
    { intros a' v r' Hv Hin ->. destruct (Hvec _ _ Hv) as [_ ?]. auto. }
    assert (∀ r' v, r' ∈ default [] (m !! a) ++ [r] → m !! a = Some v →
                    r' ≠ r → r' ∈ v) as Hold.
    { intros r' v Hin Hv Hne. rewrite Hv in Hin. simpl in Hin.
      apply elem_of_app in Hin as [?|?%list_elem_of_singleton]; done. }
    intros r' a1 a2 v1 v2. rewrite !lookup_push_back_at.
    repeat case_decide; subst; try done.
    + intros [= <-] Hv2 Hin1 Hin2.
      assert (r' ≠ r) as Hne by eauto.
      destruct (m !! a1) as [old|] eqn:Ha1.
      * eapply Hone; [exact Ha1|exact Hv2| |done]. eauto.
      * simpl in Hin1. by apply list_elem_of_singleton in Hin1.
    + intros Hv1 [= <-] Hin1 Hin2.
      assert (r' ≠ r) as Hne by eauto.
      destruct (m !! a2) as [old|] eqn:Ha2.
      * eapply Hone; [exact Hv1|exact Ha2|done|]. eauto.
      * simpl in Hin2. by apply list_elem_of_singleton in Hin2.
    + eauto.
Qed.

Lemma single_source_weaken local m seen r :
  single_source local m seen → single_source local m (seen ++ [r]).
Proof.
  intros (Hlocal & Hvec & Hone). split_and!; [done| |done].
  intros a v Hv. destruct (Hvec _ _ Hv) as [? Hin]. split; [done|].
  intros r' ?. apply elem_of_app. auto.
Qed.

Lemma fetch_loop_single_source self filters ks xs :
  ∀ seen m l m',
    NoDup (seen ++ xs.*1) →
    single_source (get_broadcast_address env) m seen →
    for_each xs (fetch_range env self filters ks) m = (l, inr m') →
    single_source (get_broadcast_address env) m' (seen ++ xs.*1).
Proof.
  induction xs as [|[r addresses] rest IH]; intros seen m l m' Hnodup Hinv.
  - intros [= _ <-]. by rewrite app_nil_r.
  - cbn [for_each]. intros (m1 & l1 & l2 & Hstep & Hrest & _)%bind_inr.
    rewrite fmap_cons, cons_middle, app_assoc in Hnodup |- *.
    eapply IH; [done| |done].
    assert (r ∉ seen) as Hfresh.
    { apply NoDup_app in Hnodup as [Hnodup _].
      apply NoDup_app in Hnodup as (_ & Hdisj & _).
      intros ?. eapply Hdisj; [done|]. by apply list_elem_of_singleton. }
    apply fetch_range_spec in Hstep as [->|(a & _ & ? & _ & ->)].
    + by apply single_source_weaken.
    + by apply single_source_push_back.
Qed.

(** C1: in the fetch map that [get_range_fetch_map] returns, a range is in
    the range vector of at most one endpoint (and at most once there, and
    only if it is a desired range of the input), and the broadcast address of
    the local node is not a key. *)
Theorem get_range_fetch_map_single_source self
    (ranges_with_sources : gmap token_range (list inet_address))
    filters ks l m :
  get_range_fetch_map env self ranges_with_sources filters ks = (l, inr m) →
  (∀ r a1 a2 v1 v2,
     m !! a1 = Some v1 → m !! a2 = Some v2 → r ∈ v1 → r ∈ v2 → a1 = a2)
  ∧ (∀ a v, m !! a = Some v →
            NoDup v ∧ ∀ r, r ∈ v → is_Some (ranges_with_sources !! r))
  ∧ m !! get_broadcast_address env = None.
Proof.
  unfold get_range_fetch_map. intros Hloop.
  eapply (fetch_loop_single_source _ _ _ _ []) in Hloop as (Hlocal & Hvec & Hone).
  - split_and!; [done| |done]. intros a v Hv.
    destruct (Hvec _ _ Hv) as [? Hin]. split; [done|].
    intros r Hr. apply Hin in Hr. simpl in Hr.
    apply list_elem_of_fmap in Hr as ([r' addresses] & -> & Hr).
    apply elem_of_map_to_list in Hr. eauto.
  - apply NoDup_fst_map_to_list.
  - split_and!; [apply lookup_empty| |]; intros *; by rewrite lookup_empty.
Qed.

(** ** Ranges without a source *)

Lemma try_addresses_no_source self filters ks r addresses m :
  no_source (get_broadcast_address env)
    (filtered filters (get_topology (get_token_metadata self))) addresses →
  ∃ l, try_addresses env self filters ks r addresses false m = (l, inr (false, m)).
Proof.
  intros [Hlocal Hall].
  destruct (try_addresses_returns self filters ks r addresses false m)
    as (l & [found' m'] & Htry).
  exists l. rewrite Htry.
  apply try_addresses_spec in Htry as [(-> & Hfound & _)|(a & Ha & _ & Hf & _)].
  - destruct found'; [|done]. destruct Hfound as [[?|?] _]; done.
  - rewrite Hall in Hf; done.
Qed.

Lemma fetch_range_throws self filters ks m r addresses l e :
  fetch_range env self filters ks m (r, addresses) = (l, inl e) →
  e = runtime_error (unable_to_find_sufficient_sources r ks)
  ∧ no_source (get_broadcast_address env)
      (filtered filters (get_topology (get_token_metadata self))) addresses
  ∧ ¬ (_reason self = replace
       ∧ get_replication_factor
           (get_effective_replication_map (find_keyspace (_db self) ks)) = 1).
Proof.
  unfold fetch_range. cbn [fst snd].
  intros [Htry|([found m1] & l1 & l2 & Htry & Hrest & _)]%bind_inl.
  { destruct (try_addresses_returns self filters ks r addresses false m)
      as (? & ? & Hret). congruence. }
  cbn [fst snd] in Hrest. destruct found; [done|].
  apply try_addresses_spec in Htry as [(_ & Hfound & Hall)|(? & _ & _ & _ & _ & ?)];
    [|done].
  assert (get_broadcast_address env ∉ addresses) as Hlocal.
  { intros Hin. destruct Hfound as [_ Hfound]. by discriminate Hfound; right. }
  destruct (_ && _) eqn:Hcase.
  { by apply bind_inl in Hrest as [?|(? & ? & ? & _ & ? & _)]. }
  injection Hrest as _ <-. split_and!; [done| |].
  - split; [done|]. intros a Hin. apply Hall; [done|]. by intros ->.
  - intros [Hreason Hrf]. rewrite !bool_decide_eq_true_2 in Hcase; done.
Qed.

Lemma fetch_range_no_source self filters ks m r addresses :
  no_source (get_broadcast_address env)
    (filtered filters (get_topology (get_token_metadata self))) addresses →
  ∃ l, fetch_range env self filters ks m (r, addresses) =
    if bool_decide (_reason self = replace)
       && bool_decide (get_replication_factor
            (get_effective_replication_map (find_keyspace (_db self) ks)) = 1)
    then (l ++ [(warn, unable_to_find_sources_rf1_replace r ks)], inr m)
    else (l, inl (runtime_error (unable_to_find_sufficient_sources r ks))).
Proof.
  intros Hno.
  destruct (try_addresses_no_source self filters ks r addresses m Hno) as [l Htry].
  exists l. unfold fetch_range. cbn [fst snd]. rewrite Htry. cbn [bind fst snd].
  destruct (_ && _); cbn; by rewrite ?app_nil_r.
Qed.

Lemma fetch_range_returns_when_tolerated self filters ks m x :
  _reason self = replace →
  get_replication_factor
    (get_effective_replication_map (find_keyspace (_db self) ks)) = 1 →
  ∃ l m', fetch_range env self filters ks m x = (l, inr m').
Proof.
  intros Hreason Hrf. destruct x as [r addresses].
  destruct (fetch_range env self filters ks m (r, addresses)) as [l [e|m']] eqn:Hx;
    [|by eexists _, _].
  apply fetch_range_throws in Hx as (_ & _ & []). done.
Qed.

(** Every range of a returned fetch map is under an endpoint that is one of
    its candidates, is not the local node and is not filtered. *)
Lemma get_range_fetch_map_source self
    (ranges_with_sources : gmap token_range (list inet_address))
    filters ks l m a v r :
  get_range_fetch_map env self ranges_with_sources filters ks = (l, inr m) →
  m !! a = Some v → r ∈ v →
  ∃ addresses, ranges_with_sources !! r = Some addresses ∧ a ∈ addresses
    ∧ a ≠ get_broadcast_address env
    ∧ filtered filters (get_topology (get_token_metadata self)) a = false.
Proof.
  unfold get_range_fetch_map. intros Hloop. revert a v r.
  eapply (for_each_preserves (λ m : fetch_map, ∀ a v r, m !! a = Some v → r ∈ v → _));
    [|shelve|exact Hloop].
  - intros acc [r' addresses] l' acc' Hin%elem_of_map_to_list Hacc Hstep a v r.
    apply fetch_range_spec in Hstep as [->|(a' & ? & ? & ? & ->)]; [apply Hacc|].
    rewrite lookup_push_back_at. case_decide as Heq; [|apply Hacc].
    subst a'. intros [= <-] [Hold|Hnew%list_elem_of_singleton]%elem_of_app;
      [|subst r; eauto].
    destruct (acc !! a) as [old|] eqn:Ha; [by eapply Hacc|].
    by apply elem_of_nil in Hold.
  Unshelve. intros a v r. by rewrite lookup_empty.
Qed.

(** C5: a desired range whose candidates are all the local node or filtered,
    with no local copy found, makes its turn of the loop, and with it
    [get_range_fetch_map], throw the error that names the range met and the
    keyspace (the range named is [r] itself in its own turn, and a range with
    no source when the whole map is walked); unless the reason is [replace]
    and the replication factor is 1: then the function returns, the warning
    for [r] is in the log and [r] is in no vector of the fetch map. *)
Theorem get_range_fetch_map_no_source self
    (ranges_with_sources : gmap token_range (list inet_address))
    filters ks r addresses :
  let local := get_broadcast_address env in
  let is_filtered := filtered filters (get_topology (get_token_metadata self)) in
  let rf := get_replication_factor
              (get_effective_replication_map (find_keyspace (_db self) ks)) in
  ranges_with_sources !! r = Some addresses →
  (∀ a, a ∈ addresses → a = local ∨ is_filtered a = true) →
  local ∉ addresses →
  if bool_decide (_reason self = replace ∧ rf = 1) then
    ∃ l m,
      get_range_fetch_map env self ranges_with_sources filters ks = (l, inr m)
      ∧ (warn, unable_to_find_sources_rf1_replace r ks) ∈ l
      ∧ ∀ a v, m !! a = Some v → r ∉ v
  else
    (∀ m, ∃ l, fetch_range env self filters ks m (r, addresses) =
         (l, inl (runtime_error (unable_to_find_sufficient_sources r ks))))
    ∧ ∃ l r' addresses',
        get_range_fetch_map env self ranges_with_sources filters ks =
          (l, inl (runtime_error (unable_to_find_sufficient_sources r' ks)))
        ∧ ranges_with_sources !! r' = Some addresses'
        ∧ no_source local is_filtered addresses'.
Proof.
  intros local is_filtered rf Hr Hall Hlocal.
  assert (no_source local is_filtered addresses) as Hno.
  { split; [done|]. intros a Ha. destruct (Hall a Ha) as [->|]; done. }
  assert ((r, addresses) ∈ map_to_list ranges_with_sources) as Hin
    by by apply elem_of_map_to_list.
  case_bool_decide as Hcase.
  - destruct Hcase as [Hreason Hrf].
    destruct (for_each_returns (fetch_range env self filters ks)
                (map_to_list ranges_with_sources)) with (acc := (∅ : fetch_map))
      as (l & m & Hloop).
    { intros acc x _. by apply fetch_range_returns_when_tolerated. }
    exists l, m. split_and!; [done| |].
    + destruct (for_each_turn _ _ _ Hin _ _ _ Hloop) as (m1 & lx & m2 & Hx & Hsub).
      apply Hsub. destruct (fetch_range_no_source self filters ks m1 r _ Hno)
        as [l' Hx'].
      rewrite Hx in Hx'. rewrite !bool_decide_eq_true_2 in Hx' by done.
      injection Hx' as -> _. apply elem_of_app. right. by apply list_elem_of_singleton.
    + intros a v Hv Hrv.
      destruct (get_range_fetch_map_source _ _ _ _ _ _ _ _ _ Hloop Hv Hrv)
        as (addresses' & Hr' & Ha & Hne & Hf).
      rewrite Hr in Hr'. injection Hr' as <-.
      destruct Hno as [_ Hfiltered]. unfold is_filtered in Hfiltered.
      rewrite Hfiltered in Hf; done.
  - assert (bool_decide (_reason self = replace) && bool_decide (rf = 1) = false)
      as Hcase'.
    { destruct (bool_decide (_reason self = replace)) eqn:Hreason; [|done].
      apply bool_decide_eq_true in Hreason. cbn [andb].
      apply bool_decide_eq_false. tauto. }
    split.
    + intros m. destruct (fetch_range_no_source self filters ks m r _ Hno)
        as [l Hx].
      exists l. rewrite Hx. subst rf. by rewrite Hcase'.
    + destruct (get_range_fetch_map env self ranges_with_sources filters ks)
        as [l [e|m]] eqn:Hloop.
      * unfold get_range_fetch_map in Hloop.
        destruct (for_each_throws _ _ _ _ _ Hloop)
          as ([r' addresses'] & m1 & lx & Hin' & Hx).
        apply fetch_range_throws in Hx as (-> & Hno' & _).
        exists l, r', addresses'. split_and!; [done| |done].
        by apply elem_of_map_to_list.
      * unfold get_range_fetch_map in Hloop.
        destruct (for_each_turn _ _ _ Hin _ _ _ Hloop) as (m1 & lx & m2 & Hx & _).
        destruct (fetch_range_no_source self filters ks m1 r _ Hno) as [l' Hx'].
        rewrite Hx in Hx'. subst rf. by rewrite Hcase' in Hx'.
Qed.

End fetch_map.

(** ** Choosing the mode and adding plans *)

Section adding.
Context {inet_address token_range token topology token_metadata : Type}.
Context `{Countable inet_address, Countable token_range, Countable token}.
Context `{!RingRange token_range}.
Context `{!TokenMetadata inet_address token topology token_metadata}.
Context `{!UnorderedMultimap string (gmap inet_address (list token_range))}.
Context {reactor : ParallelForEach}.
Context (env : globals inet_address) (nr_added_bits : Z).

Local Abbreviation streamer :=
  (range_streamer inet_address token_range token topology token_metadata).
Local Abbreviation fetch_map := (gmap inet_address (list token_range)).
Local Abbreviation call := (RangeStreamer.call inet_address token_range).

Implicit Types (self : streamer) (ks : string).

(** C9: [use_strict_sources_for_ranges] returns, and what it returns is
    [true] exactly when the switch [consistent_rangemovement] is on, the
    node has tokens, the strategy of the keyspace is not the everywhere
    topology, and the ring has at least as many nodes as the replication
    factor of the keyspace. *)
Theorem use_strict_sources_for_ranges_iff self ks :
  ∃ strict,
    outcome (use_strict_sources_for_ranges self ks) = inr strict
    ∧ (strict = true ↔
         consistent_rangemovement (get_config (_db self)) = true
         ∧ _tokens self ≠ ∅
         ∧ get_type (get_replication_strategy (find_keyspace (_db self) ks))
             ≠ everywhere_topology
         ∧ get_replication_factor
             (get_effective_replication_map (find_keyspace (_db self) ks))
           ≤ length (get_all_endpoints (get_token_metadata self))).
Proof.
  eexists. split; [reflexivity|].
  rewrite !andb_true_iff, !negb_true_iff, !bool_decide_eq_false,
    bool_decide_eq_true.
  tauto.
Qed.

(** C10: with [is_replacing] set, [add_ranges] resolves the sources with
    [get_all_ranges_with_sources_for] for every streamer, so also for one
    where [use_strict_sources_for_ranges] answers [true]: the strict
    resolver is not consulted, and the plan that is added is the fetch map
    of the sources found in normal mode. *)
Theorem add_ranges_replacing_resolves_in_normal_mode self ks ranges g :
  _nr_tx_added self = 0%Z →
  let self' := set_nr_rx_added (incr nr_added_bits (_nr_rx_added self)) self in
  let normal := get_all_ranges_with_sources_for env self' ks ranges in
  resolve_sources env self' ks ranges g true = normal
  ∧ match outcome normal with
    | inl e =>
        (add_ranges env nr_added_bits self ks ranges g true).1 = self'
        ∧ outcome (add_ranges env nr_added_bits self ks ranges g true).2 = inl e
    | inr sources =>
        match outcome (get_range_fetch_map env self' sources
                         (_source_filters self') ks) with
        | inl e =>
            (add_ranges env nr_added_bits self ks ranges g true).1 = self'
            ∧ outcome (add_ranges env nr_added_bits self ks ranges g true).2
              = inl e
        | inr m =>
            (add_ranges env nr_added_bits self ks ranges g true).1
              = emplace ks m self'
            ∧ outcome (add_ranges env nr_added_bits self ks ranges g true).2
              = inr tt
        end
    end.
Proof.
  intros Htx self' normal.
  assert (resolve_sources env self' ks ranges g true = normal) as Hresolve.
  { unfold resolve_sources. cbn [negb]. by rewrite bind_ret_l. }
  split; [done|].
  unfold add_ranges. rewrite decide_False by (by intros []).
  fold self'. unfold plan_ranges_for. rewrite Hresolve.
  destruct normal as [l1 [e|sources]]; cbn [outcome snd bind]; [done|].
  match goal with
  | |- context [bind ?dbg _] => destruct dbg as [l2 [e|[]]] eqn:Hdbg
  end.
  { exfalso. destruct (logger_is_enabled env debug); [|done].
    destruct (for_each_returns
                (λ (_ : unit) (x : token_range * list inet_address),
                   logger debug (range_exists_on (_description self') ks x.1 x.2))
                (map_to_list sources)) with (acc := tt) as (? & ? & Hret).
    { intros. by eexists _, _. }
    congruence. }
  cbn [bind].
  destruct (get_range_fetch_map env self' sources (_source_filters self') ks)
    as [l3 [e|m]]; cbn [outcome snd bind]; [done|].
  match goal with
  | |- context [bind ?dbg _] => destruct dbg as [l4 [e|[]]] eqn:Hdbg'
  end; [|done].
  exfalso. destruct (logger_is_enabled env debug); [|done].
  destruct (for_each_returns
              (λ (_ : unit) (x : inet_address * list token_range),
                 logger debug
                   (ranges_from_source (_description self') ks x.2 x.1 (length x.2)))
              (map_to_list m)) with (acc := tt) as (? & ? & Hret).
  { intros. by eexists _, _. }
  congruence.
Qed.

(** *** One direction per run *)






End adding.

(** ** Strict sources *)

Section strict.
Context {inet_address token_range token topology token_metadata : Type}.
Context `{Countable inet_address, Countable token_range, Countable token}.
Context `{!RingRange token_range}.
Context `{!TokenMetadata inet_address token topology token_metadata}.
Context `{!UnorderedMultimap string (gmap inet_address (list token_range))}.
Context {reactor : ParallelForEach}.

Local Abbreviation streamer :=
  (range_streamer inet_address token_range token topology token_metadata).
Local Abbreviation range_map := (gmap token_range (list inet_address)).

Implicit Types (self : streamer) (rs pending : range_map) (d : token_range).

(** One turn of the loop over the ring ranges: nothing happens for a ring
    range that does not contain the desired range; for one that does, one
    endpoint is appended to the sources of the desired range, and if the
    ring range has as many replicas as the replication factor, that endpoint
    is all that is left of them once the pending replicas are erased. *)
Lemma add_strict_source_spec rf pending d rs src eps l rs' :
  add_strict_source rf pending d rs (src, eps) = (l, inr rs') →
  if contains src d then
    ∃ new ep, pending !! d = Some new ∧ rs' = push_back_at d ep rs
      ∧ (length eps = rf → filter (λ e, e ∉ new) eps = [ep])
  else rs' = rs.
Proof.
  unfold add_strict_source. cbn [fst snd].
  destruct (contains src d); [|by intros [= _ <-]].
  destruct (pending !! d) as [new|]; [|done].
  intros (old & l1 & l2 & Hold & Hfront & _)%bind_inr.
  destruct old as [|ep rest]; [done|]. injection Hfront as _ <-.
  exists new, ep. split_and!; [done..|]. intros Hrf.
  rewrite decide_True in Hold by done.
  case_decide as Hlen; [done|]. injection Hold as _ Hold.
  rewrite Hold in Hlen |- *. destruct rest; [done|]. cbn in Hlen. lia.
Qed.

(** The loop over the ring ranges appends to the sources of the desired
    range and to nothing else; every ring range that contains the desired
    range contributed one of the endpoints appended. *)
Lemma add_strict_sources_spec rf pending d (xs : list (token_range * list inet_address)) :
  ∀ rs l rs',
    for_each xs (add_strict_source rf pending d) rs = (l, inr rs') →
    (∀ d', d' ≠ d → rs' !! d' = rs !! d')
    ∧ ∃ pushed,
        default [] (rs' !! d) = default [] (rs !! d) ++ pushed
        ∧ (pushed ≠ [] → is_Some (rs' !! d))
        ∧ ∀ src eps, (src, eps) ∈ xs → contains src d = true →
            ∃ new ep, pending !! d = Some new ∧ ep ∈ pushed
              ∧ (length eps = rf → filter (λ e, e ∉ new) eps = [ep]).
Proof.
  induction xs as [|[src eps] rest IH]; intros rs l rs'.
  - intros [= _ <-]. split; [done|]. exists []. rewrite app_nil_r.
    split_and!; [done..|]. by intros ?? ?%elem_of_nil.
  - cbn [for_each]. intros (rs1 & l1 & l2 & Hx & Hrest & _)%bind_inr.
    apply add_strict_source_spec in Hx.
    destruct (IH _ _ _ Hrest) as (Hother & pushed & Hvec & Hsome & Hall).
    destruct (contains src d) eqn:Hcontains.
    + destruct Hx as (new & ep & Hnew & -> & Hone). split.
      * intros d' Hne. rewrite Hother by done. unfold push_back_at.
        by rewrite lookup_insert_ne.
      * exists (ep :: pushed). split_and!.
        -- rewrite Hvec. unfold push_back_at. rewrite lookup_insert_eq. cbn.
           by rewrite <- app_assoc.
        -- intros _. destruct (rs' !! d) eqn:Hd; [done|]. cbn in Hvec.
           unfold push_back_at in Hvec. rewrite lookup_insert_eq in Hvec.
           cbn in Hvec. by destruct (default [] (rs !! d)).
        -- intros src' eps' [[= -> ->]|Hin]%elem_of_cons Hc.
           ++ exists new, ep. split_and!; [done| |done]. apply elem_of_cons. by left.
           ++ destruct (Hall _ _ Hin Hc) as (new' & ep' & ? & ? & ?).
              exists new', ep'. split_and!; [done| |done]. apply elem_of_cons. by right.
    + subst rs1. split; [done|]. exists pushed. split_and!; [done..|].
      intros src' eps' [[= -> ->]|Hin]%elem_of_cons Hc; [congruence|eauto].
Qed.

Lemma validate_spec (g : gossiper inet_address) d rs l rs' :
  validate g d rs = (l, inr rs') →
  rs' = rs ∧ ∃ source_ip, rs !! d = Some [source_ip]
    ∧ (is_enabled g = true → is_alive g source_ip = true).
Proof.
  unfold validate. destruct (rs !! d) as [sources|]; [|done].
  case_decide as Hlen; [done|].
  destruct sources as [|source_ip [|??]]; [done| |cbn in Hlen; lia].
  destruct (is_enabled g && negb (is_alive g source_ip)) eqn:Hdown; [done|].
  intros [= _ <-]. split; [done|]. exists source_ip. split; [done|].
  intros Hen. rewrite Hen in Hdown. cbn in Hdown. by apply negb_false_iff.
Qed.

(** C4: when strict resolution returns, every desired range has exactly one
    resolved source; and for every ring range that contains the desired
    range and has as many active replicas as the replication factor, the
    active replicas that are not pending replicas of the desired range are
    that one endpoint and no other. So if for such a ring range they are not
    exactly one, resolution throws. *)
Theorem strict_sources_exactly_one self ks
    (desired_ranges : list token_range) (g : gossiper inet_address) :
  let strat := get_replication_strategy (find_keyspace (_db self) ks) in
  let rf := get_replication_factor
              (get_effective_replication_map (find_keyspace (_db self) ks)) in
  let metadata_clone := clone_only_token_map (get_token_metadata self) in
  let active := strat_get_range_addresses strat metadata_clone in
  let pending :=
    strat_get_range_addresses strat
      (update_normal_tokens (_tokens self) (_address self) metadata_clone) in
  let resolution :=
    get_all_ranges_with_strict_sources_for self ks desired_ranges g in
  (∀ rs d,
     outcome resolution = inr rs → d ∈ desired_ranges →
     ∃ source, rs !! d = Some [source]
       ∧ ∀ src eps, active !! src = Some eps → contains src d = true →
           length eps = rf →
           ∃ new, pending !! d = Some new
             ∧ filter (λ e, e ∉ new) eps = [source])
  ∧ (∀ d src eps new,
       d ∈ desired_ranges → active !! src = Some eps → contains src d = true →
       length eps = rf → pending !! d = Some new →
       length (filter (λ e, e ∉ new) eps) ≠ 1 →
       ∃ e, outcome resolution = inl e).
Proof.
  intros strat rf metadata_clone active pending resolution.
  assert (∀ rs d,
     outcome resolution = inr rs → d ∈ desired_ranges →
     ∃ source, rs !! d = Some [source]
       ∧ ∀ src eps, active !! src = Some eps → contains src d = true →
           length eps = rf →
           ∃ new, pending !! d = Some new
             ∧ filter (λ e, e ∉ new) eps = [source]) as Hreturns.
  { intros rs d Hout Hd. subst resolution.
    unfold get_all_ranges_with_strict_sources_for in Hout.
    destruct (bind _ _) as [l r] eqn:Hrun in Hout. cbn in Hout. subst r.
    apply bind_inr in Hrun as ([] & l1 & l2 & _ & Hrun & _).
    case_decide; [done|].
    apply bind_inr in Hrun as ([] & l3 & l4 & _ & Hrun & _).
    fold strat rf metadata_clone active pending in Hrun.
    pose (Q := λ (rs : range_map) d,
      ∃ source, rs !! d = Some [source]
        ∧ ∀ src eps, active !! src = Some eps → contains src d = true →
            length eps = rf →
            ∃ new, pending !! d = Some new
              ∧ filter (λ e, e ∉ new) eps = [source]).
    pose (I := λ (rs : range_map) (done : list token_range),
      (∀ d, d ∈ done → is_Some (rs !! d)) ∧ ∀ d, is_Some (rs !! d) → Q rs d).
    assert (I rs ([] ++ desired_ranges)) as [Hdone HQ]; [|by apply HQ, Hdone].
    eapply (for_each_invariant I); [|shelve|exact Hrun].
    - intros acc done d' l' acc' [Hdone HQ].
      intros (rs1 & l5 & l6 & Hinner & Hvalid & _)%bind_inr.
      apply validate_spec in Hvalid as (-> & source & Hsource & _).
      apply add_strict_sources_spec in Hinner
        as (Hother & pushed & Hvec & _ & Hall).
      assert (∀ d0, d0 ≠ d' → is_Some (acc !! d0) → Q rs1 d0) as Hkeep.
      { intros d0 Hne Hsome. destruct (HQ d0 Hsome) as (s0 & Hs0 & Hrest).
        exists s0. split; [|done]. by rewrite Hother. }
      assert (Q rs1 d') as Hnew.
      { exists source. split; [done|]. intros src eps Hsrc Hc Hlen.
        destruct (Hall src eps) as (new & ep & Hnew & Hep & Hone);
          [by apply elem_of_map_to_list|done|].
        exists new. split; [done|]. rewrite Hone by done.
        rewrite Hsource in Hvec. cbn in Hvec.
        assert (ep ∈ [source]) as Hin
          by (rewrite Hvec; apply elem_of_app; by right).
        by apply list_elem_of_singleton in Hin as ->. }
      split.
      + intros d0 [Hin|Heq%list_elem_of_singleton]%elem_of_app;
          [|subst d0; by rewrite Hsource].
        destruct (decide (d0 = d')) as [->|Hne]; [by rewrite Hsource|].
        rewrite Hother by done. auto.
      + intros d0 Hsome. destruct (decide (d0 = d')) as [->|Hne]; [done|].
        apply Hkeep; [done|]. by rewrite <- Hother.
    Unshelve.
    split; [by intros ? ?%elem_of_nil|].
    intros d0 Hsome. rewrite lookup_empty in Hsome. by destruct Hsome. }
  split; [done|].
  intros d src eps new Hd Hsrc Hc Hlen Hnew Hcard.
  destruct (outcome resolution) as [e|rs]; [by exists e|].
  destruct (Hreturns rs d eq_refl Hd) as (source & _ & Hone).
  destruct (Hone src eps Hsrc Hc Hlen) as (new' & Hnew' & Hfilter).
  rewrite Hnew in Hnew'. injection Hnew' as <-.
  by rewrite Hfilter in Hcard.
Qed.

End strict.

(** ** Streaming *)

Section streaming.
Context {inet_address token_range token topology token_metadata : Type}.
Context `{Countable inet_address, Countable token_range, Countable token}.
Context `{!RingRange token_range}.
Context `{!TokenMetadata inet_address token topology token_metadata}.
Context `{!UnorderedMultimap string (gmap inet_address (list token_range))}.
Context {reactor : ParallelForEach}.

Local Abbreviation streamer :=
  (range_streamer inet_address token_range token topology token_metadata).
Local Abbreviation thread := (RangeStreamer.thread inet_address token_range).
Local Abbreviation plan := (stream_plan inet_address token_range).

Implicit Types (self : streamer) (ks : string) (source : inet_address).
Implicit Types (range_vec : list token_range) (st : locals token_range) (t : thread).

Lemma foldl_push_back {A} (l xs : list A) :
  foldl (λ acc x, acc ++ [x]) l xs = l ++ xs.
Proof.
  revert l. induction xs as [|x xs IH]; intros l; cbn; [by rewrite app_nil_r|].
  by rewrite IH, <- app_assoc.
Qed.

(** One dispatch: the remaining ranges are not touched; either the plan ran
    and the chunk is cleared, or an exception is in flight and the chunk is
    still in [ranges_to_stream], whether the abort check or the plan threw. *)
Lemma do_streaming_spec self ks source total range_vec st :
  _nr_rx_added self ≠ 0%Z ∨ _nr_tx_added self ≠ 0%Z →
  let t := do_streaming self ks source total range_vec st in
  thread_range_vec t = range_vec
  ∧ ((thread_exception t = None ∧ ranges_to_stream (thread_locals t) = []
      ∧ ∃ sp, thread_plans t = [sp] ∧ ranges_of_plan sp = ranges_to_stream st
              ∧ execute (_stream_manager self) sp = None)
     ∨ (∃ e, thread_exception t = Some e
             ∧ ranges_to_stream (thread_locals t) = ranges_to_stream st
             ∧ (thread_plans t = []
                ∨ ∃ sp, thread_plans t = [sp]
                        ∧ ranges_of_plan sp = ranges_to_stream st
                        ∧ execute (_stream_manager self) sp = Some e))).
Proof.
  intros Hdir. unfold do_streaming. cbn zeta.
  destruct (abort_requested _ _ _ _); cbn [ranges_to_stream].
  { split; [done|]. right. eexists. split_and!; [done..|by left]. }
  match goal with
  | |- context [execute _ ?sp] =>
      assert (ranges_of_plan sp = ranges_to_stream st) as Hranges
  end.
  { unfold ranges_of_plan. cbn [sp_request].
    repeat case_decide; [done..|]. by destruct Hdir. }
  destruct (execute _ _) as [e|] eqn:Hexec; cbn.
  - split; [done|]. right. exists e. split_and!; [done..|]. right. eauto.
  - split; [done|]. left. split_and!; [done..|]. eauto.
Qed.

(** The loop: the plans are those that ran, followed by the one that threw
    if one did; the chunks of the plans that ran, then the chunk at hand,
    then what is left of [range_vec] are the ranges the loop started with,
    in their order; and every chunk dispatched is full. *)
Lemma stream_loop_spec self ks source total per_plan :
  _nr_rx_added self ≠ 0%Z ∨ _nr_tx_added self ≠ 0%Z →
  ∀ range_vec st,
    length (ranges_to_stream st) < max 1 per_plan →
    let t := stream_loop self ks source total per_plan range_vec st in
    ∃ ran attempted,
      thread_plans t = ran ++ attempted
      ∧ Forall (λ sp, execute (_stream_manager self) sp = None
                      ∧ length (ranges_of_plan sp) = max 1 per_plan) ran
      ∧ ranges_to_stream st ++ range_vec =
          concat (map ranges_of_plan ran)
          ++ ranges_to_stream (thread_locals t) ++ thread_range_vec t
      ∧ match thread_exception t with
        | None =>
            attempted = [] ∧ thread_range_vec t = []
            ∧ length (ranges_to_stream (thread_locals t)) < max 1 per_plan
        | Some e =>
            length (ranges_to_stream (thread_locals t)) = max 1 per_plan
            ∧ (attempted = []
               ∨ ∃ sp, attempted = [sp]
                       ∧ ranges_of_plan sp = ranges_to_stream (thread_locals t)
                       ∧ execute (_stream_manager self) sp = Some e)
        end.
Proof.
  intros Hdir. induction range_vec as [|r rest IH]; intros st Hlt.
  - exists [], []. cbn. rewrite !app_nil_r. by split_and!.
  - cbn [stream_loop ranges_to_stream]. case_decide as Hfull.
    + match goal with |- context [stream_loop _ _ _ _ _ rest ?st1] =>
        destruct (IH st1) as (ran & attempted & Hplans & Hran & Hranges & Hexc)
      end; [cbn; lia|].
      exists ran, attempted. split_and!; [done..| |done].
      cbn [ranges_to_stream] in Hranges. by rewrite <- Hranges, <- app_assoc.
    + rewrite length_app in Hfull. cbn [length] in Hfull.
      assert (length (ranges_to_stream st ++ [r]) = max 1 per_plan) as Hlen
        by (rewrite length_app; cbn; lia).
      match goal with |- context [do_streaming _ _ _ _ _ ?st1] =>
        destruct (do_streaming_spec self ks source total rest st1 Hdir)
          as [Hrv [(Hnone & Hcleared & sp & Hsp & Hchunk & Hexec)
                  |(e & Hsome & Hkept & Hattempted)]];
        set (t := do_streaming self ks source total rest st1) in *
      end; cbn [ranges_to_stream] in *.
      * rewrite Hnone.
        destruct (IH (thread_locals t)) as (ran & attempted & Hplans & Hran & Hranges & Hexc);
          [rewrite Hcleared; cbn; lia|].
        exists (sp :: ran), attempted. cbn [followed_by thread_plans thread_exception
          thread_range_vec thread_locals].
        split_and!.
        -- by rewrite Hsp, Hplans.
        -- constructor; [|done]. split; [done|]. by rewrite Hchunk.
        -- rewrite Hcleared in Hranges. cbn [app] in Hranges. cbn [map concat].
           by rewrite Hchunk, <- !app_assoc, <- Hranges.
        -- done.
      * rewrite Hsome. exists [], (thread_plans t). rewrite Hsome, Hkept, Hrv.
        split_and!; [done|apply Forall_nil_2|by rewrite <- app_assoc|done|].
        destruct Hattempted as [->|(sp & -> & ? & ?)]; [by left|].
        right. eauto.
Qed.

(** The [try] block: the loop, then the plan for the ranges left over. *)
Lemma stream_ranges_spec self ks source range_vec :
  _nr_rx_added self ≠ 0%Z ∨ _nr_tx_added self ≠ 0%Z →
  let t := stream_ranges self ks source range_vec in
  let c := max 1 (length range_vec / 10) in
  ∃ ran attempted,
    thread_plans t = ran ++ attempted
    ∧ Forall (λ sp, execute (_stream_manager self) sp = None
                    ∧ 1 ≤ length (ranges_of_plan sp) ≤ c) ran
    ∧ range_vec = concat (map ranges_of_plan ran)
                  ++ ranges_to_stream (thread_locals t) ++ thread_range_vec t
    ∧ match thread_exception t with
      | None =>
          attempted = [] ∧ ranges_to_stream (thread_locals t) = []
          ∧ thread_range_vec t = []
      | Some e =>
          1 ≤ length (ranges_to_stream (thread_locals t)) ≤ c
          ∧ (attempted = []
             ∨ ∃ sp, attempted = [sp]
                     ∧ ranges_of_plan sp = ranges_to_stream (thread_locals t)
                     ∧ execute (_stream_manager self) sp = Some e)
      end.
Proof.
  intros Hdir t c. subst t c. unfold stream_ranges.
  set (total := length range_vec).
  set (st0 := {| ranges_to_stream := []; sp_index := 0%Z;
                 nr_ranges_streamed := 0%Z |}).
  destruct (stream_loop_spec self ks source total (total / 10) Hdir
              range_vec st0)
    as (ran & attempted & Hplans & Hran & Hranges & Hexc); [cbn; lia|].
  set (tl := stream_loop self ks source total (total / 10) range_vec st0) in *.
  cbn [st0 ranges_to_stream app] in Hranges.
  assert (Forall (λ sp, execute (_stream_manager self) sp = None
                        ∧ 1 ≤ length (ranges_of_plan sp) ≤ max 1 (total / 10))
            ran) as Hran'.
  { eapply Forall_impl; [exact Hran|]. cbn. intros sp [? ->]. split; [done|lia]. }
  unfold and_then. destruct (thread_exception tl) as [e|] eqn:Htl.
  - rewrite Htl. destruct Hexc as [Hlen Hattempted].
    exists ran, attempted. split_and!; [done|done|done|lia|lia|done].
  - destruct Hexc as (-> & Hrv & Hlt). rewrite Hrv, !app_nil_r in Hranges.
    rewrite app_nil_r in Hplans. case_decide as Hleft.
    + destruct (do_streaming_spec self ks source total (thread_range_vec tl)
                  (thread_locals tl) Hdir)
        as [Hrv' [(Hnone & Hcleared & sp & Hsp & Hchunk & Hexec)
                 |(e & Hsome & Hkept & Hattempted)]];
        set (td := do_streaming self ks source total (thread_range_vec tl)
                     (thread_locals tl)) in *;
        cbn [followed_by thread_plans thread_exception thread_range_vec thread_locals].
      * rewrite Hnone. exists (ran ++ [sp]), [].
        rewrite Hrv', Hrv, Hcleared.
        split_and!; [by rewrite Hplans, Hsp, app_nil_r| | |done..].
        -- apply Forall_app. split; [done|]. apply Forall_singleton.
           split; [done|]. rewrite Hchunk. lia.
        -- rewrite map_app, concat_app. cbn. rewrite Hchunk.
           by rewrite !app_nil_r.
      * rewrite Hsome. exists ran, (thread_plans td).
        rewrite Hrv', Hrv, Hkept.
        split_and!; [by rewrite Hplans|done|by rewrite app_nil_r|lia|lia|].
        destruct Hattempted as [->|(sp & -> & ? & ?)]; [by left|right; eauto].
    + cbn [followed_by thread_plans thread_exception thread_range_vec thread_locals].
      exists ran, [].
      assert (ranges_to_stream (thread_locals tl) = []) as Hnil
        by (destruct (ranges_to_stream (thread_locals tl)); [done|cbn in Hleft; lia]).
      rewrite Hnil in Hranges |- *.
      split_and!; [by rewrite Hplans, !app_nil_r|done|rewrite Hrv; exact Hranges|done..].
Qed.

(** The thread of one source. The plans are those that ran, followed by the
    one that threw if one did. The work list it started with is, in order:
    the chunks of the plans that ran, the failed chunk, the ranges never
    dispatched. Every chunk has between one and [max 1 (N / 10)] ranges. When
    an exception is in flight the work list it leaves is the ranges never
    dispatched followed by the failed chunk; otherwise it is empty. *)
Lemma stream_source_spec self ks source range_vec :
  _nr_rx_added self ≠ 0%Z ∨ _nr_tx_added self ≠ 0%Z →
  let t := stream_source self ks source range_vec in
  let c := max 1 (length range_vec / 10) in
  ∃ ran attempted failed undispatched,
    thread_plans t = ran ++ attempted
    ∧ Forall (λ sp, execute (_stream_manager self) sp = None
                    ∧ 1 ≤ length (ranges_of_plan sp) ≤ c) ran
    ∧ range_vec = concat (map ranges_of_plan ran) ++ failed ++ undispatched
    ∧ match thread_exception t with
      | None =>
          attempted = [] ∧ failed = [] ∧ undispatched = []
          ∧ thread_range_vec t = []
      | Some e =>
          1 ≤ length failed ≤ c
          ∧ thread_range_vec t = undispatched ++ failed
          ∧ (attempted = []
             ∨ ∃ sp, attempted = [sp] ∧ ranges_of_plan sp = failed
                     ∧ execute (_stream_manager self) sp = Some e)
      end.
Proof.
  intros Hdir t c. subst t c.
  destruct (stream_ranges_spec self ks source range_vec Hdir)
    as (ran & attempted & Hplans & Hran & Hranges & Hexc).
  unfold stream_source.
  set (tr := stream_ranges self ks source range_vec) in *.
  exists ran, attempted, (ranges_to_stream (thread_locals tr)), (thread_range_vec tr).
  destruct (thread_exception tr) as [e|];
    cbn [thread_plans thread_exception thread_range_vec thread_locals].
  - destruct Hexc as [Hlen Hattempted].
    split_and!; [done|done|done|lia|lia|by rewrite foldl_push_back|done].
  - destruct Hexc as (-> & Hrts & Hrv). by split_and!.
Qed.


(** *** What is left after a failure *)

Lemma map_imap_singleton {A B} (f : inet_address → A → option B) i x y :
  f i x = Some y →
  map_imap f ({[i := x]} : gmap inet_address A) = {[i := y]}.
Proof.
  intros Hf. rewrite <- !insert_empty.
  by rewrite (map_imap_insert_Some _ _ _ _ _ Hf), map_imap_empty.
Qed.

(** [nr_ranges_to_stream] returns the number of ranges in the work lists. *)
Lemma count_ranges_of_keyspace ks (xs : list (inet_address * list token_range)) n :
  outcome
    (for_each xs (λ nr_ranges_remaining ip_range,
       do! logger debug (remaining ks ip_range.1 ip_range.2) in
       ret (nr_ranges_remaining + length ip_range.2)) n)
  = inr (n + sum_list (map (λ ip_range, length ip_range.2) xs)).
Proof.
  revert n. induction xs as [|[source range_vec] xs IH]; intros n.
  - cbn. by rewrite Nat.add_0_r.
  - cbn [for_each].
    erewrite outcome_bind_returns; [|reflexivity].
    rewrite IH. cbn. by rewrite Nat.add_assoc.
Qed.

Lemma nr_ranges_to_stream_counts self :
  outcome (nr_ranges_to_stream self) = inr (ranges_remaining (_to_stream self)).
Proof.
  unfold nr_ranges_to_stream, ranges_remaining.
  generalize (_to_stream self). intros to_stream.
  change (sum_list _) with (0 + sum_list
    (map (λ fetch : string * gmap inet_address (list token_range),
            sum_list (map (λ ip_range, length ip_range.2) (map_to_list fetch.2)))
       to_stream)).
  generalize 0. induction to_stream as [|[ks m] rest IH]; intros n.
  - cbn. by rewrite Nat.add_0_r.
  - cbn [for_each].
    erewrite outcome_bind_returns; [|apply count_ranges_of_keyspace].
    rewrite IH. cbn. by rewrite Nat.add_assoc.
Qed.

Lemma nr_ranges_to_stream_one_source self ks source range_vec :
  _to_stream self = [(ks, {[source := range_vec]})] →
  outcome (nr_ranges_to_stream self) = inr (length range_vec).
Proof.
  intros Hjob. rewrite nr_ranges_to_stream_counts, Hjob.
  unfold ranges_remaining. cbn [map fst snd].
  rewrite map_to_list_singleton. cbn. f_equal. lia.
Qed.

(** What the reactor does with a single thread. *)
Lemma sublist_same_length {A} (l1 l2 : list A) :
  l1 `sublist_of` l2 → length l2 ≤ length l1 → l1 = l2.
Proof.
  induction 1 as [|x l1 l2 _ IH|x l1 l2 Hsub _]; cbn; intros Hlen; [done| |].
  - f_equal. apply IH. lia.
  - apply sublist_length in Hsub. lia.
Qed.

Lemma interleaved_one {A} (l : list A) : interleaved [l] = l.
Proof.
  symmetry. apply sublist_same_length.
  - apply interleaved_order, list_elem_of_singleton. reflexivity.
  - rewrite (Permutation_length (interleaved_elements [l])). cbn.
    by rewrite app_nil_r.
Qed.

Lemma passed_on_one {A} (e : A) : passed_on e [] = e.
Proof.
  pose proof (passed_on_thrown e []) as Hin.
  by apply list_elem_of_singleton in Hin.
Qed.

(** A run with one keyspace and one source. *)
Lemma stream_async_one_source self ks source range_vec :
  _to_stream self = [(ks, {[source := range_vec]})] →
  let t := stream_source self ks source range_vec in
  _to_stream (stream_async self).1.1 = [(ks, {[source := thread_range_vec t]})]
  ∧ outcome (stream_async self).2 =
      match thread_exception t with
      | Some e => inl e
      | None => inr tt
      end.
Proof.
  intros Hjob t. unfold stream_async. cbn [fst snd outcome].
  rewrite Hjob. cbn [stream_keyspaces fst snd].
  assert (kr_exception (stream_keyspace self ks {[source := range_vec]})
          = thread_exception t) as Hexc.
  { unfold stream_keyspace. cbn [kr_exception].
    rewrite map_to_list_singleton. cbn. fold t.
    destruct (thread_exception t); [|done]. by rewrite passed_on_one. }
  assert (kr_ip_range_vec (stream_keyspace self ks {[source := range_vec]})
          = {[source := thread_range_vec t]}) as Hvec.
  { unfold stream_keyspace. cbn [kr_ip_range_vec].
    by apply map_imap_singleton. }
  rewrite Hexc. destruct (thread_exception t);
    cbn [sr_to_stream sr_exception set_to_stream _to_stream];
    by rewrite Hvec.
Qed.

End streaming.

(** ** Frozen mutations *)

Section frozen.
Import FrozenMutation.
Context (get_token : schema → partition_key → token).

Implicit Types (p : mutation_partition) (m : mutation) (s : schema).
Implicit Types (fm : frozen_mutation) (vs : list visit).

Lemma build_all_app vs1 vs2 p :
  build_all (vs1 ++ vs2) p =
    match build_all vs1 p with
    | inl e => inl e
    | inr p' => build_all vs2 p'
    end.
Proof.
  revert p. induction vs1 as [|v vs1 IH]; intros p; [done|].
  cbn [app build_all]. destruct (build p v); [done|apply IH].
Qed.

Lemma build_static_cells (cs : row) p :
  build_all (map (λ c, accept_static_cell c.1 c.2) cs) p =
    inr {| partition_tombstone := partition_tombstone p;
           static_row := static_row p ++ cs;
           row_tombstones := row_tombstones p;
           clustered_rows := clustered_rows p |}.
Proof.
  revert p. induction cs as [|[id cell] cs IH]; intros p.
  - cbn. rewrite app_nil_r. by destruct p.
  - cbn [map build_all build fst snd]. rewrite IH. cbn.
    unfold append_cell. by rewrite <- app_assoc.
Qed.

Lemma build_row_tombstones (rts : list range_tombstone) p :
  build_all (map accept_row_tombstone rts) p =
    inr {| partition_tombstone := partition_tombstone p;
           static_row := static_row p;
           row_tombstones := row_tombstones p ++ rts;
           clustered_rows := clustered_rows p |}.
Proof.
  revert p. induction rts as [|rt rts IH]; intros p.
  - cbn. rewrite app_nil_r. by destruct p.
  - cbn [map build_all build]. rewrite IH. cbn. by rewrite <- app_assoc.
Qed.

(** The cells that follow a row go to that row, the last one appended. *)
Lemma build_row_cells (cs : row) p rows e :
  clustered_rows p = rows ++ [e] →
  build_all (map (λ c, accept_row_cell c.1 c.2) cs) p =
    inr {| partition_tombstone := partition_tombstone p;
           static_row := static_row p;
           row_tombstones := row_tombstones p;
           clustered_rows :=
             rows ++ [{| entry_position := entry_position e;
                         entry_dummy := entry_dummy e;
                         entry_continuous := entry_continuous e;
                         entry_row :=
                           {| deleted_at := deleted_at (entry_row e);
                              created_at := created_at (entry_row e);
                              cells := cells (entry_row e) ++ cs |} |}] |}.
Proof.
  revert p e. induction cs as [|[id cell] cs IH]; intros p e Hrows.
  - cbn. rewrite app_nil_r. destruct p, e as [? ? ? []]. cbn in *. by subst.
  - cbn [map build_all build fst snd].
    rewrite Hrows, last_snoc, removelast_last.
    erewrite IH; [|reflexivity]. cbn. unfold append_cell.
    by rewrite <- app_assoc.
Qed.

Lemma build_rows (rows : list rows_entry) p :
  build_all (flat_map write_row rows) p =
    inr {| partition_tombstone := partition_tombstone p;
           static_row := static_row p;
           row_tombstones := row_tombstones p;
           clustered_rows := clustered_rows p ++ rows |}.
Proof.
  revert p. induction rows as [|e rows IH]; intros p.
  - cbn. rewrite app_nil_r. by destruct p.
  - cbn [flat_map]. rewrite build_all_app. unfold write_row at 1.
    cbn [build_all build].
    erewrite build_row_cells; [|reflexivity]. rewrite IH. cbn.
    rewrite <- app_assoc. by destruct e as [? ? ? []].
Qed.

(** C2: unfreezing a frozen mutation against the schema the mutation was
    built under gives the mutation back, with its partition tombstone, static
    row, range tombstones and clustering rows; the frozen mutation carries
    the version of that schema, and its decorated key is that of the
    mutation. *)
Theorem unfreeze_freeze m :
  unfreeze (freeze m) (mutation_schema m) = inr m
  ∧ schema_version (freeze m) = version (mutation_schema m)
  ∧ frozen_decorated_key get_token (freeze m) (mutation_schema m)
    = mutation_decorated_key get_token m.
Proof.
  split_and!; [|done..].
  unfold unfreeze, check_schema_version, schema_version, freeze.
  cbn [_bytes read_schema_version read_partition read_malformed].
  rewrite decide_True by done. unfold write_partition.
  cbn [build_all build].
  rewrite build_all_app, build_static_cells. cbv beta iota.
  rewrite build_all_app, build_row_tombstones. cbv beta iota.
  rewrite build_rows. cbn.
  by destruct m as [? ? []].
Qed.

Section consume.
Context {Consumer Result Generator : Type}.
Context `{!FlattenedConsumerV2 Consumer Result}.
Context `{!RangeTombstoneChangeGenerator Generator}.

(** C3: against a schema whose version is not the stamp of the frozen
    mutation, [unfreeze] and [consume] fail with the schema-mismatch error,
    and [consume] makes no call on the consumer: both the visitor and the
    consumer are left as they were. *)
Theorem wrong_schema_version_is_rejected fm s
    (a : frozen_mutation_consumer_adaptor Consumer Generator)
    (consumer : Consumer) :
  schema_version fm ≠ version s →
  unfreeze fm s = inl (schema_mismatch_error (schema_version fm) s)
  ∧ consume_with get_token fm s a
    = (a, inl (schema_mismatch_error (schema_version fm) s))
  ∧ consume get_token fm s consumer
    = (consumer, inl (schema_mismatch_error (schema_version fm) s)).
Proof.
  intros Hversion.
  unfold unfreeze, consume, consume_with, check_schema_version.
  by rewrite !decide_False by done.
Qed.

End consume.

End frozen.

(** ** The properties on the ring of three nodes *)

Section examples.
Import Example.

Local Abbreviation joining := (streamer bootstrap 2 0 [] 0).

(** The fetch map of node [A] for two ranges: the first goes to [C], the
    nearest candidate, the second to [B], after the local node and the
    filtered node [D] were passed over. *)
Lemma get_range_fetch_map_single_source_witness :
  let sources : gmap (Z * Z) (list nat) :=
    {[ (0, 50)%Z := [C; B]; (50, 100)%Z := [A; D; B] ]} in
  let m : gmap nat (list (Z * Z)) :=
    {[ C := [(0, 50)%Z]; B := [(50, 100)%Z] ]} in
  let planned := get_range_fetch_map env joining sources [not_D] "ks" in
  planned = (logged planned, inr m)
  ∧ (∀ r a1 a2 v1 v2,
       m !! a1 = Some v1 → m !! a2 = Some v2 → r ∈ v1 → r ∈ v2 → a1 = a2)
  ∧ (∀ a v, m !! a = Some v → NoDup v ∧ ∀ r, r ∈ v → is_Some (sources !! r))
  ∧ m !! A = None.
Proof.
  intros sources m planned.
  assert (planned = (logged planned, inr m)) as Hplanned
    by (vm_compute; reflexivity).
  split; [exact Hplanned|].
  exact (get_range_fetch_map_single_source env joining sources [not_D] "ks"
           (logged planned) m Hplanned).
Defined.

(** A range whose only candidate is filtered: fatal when bootstrapping. *)
Lemma get_range_fetch_map_no_source_witness :
  let sources : gmap (Z * Z) (list nat) :=
    {[ (0, 50)%Z := [C; B]; (50, 100)%Z := [D] ]} in
  sources !! (50, 100)%Z = Some [D]
  ∧ (∀ m, ∃ l, fetch_range env joining [not_D] "ks" m ((50, 100)%Z, [D]) =
        (l, inl (runtime_error
                   (unable_to_find_sufficient_sources (50, 100)%Z "ks"))))
  ∧ ∃ l r' addresses',
      get_range_fetch_map env joining sources [not_D] "ks" =
        (l, inl (runtime_error (unable_to_find_sufficient_sources r' "ks")))
      ∧ sources !! r' = Some addresses'
      ∧ no_source A (filtered [not_D] ()) addresses'.
Proof.
  intros sources.
  assert (sources !! (50, 100)%Z = Some [D]) as Hlookup
    by (vm_compute; reflexivity).
  split; [exact Hlookup|].
  refine (get_range_fetch_map_no_source env joining sources [not_D] "ks"
            (50, 100)%Z [D] Hlookup _ _).
  - intros a Ha. apply list_elem_of_singleton in Ha. subst a. right.
    vm_compute. reflexivity.
  - intros Ha. apply list_elem_of_singleton in Ha. vm_compute in Ha. lia.
Defined.

(** The same range when node [A] replaces a node of a keyspace with a
    replication factor of 1: a warning, and the range is left out. *)
Lemma get_range_fetch_map_rf1_replace_example :
  get_range_fetch_map env (streamer replace 1 0 [] 0)
    {[ (0, 50)%Z := [C; B]; (50, 100)%Z := [D] ]} [not_D] "ks"
  = ([(debug, endpoint_is_filtered "ks" D);
      (warn, unable_to_find_sources_rf1_replace (50, 100)%Z "ks")],
     inr {[ C := [(0, 50)%Z] ]}).
Proof. vm_compute. reflexivity. Qed.

(** Strict resolution for the range that node [A] takes over from [B]: the
    active replicas [B; C] of the ring range [(0, 100)] less the pending
    replicas [A; C] of the desired range leave [B]. *)
Lemma strict_sources_exactly_one_witness :
  let resolution :=
    get_all_ranges_with_strict_sources_for joining "ks" [(0, 50)%Z] gossip in
  let rs : gmap (Z * Z) (list nat) := {[ (0, 50)%Z := [B] ]} in
  let metadata_clone := clone_only_token_map (get_token_metadata joining) in
  let active := strat_get_range_addresses strategy metadata_clone in
  let pending :=
    strat_get_range_addresses strategy
      (update_normal_tokens (_tokens joining) (_address joining) metadata_clone) in
  outcome resolution = inr rs
  ∧ ∃ source, rs !! (0, 50)%Z = Some [source]
      ∧ ∀ src eps, active !! src = Some eps → contains src (0, 50)%Z = true →
          length eps = 2 →
          ∃ new, pending !! (0, 50)%Z = Some new
            ∧ filter (λ e, e ∉ new) eps = [source].
Proof.
  intros resolution rs metadata_clone active pending.
  assert (outcome resolution = inr rs) as Hout by (vm_compute; reflexivity).
  assert ((0, 50)%Z ∈ [(0, 50)%Z]) as Hd
    by (apply list_elem_of_singleton; reflexivity).
  split; [exact Hout|].
  exact (proj1 (strict_sources_exactly_one joining "ks" [(0, 50)%Z] gossip)
           rs (0, 50)%Z Hout Hd).
Defined.

(** The four conditions hold for node [A], and yet with [is_replacing] set
    the sources are those of normal mode. *)
Lemma add_ranges_replacing_resolves_in_normal_mode_witness :
  let self' := set_nr_rx_added (incr 32 (_nr_rx_added joining)) joining in
  let normal := get_all_ranges_with_sources_for env self' "ks" [(0, 50)%Z] in
  let added := add_ranges env 32 joining "ks" [(0, 50)%Z] gossip true in
  outcome (use_strict_sources_for_ranges joining "ks") = inr true
  ∧ _nr_tx_added joining = 0%Z
  ∧ resolve_sources env self' "ks" [(0, 50)%Z] gossip true = normal
  ∧ outcome normal = inr {[ (0, 50)%Z := [C; B] ]}
  ∧ added.1 = emplace "ks" {[ C := [(0, 50)%Z] ]} self'
  ∧ outcome added.2 = inr tt.
Proof.
  intros self' normal added.
  pose proof (add_ranges_replacing_resolves_in_normal_mode env 32 joining "ks"
                [(0, 50)%Z] gossip eq_refl) as [Hresolve Hadded].
  fold self' normal added in Hresolve, Hadded.
  assert (outcome normal = inr {[ (0, 50)%Z := [C; B] ]}) as Hnormal
    by (vm_compute; reflexivity).
  rewrite Hnormal in Hadded.
  assert (outcome (get_range_fetch_map env self' {[ (0, 50)%Z := [C; B] ]}
                     (_source_filters self') "ks")
          = inr {[ C := [(0, 50)%Z] ]}) as Hplanned
    by (vm_compute; reflexivity).
  rewrite Hplanned in Hadded.
  split; [vm_compute; reflexivity|]. split; [reflexivity|].
  split; [exact Hresolve|]. split; [exact Hnormal|]. exact Hadded.
Defined.



(** Freezing the mutation of the test and consuming it under its own schema
    delivers the partition, its tombstone, the row and the two ends; under
    the other schema it fails before any call, as does [unfreeze]. *)
Lemma consume_freeze_example :
  FrozenMutation.consume ExampleMutation.murmur
    (FrozenMutation.freeze ExampleMutation.m) ExampleMutation.s1 []
  = (["consume_new_partition"; "consume(tombstone)"; "consume(clustering_row)";
      "consume_end_of_partition"; "consume_end_of_stream"],
     inr {| FrozenMutation.stop := FrozenMutation.no;
            FrozenMutation.result := 4 |}).
Proof. vm_compute. reflexivity. Qed.

Lemma wrong_schema_version_is_rejected_witness :
  let fm := FrozenMutation.freeze ExampleMutation.m in
  let s := ExampleMutation.s2 in
  let a := FrozenMutation.new_adaptor (Generator := list FrozenMutation.range_tombstone)
             s ([] : list string) in
  let e := FrozenMutation.schema_mismatch_error 1%N s in
  FrozenMutation.schema_version fm ≠ FrozenMutation.version s
  ∧ FrozenMutation.unfreeze fm s = inl e
  ∧ FrozenMutation.consume_with ExampleMutation.murmur fm s a = (a, inl e)
  ∧ FrozenMutation.consume ExampleMutation.murmur fm s ([] : list string)
    = ([], inl e).
Proof.
  intros fm s a e.
  assert (FrozenMutation.schema_version fm ≠ FrozenMutation.version s) as Hversion
    by (vm_compute; discriminate).
  split; [exact Hversion|].
  exact (wrong_schema_version_is_rejected ExampleMutation.murmur fm s a []
           Hversion).
Defined.

End examples.


(** * Further properties

    ** Which endpoint a range is fetched from *)

Section fetch_map_choice.
Context {inet_address token_range token topology token_metadata : Type}.
Context `{Countable inet_address, Countable token_range, Countable token}.
Context `{!RingRange token_range}.
Context `{!TokenMetadata inet_address token topology token_metadata}.
Context `{!UnorderedMultimap string (gmap inet_address (list token_range))}.
Context {reactor : ParallelForEach}.
Context (env : globals inet_address).

Local Abbreviation streamer :=
  (range_streamer inet_address token_range token topology token_metadata).
Local Abbreviation fetch_map := (gmap inet_address (list token_range)).
Local Abbreviation M := (Effects.M inet_address token_range).

Implicit Types (self : streamer) (m : fetch_map) (r : token_range).
Implicit Types (a : inet_address) (addresses : list inet_address).

(** What some turn establishes and every turn preserves holds when the loop
    returns. *)
Lemma for_each_establishes {A S} (P : S → Prop) (body : S → A → M S) xs x :
  x ∈ xs →
  (∀ acc l acc', body acc x = (l, inr acc') → P acc') →
  (∀ acc y l acc', P acc → body acc y = (l, inr acc') → P acc') →
  ∀ acc l acc', for_each xs body acc = (l, inr acc') → P acc'.
Proof.
  intros Hin Hx Hkeep. induction xs as [|y rest IH]; [by apply elem_of_nil in Hin|].
  intros acc l acc'. cbn [for_each].
  intros (acc1 & l1 & l2 & Hy & Hrest & _)%bind_inr.
  apply elem_of_cons in Hin as [<-|Hin]; [|by eapply IH].
  eapply (for_each_preserves P); [|eapply Hx, Hy|exact Hrest].
  intros ???? _. apply Hkeep.
Qed.

(** The candidates are tried in order: those that are the local node or
    filtered are passed over, and the first that is neither gets the range. *)
Lemma try_addresses_first self filters ks r pre a post found m :
  (∀ b, b ∈ pre → b = get_broadcast_address env
                  ∨ filtered filters (get_topology (get_token_metadata self)) b = true) →
  a ≠ get_broadcast_address env →
  filtered filters (get_topology (get_token_metadata self)) a = false →
  ∃ l, try_addresses env self filters ks r (pre ++ a :: post) found m
       = (l, inr (true, push_back_at a r m)).
Proof.
  intros Hpre Ha Hf. revert found.
  induction pre as [|b pre IH]; intros found; cbn [app try_addresses].
  - rewrite decide_False by done. rewrite Hf. by eexists.
  - assert (∀ b', b' ∈ pre → b' = get_broadcast_address env
              ∨ filtered filters (get_topology (get_token_metadata self)) b' = true)
      as Hpre' by (intros ? ?; apply Hpre, elem_of_cons; by right).
    case_decide; [by apply IH|].
    destruct (Hpre b) as [?|Hb]; [apply elem_of_cons; by left|done|].
    rewrite Hb. destruct (IH Hpre' found) as [l ->]. by eexists.
Qed.

Lemma has_source_iff (local : inet_address) is_filtered addresses :
  has_source local is_filtered addresses ↔ ¬ no_source local is_filtered addresses.
Proof.
  unfold has_source, no_source. split.
  - intros [?|(a & Ha & Hf)] [Hlocal Hall]; [done|].
    rewrite (Hall a Ha) in Hf. done.
  - intros Hno. destruct (decide (local ∈ addresses)) as [?|Hlocal]; [by left|].
    right.
    destruct (Forall_Exists_dec (λ a, is_filtered a = true)
                (λ a, is_filtered a = false)
                (λ a, match is_filtered a as b
                        return {b = true} + {b = false} with
                      | true => left eq_refl
                      | false => right eq_refl
                      end) addresses) as [Hall|Hex].
    + destruct Hno. split; [done|]. by apply Forall_forall.
    + apply Exists_exists in Hex as (a & ? & ?). eauto.
Qed.

(** X1: in the fetch map that [get_range_fetch_map] returns, a range is
    under the first of its candidates that is neither the local node nor
    rejected by a filter, also when the local node comes before it, and
    under no other endpoint. *)
Theorem range_is_fetched_from_first_candidate self
    (ranges_with_sources : gmap token_range (list inet_address))
    filters ks l m r pre a post :
  let local := get_broadcast_address env in
  let is_filtered := filtered filters (get_topology (get_token_metadata self)) in
  get_range_fetch_map env self ranges_with_sources filters ks = (l, inr m) →
  ranges_with_sources !! r = Some (pre ++ a :: post) →
  (∀ b, b ∈ pre → b = local ∨ is_filtered b = true) →
  a ≠ local → is_filtered a = false →
  (∃ v, m !! a = Some v ∧ r ∈ v)
  ∧ ∀ a' v', m !! a' = Some v' → r ∈ v' → a' = a.
Proof.
  intros local is_filtered Hloop Hr Hpre Ha Hf.
  assert (∃ v, m !! a = Some v ∧ r ∈ v) as (v & Hv & Hin).
  { unfold get_range_fetch_map in Hloop.
    eapply (for_each_establishes (λ m : fetch_map, ∃ v, m !! a = Some v ∧ r ∈ v));
      [| | |exact Hloop].
    - apply elem_of_map_to_list. exact Hr.
    - intros acc l' acc' Hturn. unfold fetch_range in Hturn. cbn [fst snd] in Hturn.
      destruct (try_addresses_first self filters ks r pre a post false acc
                  Hpre Ha Hf) as [l1 Htry].
      rewrite Htry in Hturn. cbn [bind fst snd ret] in Hturn.
      injection Hturn as _ <-. rewrite lookup_push_back_at, decide_True by done.
      eexists. split; [done|]. apply elem_of_app. right.
      by apply list_elem_of_singleton.
    - intros acc [r' addresses'] l' acc' (v & Hv & Hin) Hturn.
      apply fetch_range_spec in Hturn as [->|(a' & _ & _ & _ & ->)]; [eauto|].
      rewrite lookup_push_back_at. case_decide as Heq; [|eauto].
      subst a'. rewrite Hv. eexists. split; [done|]. apply elem_of_app. by left. }
  split; [eauto|]. intros a' v' Hv' Hin'.
  unfold get_range_fetch_map in Hloop.
  eapply (fetch_loop_single_source env _ _ _ _ []) in Hloop as (_ & _ & Hone).
  - by eapply Hone.
  - apply NoDup_fst_map_to_list.
  - split_and!; [apply lookup_empty| |]; intros *; by rewrite lookup_empty.
Qed.

(** X2: [get_range_fetch_map] returns exactly when the reason is [replace]
    and the replication factor is 1, or every range has among its candidates
    the local node or an endpoint that no filter rejects. *)
Theorem get_range_fetch_map_returns_iff self
    (ranges_with_sources : gmap token_range (list inet_address)) filters ks :
  let local := get_broadcast_address env in
  let is_filtered := filtered filters (get_topology (get_token_metadata self)) in
  let rf := get_replication_factor
              (get_effective_replication_map (find_keyspace (_db self) ks)) in
  (∃ l m, get_range_fetch_map env self ranges_with_sources filters ks = (l, inr m))
  ↔ (_reason self = replace ∧ rf = 1)
    ∨ ∀ r addresses, ranges_with_sources !! r = Some addresses →
        has_source local is_filtered addresses.
Proof.
  intros local is_filtered rf. unfold get_range_fetch_map. split.
  - intros (l & m & Hloop).
    destruct (decide (_reason self = replace ∧ rf = 1)) as [?|Hcase]; [by left|].
    right. intros r addresses Hr. apply has_source_iff. intros Hno.
    assert ((r, addresses) ∈ map_to_list ranges_with_sources) as Hin
      by by apply elem_of_map_to_list.
    destruct (for_each_turn _ _ _ Hin _ _ _ Hloop) as (m1 & lx & m2 & Hx & _).
    destruct (fetch_range_no_source env self filters ks m1 r _ Hno) as [l' Hx'].
    rewrite Hx in Hx'.
    destruct (bool_decide (_reason self = replace)) eqn:Hreason;
      [|by cbn in Hx'].
    apply bool_decide_eq_true in Hreason.
    destruct (bool_decide _) eqn:Hrf in Hx'; [|by cbn in Hx'].
    apply bool_decide_eq_true in Hrf. by destruct Hcase.
  - intros Hok.
    apply (for_each_returns (fetch_range env self filters ks)).
    intros acc [r addresses] Hin%elem_of_map_to_list.
    destruct (fetch_range env self filters ks acc (r, addresses))
      as [l [e|m']] eqn:Hx; [|by eexists _, _].
    apply fetch_range_throws in Hx as (_ & Hno & Hcase).
    destruct Hok as [Hreplace|Hall]; [by destruct Hcase|].
    apply Hall, has_source_iff in Hin. done.
Qed.

End fetch_map_choice.

(** ** Sources in normal mode *)

Section normal_mode.
Context {inet_address token_range token topology token_metadata : Type}.
Context `{Countable inet_address, Countable token_range, Countable token}.
Context `{!RingRange token_range}.
Context `{!TokenMetadata inet_address token topology token_metadata}.
Context `{!UnorderedMultimap string (gmap inet_address (list token_range))}.
Context {reactor : ParallelForEach}.
Context (env : globals inet_address).

Local Abbreviation streamer :=
  (range_streamer inet_address token_range token topology token_metadata).
Local Abbreviation range_map := (gmap token_range (list inet_address)).
Local Abbreviation M := (Effects.M inet_address token_range).

Implicit Types (self : streamer) (rs : range_map) (d : token_range).
Implicit Types (xs : list (token_range * list inet_address)).

(** Several [push_back] on the vector of one key. *)
Lemma lookup_push_back_all d (ps : list inet_address) rs d' :
  foldl (λ rs p, push_back_at d p rs) rs ps !! d' =
    if decide (d' = d) then
      match ps with
      | [] => rs !! d
      | _ => Some (default [] (rs !! d) ++ ps)
      end
    else rs !! d'.
Proof.
  revert rs. induction ps as [|p ps IH]; intros rs; cbn [foldl].
  - by case_decide; subst.
  - rewrite IH. case_decide as Heq; [subst d'|].
    + unfold push_back_at. rewrite lookup_insert_eq. cbn.
      destruct ps; by rewrite <- ?app_assoc.
    + unfold push_back_at. by rewrite lookup_insert_ne.
Qed.

(** The loop over the ring ranges for one desired range: it appends the
    candidates, and finds a source when a ring range contains the desired
    range. *)
Lemma foldl_add_sources_of snitch address d xs found rs :
  let r := foldl (add_sources_of snitch address d) (found, rs) xs in
  r.2 = foldl (λ rs p, push_back_at d p rs) rs (candidates snitch address d xs)
  ∧ (r.1 = true ↔ found = true ∨ containing d xs ≠ []).
Proof.
  revert found rs. induction xs as [|[src eps] xs IH]; intros found rs.
  - cbn. split; [done|]. tauto.
  - cbn [foldl].
    assert (add_sources_of snitch address d (found, rs) (src, eps) =
            if contains src d
            then (true, foldl (λ rs p, push_back_at d p rs) rs
                          (get_sorted_list_by_proximity snitch address eps))
            else (found, rs)) as -> by done.
    unfold candidates, containing in *.
    destruct (contains src d) eqn:Hc.
    + rewrite filter_cons_True by done. cbn [map concat snd].
      rewrite foldl_app. destruct (IH true
        (foldl (λ rs p, push_back_at d p rs) rs
           (get_sorted_list_by_proximity snitch address eps))) as [Hrs Hfound].
      split; [exact Hrs|]. split; [by right|]. intros _. apply Hfound. by left.
    + rewrite filter_cons_False by (cbn; by rewrite Hc). apply IH.
Qed.

Lemma containing_nonempty d xs :
  containing d xs ≠ [] ↔ ∃ src eps, (src, eps) ∈ xs ∧ contains src d = true.
Proof.
  unfold containing. split.
  - intros Hne. destruct (filter _ xs) as [|[src eps] rest] eqn:Hf; [done|].
    assert ((src, eps) ∈ filter (λ x, contains x.1 d = true) xs) as Hin
      by (rewrite Hf; apply elem_of_cons; by left).
    apply list_elem_of_filter in Hin as [? ?]. eauto.
  - intros (src & eps & Hin & Hc) Hnil.
    assert ((src, eps) ∈ filter (λ x, contains x.1 d = true) xs) as Hin'
      by by apply list_elem_of_filter.
    rewrite Hnil in Hin'. by apply elem_of_nil in Hin'.
Qed.

(** The turn of one desired range. *)
Lemma resolve_range snitch address xs rs d :
  let turn : M range_map :=
    let r := foldl (add_sources_of snitch address d) (false, rs) xs in
    if r.1 then ret r.2 else throw (runtime_error (no_sources_found_for d)) in
  (containing d xs ≠ [] →
   turn = ([], inr (foldl (λ rs p, push_back_at d p rs) rs
                      (candidates snitch address d xs))))
  ∧ (containing d xs = [] →
     turn = ([], inl (runtime_error (no_sources_found_for d)))).
Proof.
  cbn zeta. destruct (foldl_add_sources_of snitch address d xs false rs)
    as [Hrs Hfound]. cbn zeta in Hrs, Hfound. split; intros Hc.
  - destruct (foldl _ _ xs) as [found rs']. cbn [fst snd] in *.
    destruct found; [by rewrite Hrs|].
    destruct Hfound as [_ Hfound]. discriminate Hfound. by right.
  - destruct (foldl _ _ xs) as [found rs']. cbn [fst snd] in *.
    destruct found; [|done]. destruct Hfound as [[|] _]; done.
Qed.

Local Abbreviation resolve_turn snitch address xs :=
  (λ (range_sources : range_map) (desired_range : token_range),
     let r := foldl (add_sources_of snitch address desired_range)
                (false, range_sources) xs in
     let found := r.1 in
     (if found then ret r.2
      else throw (runtime_error (no_sources_found_for desired_range)))
     : M range_map).

Lemma resolve_loop_first_missing snitch address xs pre d post :
  (∀ d', d' ∈ pre → containing d' xs ≠ []) →
  containing d xs = [] →
  ∀ rs, outcome (for_each (pre ++ d :: post) (resolve_turn snitch address xs) rs)
        = inl (runtime_error (no_sources_found_for d)).
Proof.
  intros Hpre Hd. induction pre as [|d' pre IH]; intros rs; cbn [app for_each].
  - destruct (resolve_range snitch address xs rs d) as [_ Hthrow].
    cbn zeta in Hthrow. by rewrite (Hthrow Hd).
  - destruct (resolve_range snitch address xs rs d') as [Hret _].
    cbn zeta in Hret. rewrite Hret by (apply Hpre, elem_of_cons; by left).
    erewrite outcome_bind_returns; [|reflexivity]. apply IH.
    intros ? ?. apply Hpre, elem_of_cons. by right.
Qed.

(** With desired ranges that are all different, the loop leaves under each
    one walked the candidates of that range, and no entry for a range whose
    candidates are none. *)
Lemma resolve_loop_candidates snitch address xs (ds : list token_range) :
  ∀ seen rs l rs',
    NoDup (seen ++ ds) →
    (∀ d, rs !! d = if decide (d ∈ seen)
                    then match candidates snitch address d xs with
                         | [] => None
                         | c :: cs => Some (c :: cs)
                         end
                    else None) →
    for_each ds (resolve_turn snitch address xs) rs = (l, inr rs') →
    ∀ d, rs' !! d = if decide (d ∈ seen ++ ds)
                    then match candidates snitch address d xs with
                         | [] => None
                         | c :: cs => Some (c :: cs)
                         end
                    else None.
Proof.
  induction ds as [|d' ds IH]; intros seen rs l rs' Hnodup Hrs.
  - intros [= _ <-]. by rewrite app_nil_r.
  - cbn [for_each]. intros (rs1 & l1 & l2 & Hturn & Hrest & _)%bind_inr.
    rewrite cons_middle, app_assoc in Hnodup |- *.
    eapply IH; [done| |done].
    assert (d' ∉ seen) as Hfresh.
    { apply NoDup_app in Hnodup as [Hnodup _].
      apply NoDup_app in Hnodup as (_ & Hdisj & _).
      intros ?. eapply Hdisj; [done|]. by apply list_elem_of_singleton. }
    destruct (resolve_range snitch address xs rs d') as [Hret Hthrow].
    cbn zeta in Hret, Hthrow.
    destruct (decide (containing d' xs = [])) as [Hnone|Hsome];
      [rewrite (Hthrow Hnone) in Hturn; done|].
    rewrite (Hret Hsome) in Hturn. injection Hturn as _ <-.
    intros d. rewrite lookup_push_back_all.
    destruct (decide (d = d')) as [->|Hne].
    + rewrite Hrs, decide_False by done. rewrite decide_True
        by (apply elem_of_app; right; by apply list_elem_of_singleton).
      by destruct (candidates snitch address d' xs).
    + rewrite Hrs. destruct (decide (d ∈ seen)) as [Hin|Hout].
      * rewrite decide_True by (apply elem_of_app; by left). done.
      * rewrite decide_False; [done|].
        intros [?|?%list_elem_of_singleton]%elem_of_app; done.
Qed.

(** X3: [get_all_ranges_with_sources_for] returns exactly when every desired
    range is contained in a ring range of the keyspace; otherwise it throws
    the error that names the first desired range that no ring range
    contains. *)
Theorem normal_sources_are_found_or_named self ks (desired_ranges : list token_range) :
  let ring := get_range_addresses
                (get_effective_replication_map (find_keyspace (_db self) ks)) in
  let contained d := ∃ src eps, ring !! src = Some eps ∧ contains src d = true in
  let resolution := get_all_ranges_with_sources_for env self ks desired_ranges in
  ((∃ rs, outcome resolution = inr rs) ↔ ∀ d, d ∈ desired_ranges → contained d)
  ∧ ∀ pre d post,
      desired_ranges = pre ++ d :: post →
      (∀ d', d' ∈ pre → contained d') → ¬ contained d →
      outcome resolution = inl (runtime_error (no_sources_found_for d)).
Proof.
  intros ring contained resolution.
  assert (∀ d, contained d ↔ containing d (map_to_list ring) ≠ []) as Hcontained.
  { intros d. rewrite containing_nonempty. unfold contained.
    split; intros (src & eps & Hin & Hc); exists src, eps; split; try done;
      by apply elem_of_map_to_list. }
  assert (outcome resolution =
          outcome (for_each desired_ranges
                     (resolve_turn (get_local_snitch_ptr env) (_address self)
                        (map_to_list ring)) ∅)) as Hout.
  { subst resolution. unfold get_all_ranges_with_sources_for.
    erewrite outcome_bind_returns; [|reflexivity].
    erewrite outcome_bind_returns; [|reflexivity]. done. }
  rewrite Hout. split; [split|].
  - intros [rs Hrs] d Hd. apply Hcontained. intros Hnone.
    destruct (for_each desired_ranges _ _) as [l r] eqn:Hloop. cbn in Hrs. subst r.
    destruct (for_each_turn _ _ _ Hd _ _ _ Hloop) as (rs1 & lx & rs2 & Hturn & _).
    destruct (resolve_range (get_local_snitch_ptr env) (_address self)
                (map_to_list ring) rs1 d) as [_ Hthrow].
    cbn zeta in Hthrow.
    pose proof (eq_trans (eq_sym Hturn) (Hthrow Hnone)) as Habsurd. done.
  - intros Hall.
    destruct (for_each_returns
                (resolve_turn (get_local_snitch_ptr env) (_address self)
                   (map_to_list ring)) desired_ranges) with (acc := (∅ : range_map))
      as (l & rs & ->); [|by exists rs].
    intros rs d Hd.
    destruct (resolve_range (get_local_snitch_ptr env) (_address self)
                (map_to_list ring) rs d) as [Hret _].
    cbn zeta in Hret. eexists _, _. apply Hret. by apply Hcontained, Hall.
  - intros pre d post -> Hpre Hd. apply resolve_loop_first_missing.
    + intros d' Hd'. by apply Hcontained, Hpre.
    + destruct (containing d (map_to_list ring)) eqn:Hc; [done|].
      destruct Hd. apply Hcontained. by rewrite Hc.
Qed.

(** X4: when it returns for desired ranges that are all different,
    [get_all_ranges_with_sources_for] lists for each desired range the
    replicas of the ring ranges that contain it, each replica set in the
    order of the snitch; it has no entry for any other range, nor for a
    desired range whose containing ring ranges have no replica at all. *)
Theorem normal_sources_are_the_candidates self ks
    (desired_ranges : list token_range) l rs :
  let ring := get_range_addresses
                (get_effective_replication_map (find_keyspace (_db self) ks)) in
  get_all_ranges_with_sources_for env self ks desired_ranges = (l, inr rs) →
  NoDup desired_ranges →
  ∀ d, rs !! d =
    if decide (d ∈ desired_ranges) then
      match candidates (get_local_snitch_ptr env) (_address self) d
              (map_to_list ring) with
      | [] => None
      | c :: cs => Some (c :: cs)
      end
    else None.
Proof.
  intros ring Hres Hnodup. unfold get_all_ranges_with_sources_for in Hres.
  apply bind_inr in Hres as ([] & l1 & l2 & _ & Hres & _).
  apply bind_inr in Hres as ([] & l3 & l4 & _ & Hres & _).
  eapply (resolve_loop_candidates _ _ _ _ [] ∅); [exact Hnodup| |exact Hres].
  intros d. by rewrite lookup_empty, decide_False by apply not_elem_of_nil.
Qed.

End normal_mode.

(** ** More on strict sources *)

Section strict_mode.
Context {inet_address token_range token topology token_metadata : Type}.
Context `{Countable inet_address, Countable token_range, Countable token}.
Context `{!RingRange token_range}.
Context `{!TokenMetadata inet_address token topology token_metadata}.
Context `{!UnorderedMultimap string (gmap inet_address (list token_range))}.
Context {reactor : ParallelForEach}.

Local Abbreviation streamer :=
  (range_streamer inet_address token_range token topology token_metadata).
Local Abbreviation range_map := (gmap token_range (list inet_address)).
Local Abbreviation M := (Effects.M inet_address token_range).

Implicit Types (self : streamer) (rs pending : range_map) (d : token_range).
Implicit Types (xs : list (token_range * list inet_address)).

(** With no ring range that contains the desired range, the loop over the
    ring ranges does nothing. *)
Lemma add_strict_sources_none rf pending d xs rs :
  Forall (λ x, contains x.1 d = false) xs →
  for_each xs (add_strict_source rf pending d) rs = ([], inr rs).
Proof.
  induction 1 as [|[src eps] xs Hx _ IH]; [done|].
  cbn [for_each]. unfold add_strict_source at 1. cbn [fst snd] in *.
  rewrite Hx. cbn [bind ret]. by rewrite IH.
Qed.

(** What the loop over the desired ranges keeps: no range was walked twice;
    the ranges with sources are the ranges walked; each of them is contained
    in a ring range and has one source, which is alive if gossip is
    enabled. *)
Lemma strict_loop_invariant rf pending xs (g : gossiper inet_address)
    (ds : list token_range) l rs :
  for_each ds (λ range_sources desired_range,
    let! range_sources :=
      for_each xs (add_strict_source rf pending desired_range) range_sources in
    validate g desired_range range_sources) ∅ = (l, inr rs) →
  NoDup ds
  ∧ (∀ d, is_Some (rs !! d) ↔ d ∈ ds)
  ∧ ∀ d, d ∈ ds →
      (∃ src eps, (src, eps) ∈ xs ∧ contains src d = true)
      ∧ ∃ source, rs !! d = Some [source]
          ∧ (is_enabled g = true → is_alive g source = true).
Proof.
  intros Hloop.
  pose (I := λ (rs : range_map) (done : list token_range),
    NoDup done
    ∧ (∀ d, is_Some (rs !! d) ↔ d ∈ done)
    ∧ ∀ d, d ∈ done →
        (∃ src eps, (src, eps) ∈ xs ∧ contains src d = true)
        ∧ ∃ source, rs !! d = Some [source]
            ∧ (is_enabled g = true → is_alive g source = true)).
  change (I rs ([] ++ ds)).
  eapply (for_each_invariant I); [|shelve|exact Hloop].
  - intros acc done d' l' acc' (Hnodup & Hkeys & Hdone).
    intros (rs1 & l1 & l2 & Hinner & Hvalid & _)%bind_inr.
    apply validate_spec in Hvalid as (-> & source & Hsource & Halive).
    pose proof Hinner as Hsame.
    apply add_strict_sources_spec in Hinner
      as (Hother & pushed & Hvec & _ & Hall).
    rewrite Hsource in Hvec. cbn [default] in Hvec.
    assert (d' ∉ done) as Hfresh.
    { intros Hin. destruct (Hdone d' Hin) as [(src & eps & Hx & Hc) (s & Hs & _)].
      destruct (Hall src eps Hx Hc) as (_ & ep & _ & Hep & _).
      rewrite Hs in Hvec. cbn in Hvec. injection Hvec as _ Hnil.
      rewrite <- Hnil in Hep. by apply elem_of_nil in Hep. }
    assert (∃ src eps, (src, eps) ∈ xs ∧ contains src d' = true) as Hcontained.
    { destruct (Forall_Exists_dec (λ x : token_range * list inet_address,
                                     contains x.1 d' = false)
                  (λ x, contains x.1 d' = true)
                  (λ x, match contains x.1 d' as b
                          return {b = false} + {b = true} with
                        | false => left eq_refl
                        | true => right eq_refl
                        end) xs) as [Hnone|Hsome].
      - rewrite (add_strict_sources_none rf pending d' xs acc Hnone) in Hsame.
        injection Hsame as _ <-.
        assert (is_Some (acc !! d')) as Hkey by by rewrite Hsource.
        by apply Hkeys in Hkey.
      - apply Exists_exists in Hsome as ([src eps] & ? & ?). eauto. }
    split_and!.
    + apply NoDup_app. split_and!; [done| |apply NoDup_singleton].
      by intros ? ? ->%list_elem_of_singleton.
    + intros d. rewrite elem_of_app, list_elem_of_singleton.
      destruct (decide (d = d')) as [->|Hne].
      * rewrite Hsource. split; [by right|by eexists].
      * rewrite Hother, Hkeys by done. tauto.
    + intros d [Hin|Heq%list_elem_of_singleton]%elem_of_app.
      * assert (d ≠ d') as Hne by by intros ->.
        rewrite Hother by done. by apply Hdone.
      * subst d. split; [done|]. eauto.
  Unshelve.
  split_and!; [apply NoDup_nil_2| |by intros ? ?%elem_of_nil].
  intros d. rewrite lookup_empty. split; [by intros []|by intros ?%elem_of_nil].
Qed.

Lemma strict_resolution_loop self ks (desired_ranges : list token_range)
    (g : gossiper inet_address) rs :
  outcome (get_all_ranges_with_strict_sources_for self ks desired_ranges g)
  = inr rs →
  ∃ l xs,
    for_each desired_ranges (λ range_sources desired_range,
      let! range_sources :=
        for_each xs
          (add_strict_source
             (get_replication_factor
                (get_effective_replication_map (find_keyspace (_db self) ks)))
             (strat_get_range_addresses
                (get_replication_strategy (find_keyspace (_db self) ks))
                (update_normal_tokens (_tokens self) (_address self)
                   (clone_only_token_map (get_token_metadata self))))
             desired_range) range_sources in
      validate g desired_range range_sources) ∅ = (l, inr rs).
Proof.
  intros Hout. unfold get_all_ranges_with_strict_sources_for in Hout.
  destruct (bind _ _) as [l r] eqn:Hrun in Hout. cbn in Hout. subst r.
  apply bind_inr in Hrun as ([] & l1 & l2 & _ & Hrun & _).
  case_decide; [done|].
  apply bind_inr in Hrun as ([] & l3 & l4 & _ & Hrun & _).
  eauto.
Qed.

(** X5: when strict resolution returns, the ranges it has sources for are
    the desired ranges and no other, each with one source; and if gossip is
    enabled, gossip holds every one of these sources alive. *)
Theorem strict_sources_are_alive self ks (desired_ranges : list token_range)
    (g : gossiper inet_address) rs :
  outcome (get_all_ranges_with_strict_sources_for self ks desired_ranges g)
  = inr rs →
  (∀ d, is_Some (rs !! d) ↔ d ∈ desired_ranges)
  ∧ ∀ d, d ∈ desired_ranges →
      ∃ source, rs !! d = Some [source]
        ∧ (is_enabled g = true → is_alive g source = true).
Proof.
  intros (l & xs & Hloop)%strict_resolution_loop.
  apply strict_loop_invariant in Hloop as (_ & Hkeys & Hdone).
  split; [done|]. intros d Hd. by destruct (Hdone d Hd).
Qed.

(** X6: strict resolution does not return for a list of desired ranges in
    which a range occurs twice: the second time the range gets a second
    source, and the validation throws. *)
Theorem strict_sources_reject_repeated_ranges self ks
    (desired_ranges : list token_range) (g : gossiper inet_address) :
  ¬ NoDup desired_ranges →
  ∃ e, outcome (get_all_ranges_with_strict_sources_for self ks desired_ranges g)
       = inl e.
Proof.
  intros Hdup.
  destruct (outcome _) as [e|rs] eqn:Hout; [by exists e|].
  apply strict_resolution_loop in Hout as (l & xs & Hloop).
  apply strict_loop_invariant in Hloop as (Hnodup & _). done.
Qed.

End strict_mode.

(** ** More on adding plans *)

Section adding_plans.
Context {inet_address token_range token topology token_metadata : Type}.
Context `{Countable inet_address, Countable token_range, Countable token}.
Context `{!RingRange token_range}.
Context `{!TokenMetadata inet_address token topology token_metadata}.
Context `{!UnorderedMultimap string (gmap inet_address (list token_range))}.
Context {reactor : ParallelForEach}.
Context (env : globals inet_address) (nr_added_bits : Z).

Local Abbreviation streamer :=
  (range_streamer inet_address token_range token topology token_metadata).
Local Abbreviation fetch_map := (gmap inet_address (list token_range)).

Implicit Types (self : streamer) (ks : string) (m : fetch_map).

Lemma ranges_remaining_snoc
    (to_stream : list (string * fetch_map)) ks m :
  ranges_remaining (to_stream ++ [(ks, m)]) =
    ranges_remaining to_stream
    + sum_list (map (λ ip_range, length ip_range.2) (map_to_list m)).
Proof.
  unfold ranges_remaining. rewrite map_app, sum_list_with_app. cbn. lia.
Qed.

Lemma ranges_remaining_Permutation (to_stream to_stream' : list (string * fetch_map)) :
  to_stream ≡ₚ to_stream' → ranges_remaining to_stream = ranges_remaining to_stream'.
Proof.
  intros Hperm. unfold ranges_remaining.
  apply (sum_list_with_Permutation_proper id), Permutation_map, Hperm.
Qed.

(** X7: when no plan of the other direction was added, [add_rx_ranges] and
    [add_tx_ranges] return; the run then holds the entries it had and the
    new one, wherever the multimap puts it in its iteration, and
    [nr_ranges_to_stream] reports the ranges it reported before plus all the
    ranges of the plan. *)
Theorem adding_a_plan_adds_its_ranges self ks m :
  let added r :=
    outcome r.2 = inr tt
    ∧ _to_stream r.1 ≡ₚ _to_stream self ++ [(ks, m)]
    ∧ outcome (nr_ranges_to_stream r.1) =
        inr (ranges_remaining (_to_stream self)
             + sum_list (map (λ ip_range, length ip_range.2) (map_to_list m))) in
  (_nr_tx_added self = 0%Z → added (add_rx_ranges nr_added_bits self ks m))
  ∧ (_nr_rx_added self = 0%Z → added (add_tx_ranges nr_added_bits self ks m)).
Proof.
  intros added. subst added. cbn beta.
  split; intros Hzero; unfold add_rx_ranges, add_tx_ranges;
    rewrite decide_False by (by intros []); cbn [fst snd];
    (split_and!; [done|apply emplaced_elements|]);
    rewrite nr_ranges_to_stream_counts; unfold emplace;
    cbn [set_to_stream set_nr_rx_added set_nr_tx_added _to_stream];
    by rewrite (ranges_remaining_Permutation _ _ (emplaced_elements ks m _)),
         ranges_remaining_snoc.
Qed.

(** X8: [add_ranges] counts the plan as added before it resolves the
    sources. When the resolution throws in a fresh run, no entry is added to
    the run, and yet [add_tx_ranges] throws the mixed-direction error from
    then on. *)
Theorem failed_add_ranges_fixes_the_direction self ks ranges
    (g : gossiper inet_address) is_replacing e :
  _nr_tx_added self = 0%Z → _nr_rx_added self = 0%Z →
  (1 < 2 ^ nr_added_bits)%Z →
  outcome (add_ranges env nr_added_bits self ks ranges g is_replacing).2 = inl e →
  let self' := (add_ranges env nr_added_bits self ks ranges g is_replacing).1 in
  _to_stream self' = _to_stream self
  ∧ ∀ ks' m,
      add_tx_ranges nr_added_bits self' ks' m
      = (self', throw (runtime_error mixed_sending_and_receiving)).
Proof.
  intros Htx Hrx Hbits. unfold add_ranges.
  rewrite decide_False by (by intros []).
  destruct (plan_ranges_for _ _ _ _ _ _) as [l [e'|m]]; cbn [fst snd outcome];
    [|done].
  intros _. split; [done|]. intros ks' m. unfold add_tx_ranges.
  rewrite decide_True; [done|]. cbn. rewrite Hrx. unfold incr.
  rewrite Z.mod_small by lia. done.
Qed.

End adding_plans.

(** ** Whole runs *)

Section runs.
Context {inet_address token_range token topology token_metadata : Type}.
Context `{Countable inet_address, Countable token_range, Countable token}.
Context `{!RingRange token_range}.
Context `{!TokenMetadata inet_address token topology token_metadata}.
Context `{!UnorderedMultimap string (gmap inet_address (list token_range))}.
Context {reactor : ParallelForEach}.

Local Abbreviation streamer :=
  (range_streamer inet_address token_range token topology token_metadata).
Local Abbreviation fetch_map := (gmap inet_address (list token_range)).
Local Abbreviation thread := (RangeStreamer.thread inet_address token_range).

Implicit Types (self : streamer) (ks : string) (source : inet_address).
Implicit Types (range_vec : list token_range) (st : locals token_range).
Implicit Types (m : fetch_map) (to_stream : list (string * fetch_map)).

(** The sizes of the work lists of a keyspace after each was replaced by
    what its thread left. *)
Lemma sum_of_work_lists_left (g : inet_address → list token_range → list token_range) m :
  sum_list (map (λ ip_range, length ip_range.2)
              (map_to_list (map_imap (λ k v, Some (g k v)) m)))
  = sum_list (map (λ ip_range, length (g ip_range.1 ip_range.2)) (map_to_list m)).
Proof.
  induction m as [|i x m Hi IH] using map_ind.
  - by rewrite map_imap_empty, map_to_list_empty.
  - assert (map_imap (λ k v, Some (g k v)) m !! i = None) as Hleft
      by (by rewrite map_lookup_imap, Hi).
    rewrite (map_imap_insert_Some _ _ _ _ (g i x)) by done.
    rewrite (sum_list_with_Permutation_proper id _ _
               (Permutation_map _ (map_to_list_insert _ i (g i x) Hleft))).
    rewrite (sum_list_with_Permutation_proper id _ _
               (Permutation_map _ (map_to_list_insert m i x Hi))).
    cbn. by rewrite IH.
Qed.

Lemma sum_list_zero {A} (f : A → nat) (l : list A) :
  (∀ x, x ∈ l → f x = 0) → sum_list (map f l) = 0.
Proof.
  induction l as [|x l IH]; intros Hall; [done|]. cbn.
  rewrite Hall by (apply elem_of_cons; by left).
  apply IH. intros ? ?. apply Hall, elem_of_cons. by right.
Qed.

(** The exceptions of the threads. *)
Lemma omap_map_nil {A B E} (f : B → option E) (g : A → B) (xs : list A) :
  omap f (map g xs) = [] ↔ ∀ x, x ∈ xs → f (g x) = None.
Proof.
  induction xs as [|x xs IH]; cbn.
  - split; [by intros _ ? ?%elem_of_nil|done].
  - destruct (f (g x)) as [e|] eqn:Hx; cbn.
    + split; [done|]. intros Hall.
      specialize (Hall x (list_elem_of_here _ _)). congruence.
    + rewrite IH. split.
      * intros Hall y [->|?]%elem_of_cons; [done|by apply Hall].
      * intros Hall y ?. apply Hall, elem_of_cons. by right.
Qed.

Lemma elem_of_omap_map {A B E} (f : B → option E) (g : A → B) (xs : list A) e :
  e ∈ omap f (map g xs) → ∃ x, x ∈ xs ∧ f (g x) = Some e.
Proof.
  induction xs as [|x xs IH]; cbn; [by intros ?%elem_of_nil|].
  destruct (f (g x)) as [e'|] eqn:Hx; cbn.
  - intros [->|Hin]%elem_of_cons.
    + exists x. split; [left|done].
    + destruct (IH Hin) as (y & ? & ?). exists y. split; [by right|done].
  - intros Hin. destruct (IH Hin) as (y & ? & ?). exists y. split; [by right|done].
Qed.

(** The exception of a keyspace is that of one of its sources, and there is
    none when every source succeeds. *)
Lemma kr_exception_None self ks m :
  kr_exception (stream_keyspace self ks m) = None ↔
  ∀ source range_vec, m !! source = Some range_vec →
    thread_exception (stream_source self ks source range_vec) = None.
Proof.
  unfold stream_keyspace. cbn [kr_exception].
  setoid_rewrite <- elem_of_map_to_list.
  pose proof (omap_map_nil thread_exception
    (λ ip_range : inet_address * list token_range,
       stream_source self ks ip_range.1 ip_range.2) (map_to_list m)) as Hnil.
  destruct (omap _ _) as [|e es].
  - split; [|done]. intros _ source range_vec Hin.
    by apply (proj1 Hnil eq_refl (source, range_vec)).
  - split; [done|]. intros Hall. exfalso.
    assert (e :: es = []) as Hnone; [|done].
    apply Hnil. intros [source range_vec] Hin. by apply Hall.
Qed.

Lemma kr_exception_Some self ks m e :
  kr_exception (stream_keyspace self ks m) = Some e →
  ∃ source range_vec, m !! source = Some range_vec
    ∧ thread_exception (stream_source self ks source range_vec) = Some e.
Proof.
  unfold stream_keyspace. cbn [kr_exception].
  setoid_rewrite <- elem_of_map_to_list.
  pose proof (elem_of_omap_map thread_exception
    (λ ip_range : inet_address * list token_range,
       stream_source self ks ip_range.1 ip_range.2) (map_to_list m) e) as Hin.
  destruct (omap _ _) as [|e' es]; [done|]. intros [= <-].
  destruct (Hin (passed_on_thrown e' es)) as ([source range_vec] & ? & ?).
  by exists source, range_vec.
Qed.

(** One dispatch, whatever the direction: the index is used for the plan
    and incremented even when the abort check throws; a plan that ran
    clears the chunk, an exception leaves it. *)
Lemma do_streaming_outcome self ks source total range_vec st :
  let t := do_streaming self ks source total range_vec st in
  thread_range_vec t = range_vec
  ∧ sp_index (thread_locals t) = ((sp_index st + 1) mod 2 ^ 32)%Z
  ∧ Forall (λ sp, sp_keyspace sp = ks ∧ sp_description sp = _description self
                  ∧ sp_reason sp = _reason self) (thread_plans t)
  ∧ match thread_exception t with
    | None =>
        ranges_to_stream (thread_locals t) = []
        ∧ map sp_number (thread_plans t) = [sp_index st]
    | Some e =>
        ranges_to_stream (thread_locals t) = ranges_to_stream st
        ∧ (thread_plans t = [] ∨ map sp_number (thread_plans t) = [sp_index st])
    end.
Proof.
  unfold do_streaming. cbn zeta.
  destruct (abort_requested _ _ _ _); cbn.
  { split_and!; [done|done|constructor|done|by left]. }
  destruct (execute _ _) as [e|]; cbn.
  - split_and!; [done|done|by repeat constructor|done|by right].
  - split_and!; [done|done|by repeat constructor|done|done].
Qed.

(** The loop, whatever the direction: the plans are numbered from the index
    the loop starts with; each took a full chunk from the ranges the loop
    started with. *)
Lemma stream_loop_progress self ks source total per_plan :
  ∀ range_vec st,
    length (ranges_to_stream st) < max 1 per_plan →
    (0 ≤ sp_index st < 2 ^ 32)%Z →
    let t := stream_loop self ks source total per_plan range_vec st in
    let k := length (thread_plans t) in
    map sp_number (thread_plans t)
      = map (λ j, ((sp_index st + Z.of_nat j) mod 2 ^ 32)%Z) (seq 0 k)
    ∧ Forall (λ sp, sp_keyspace sp = ks ∧ sp_description sp = _description self
                    ∧ sp_reason sp = _reason self) (thread_plans t)
    ∧ match thread_exception t with
      | None =>
          thread_range_vec t = []
          ∧ length (ranges_to_stream (thread_locals t)) < max 1 per_plan
          ∧ k * max 1 per_plan + length (ranges_to_stream (thread_locals t))
            = length (ranges_to_stream st) + length range_vec
          ∧ sp_index (thread_locals t) = ((sp_index st + Z.of_nat k) mod 2 ^ 32)%Z
      | Some e =>
          length (ranges_to_stream (thread_locals t)) = max 1 per_plan
          ∧ k * max 1 per_plan + length (thread_range_vec t)
            ≤ length (ranges_to_stream st) + length range_vec
          ∧ length (ranges_to_stream (thread_locals t)) + length (thread_range_vec t)
            ≤ length (ranges_to_stream st) + length range_vec
      end.
Proof.
  induction range_vec as [|r rest IH]; intros st Hlt Hindex.
  - cbn. split_and!; [done|constructor|done|done|lia|].
    rewrite Z.add_0_r. by rewrite Z.mod_small.
  - cbn [stream_loop ranges_to_stream]. case_decide as Hfull.
    + match goal with |- context [stream_loop _ _ _ _ _ rest ?st1] =>
        destruct (IH st1) as (Hnumbers & Hnames & Hexc)
      end; [cbn; lia|done|].
      cbn [ranges_to_stream sp_index] in *.
      split_and!; [done|done|].
      destruct (thread_exception _); rewrite length_app in Hexc; cbn [length] in *;
        (split_and!; [try tauto; lia..]).
    + rewrite length_app in Hfull. cbn [length] in Hfull.
      match goal with |- context [do_streaming _ _ _ _ _ ?st1] =>
        destruct (do_streaming_outcome self ks source total rest st1)
          as (Hrv & Hnext & Hnamed & Hexc);
        set (t := do_streaming self ks source total rest st1) in *
      end; cbn [ranges_to_stream sp_index] in *.
      destruct (thread_exception t) as [e|] eqn:Ht.
      * rewrite Ht. destruct Hexc as [Hkept Hplans].
        rewrite Hkept, Hrv, length_app. cbn [length].
        split_and!; [|done|lia| |lia].
        -- destruct Hplans as [->|Hone]; [done|]. rewrite Hone.
           apply (f_equal length) in Hone. rewrite length_map in Hone.
           cbn in Hone. rewrite Hone. cbn. rewrite Z.add_0_r.
           by rewrite Z.mod_small.
        -- destruct Hplans as [->|Hone]; [cbn; lia|].
           apply (f_equal length) in Hone. rewrite length_map in Hone.
           cbn in Hone. rewrite Hone. lia.
      * destruct Hexc as [Hcleared Hone].
        destruct (IH (thread_locals t)) as (Hnumbers & Hnames & Hrest).
        { rewrite Hcleared. cbn. lia. }
        { rewrite Hnext. by apply Z.mod_pos_bound. }
        cbn [followed_by thread_plans thread_exception thread_range_vec thread_locals].
        assert (length (thread_plans t) = 1) as Hlen.
        { apply (f_equal length) in Hone. by rewrite length_map in Hone. }
        rewrite length_app, Hlen, map_app, Hone, Hnumbers. cbn [Nat.add seq map app].
        split_and!.
        -- rewrite Z.add_0_r, Z.mod_small by done. f_equal.
           rewrite <- seq_shift, map_map. apply map_ext. intros j.
           rewrite Hnext, Zplus_mod_idemp_l. f_equal. lia.
        -- by apply Forall_app.
        -- rewrite Hcleared in Hrest. cbn [length] in Hrest.
           destruct (thread_exception (stream_loop _ _ _ _ _ _ _)).
           ++ destruct Hrest as (? & ? & ?). cbn [length].
              rewrite Nat.mul_succ_l. split_and!; lia.
           ++ destruct Hrest as (? & ? & ? & Hlast). cbn [length].
              rewrite Nat.mul_succ_l. split_and!; [done|done|lia|].
              rewrite Hlast, Hnext, Zplus_mod_idemp_l. f_equal. lia.
Qed.

(** The [try] block, whatever the direction. *)
Lemma stream_ranges_progress self ks source range_vec :
  let t := stream_ranges self ks source range_vec in
  length (thread_plans t) ≤ 19
  ∧ map sp_number (thread_plans t) = map Z.of_nat (seq 0 (length (thread_plans t)))
  ∧ Forall (λ sp, sp_keyspace sp = ks ∧ sp_description sp = _description self
                  ∧ sp_reason sp = _reason self) (thread_plans t)
  ∧ match thread_exception t with
    | None => thread_range_vec t = [] ∧ ranges_to_stream (thread_locals t) = []
    | Some e =>
        ranges_to_stream (thread_locals t) ≠ []
        ∧ length (ranges_to_stream (thread_locals t)) + length (thread_range_vec t)
          ≤ length range_vec
    end.
Proof.
  intros t. subst t. unfold stream_ranges.
  set (total := length range_vec).
  set (st0 := {| ranges_to_stream := []; sp_index := 0%Z;
                 nr_ranges_streamed := 0%Z |}).
  destruct (stream_loop_progress self ks source total (total / 10) range_vec st0)
    as (Hnumbers & Hnames & Hexc); [cbn; lia|cbn; lia|].
  set (tl := stream_loop self ks source total (total / 10) range_vec st0) in *.
  cbn [st0 ranges_to_stream sp_index length] in Hnumbers, Hexc.
  fold total in Hexc.
  assert (total < 10 * (total / 10) + 10) as Hdiv.
  { pose proof (Nat.div_mod_eq total 10).
    pose proof (Nat.mod_upper_bound total 10). lia. }
  assert (∀ k, k < 20 →
            map (λ j, ((0 + Z.of_nat j) mod 2 ^ 32)%Z) (seq 0 k)
            = map Z.of_nat (seq 0 k)) as Hsmall.
  { intros k Hk. apply map_ext_in. intros j [_ Hj]%in_seq.
    rewrite Z.add_0_l. apply Z.mod_small. lia. }
  unfold and_then. destruct (thread_exception tl) as [e|] eqn:Htl.
  - rewrite Htl. destruct Hexc as (Hlen & Hcount & Hleft).
    assert (length (thread_plans tl) ≤ 19) as Hbound.
    { destruct (total / 10) as [|[|q]]; cbn [max] in *; nia. }
    split_and!; [done|rewrite Hnumbers; apply Hsmall; lia|done| |lia].
    intros Hnil. rewrite Hnil in Hlen. cbn in Hlen. lia.
  - destruct Hexc as (Hrv & Hlt & Hcount & Hlast).
    cbn [followed_by thread_plans thread_exception thread_range_vec thread_locals].
    case_decide as Hleft.
    + destruct (do_streaming_outcome self ks source total (thread_range_vec tl)
                  (thread_locals tl)) as (Hrv' & _ & Hnamed & Hexc).
      set (td := do_streaming self ks source total (thread_range_vec tl)
                   (thread_locals tl)) in *.
      assert (length (thread_plans tl) < 19) as Hbound.
      { destruct (total / 10) as [|[|q]]; cbn [max] in *; nia. }
      assert (thread_plans td = []
              ∨ map sp_number (thread_plans td) = [sp_index (thread_locals tl)])
        as [Hnone|Hone].
      { destruct (thread_exception td); [tauto|]. right. tauto. }
      * rewrite Hnone, app_nil_r. split_and!; [lia|rewrite Hnumbers; apply Hsmall; lia|done|].
        destruct (thread_exception td); [|by rewrite Hnone in Hexc; destruct Hexc].
        destruct Hexc as [-> _]. rewrite Hrv', Hrv. cbn [length]. split; [|lia].
        intros Hnil. rewrite Hnil in Hleft. cbn in Hleft. lia.
      * assert (length (thread_plans td) = 1) as Hlen.
        { apply (f_equal length) in Hone. by rewrite length_map in Hone. }
        rewrite length_app, Hlen, map_app, Hone, Hnumbers, Hlast.
        split_and!; [lia| |by apply Forall_app|].
        -- rewrite Nat.add_1_r, seq_S, map_app, Hsmall by lia. cbn. f_equal.
           f_equal. apply Z.mod_small. lia.
        -- destruct (thread_exception td).
           ++ destruct Hexc as [-> _]. rewrite Hrv', Hrv. cbn [length]. split; [|lia].
              intros Hnil. rewrite Hnil in Hleft. cbn in Hleft. lia.
           ++ destruct Hexc as [Hcleared _]. by rewrite Hrv', Hrv.
    + cbn. rewrite !app_nil_r.
      assert (ranges_to_stream (thread_locals tl) = []) as Hnil
        by (destruct (ranges_to_stream (thread_locals tl)); [done|cbn in Hleft; lia]).
      assert (length (thread_plans tl) ≤ 19) as Hbound.
      { destruct (total / 10) as [|[|q]]; cbn [max] in *; nia. }
      split_and!; [done|rewrite Hnumbers; apply Hsmall; lia|done|done|done].
Qed.

(** The thread of one source, whatever the direction: it leaves no range
    when it succeeds and at least one when it fails. *)
Lemma stream_source_progress self ks source range_vec :
  let t := stream_source self ks source range_vec in
  match thread_exception t with
  | None => thread_range_vec t = []
  | Some e =>
      thread_range_vec t ≠ [] ∧ length (thread_range_vec t) ≤ length range_vec
  end.
Proof.
  intros t. subst t.
  destruct (stream_ranges_progress self ks source range_vec)
    as (_ & _ & _ & Hexc).
  unfold stream_source.
  set (tr := stream_ranges self ks source range_vec) in *.
  destruct (thread_exception tr) as [e|];
    cbn [thread_exception thread_range_vec]; [|tauto].
  destruct Hexc as [Hleft Hlen]. rewrite foldl_push_back. split.
  - by intros [_ ?]%app_eq_nil.
  - rewrite length_app. lia.
Qed.

Lemma sum_list_ge {A} (f : A → nat) (l : list A) x :
  x ∈ l → f x ≤ sum_list (map f l).
Proof.
  induction l as [|y l IH]; [by intros ?%elem_of_nil|].
  intros [->|Hin]%elem_of_cons; cbn; [lia|]. specialize (IH Hin). lia.
Qed.

(** A keyspace leaves no range when it succeeds and some when it fails. *)
Lemma keyspace_progress self ks m :
  let kr := stream_keyspace self ks m in
  let left :=
    sum_list (map (λ ip_range, length ip_range.2)
                (map_to_list (kr_ip_range_vec kr))) in
  match kr_exception kr with
  | None => left = 0
  | Some e => left ≠ 0
  end.
Proof.
  intros kr left. subst kr left.
  destruct (kr_exception (stream_keyspace self ks m)) as [e|] eqn:Hexc.
  - apply kr_exception_Some in Hexc as (source & range_vec & Hin & Hsource).
    unfold stream_keyspace. cbn [kr_ip_range_vec].
    rewrite (sum_of_work_lists_left
               (λ source range_vec,
                  thread_range_vec (stream_source self ks source range_vec))).
    apply elem_of_map_to_list in Hin.
    pose proof (sum_list_ge
      (λ ip_range : inet_address * list token_range,
         length (thread_range_vec (stream_source self ks ip_range.1 ip_range.2)))
      _ _ Hin) as Hge.
    cbn [fst snd] in Hge.
    pose proof (stream_source_progress self ks source range_vec) as Hleft.
    cbn zeta in Hleft. rewrite Hsource in Hleft. destruct Hleft as [Hleft _].
    destruct (thread_range_vec (stream_source self ks source range_vec));
      [done|]. cbn [length] in Hge. lia.
  - unfold stream_keyspace. cbn [kr_ip_range_vec].
    rewrite (sum_of_work_lists_left
               (λ source range_vec,
                  thread_range_vec (stream_source self ks source range_vec))).
    apply sum_list_zero. intros [source range_vec] Hin%elem_of_map_to_list.
    pose proof (proj1 (kr_exception_None self ks m) Hexc source range_vec Hin)
      as Hsource.
    pose proof (stream_source_progress self ks source range_vec) as Hleft.
    cbn zeta in Hleft. rewrite Hsource in Hleft. cbn [fst snd].
    by rewrite Hleft.
Qed.

Lemma ranges_remaining_cons ks m to_stream :
  ranges_remaining ((ks, m) :: to_stream) =
    sum_list (map (λ ip_range, length ip_range.2) (map_to_list m))
    + ranges_remaining to_stream.
Proof. reflexivity. Qed.

Lemma stream_keyspaces_progress self to_stream :
  let sr := stream_keyspaces self to_stream in
  match sr_exception sr with
  | None => ranges_remaining (sr_to_stream sr) = 0
  | Some e => ranges_remaining (sr_to_stream sr) ≠ 0
  end.
Proof.
  induction to_stream as [|[ks m] rest IH]; [done|].
  cbn [stream_keyspaces fst snd].
  pose proof (keyspace_progress self ks m) as Hks. cbn zeta in Hks.
  destruct (kr_exception (stream_keyspace self ks m)) as [e|];
    cbn [sr_exception sr_to_stream].
  - rewrite ranges_remaining_cons. lia.
  - cbn zeta in IH. rewrite ranges_remaining_cons, Hks.
    by destruct (sr_exception (stream_keyspaces self rest)).
Qed.

(** X9: however the streamer was set up, the thread of a source hands at
    most 19 plans to the transport; the plans are numbered 0, 1, 2, ... in
    the order they are dispatched, and each is named after the description
    of the streamer and the keyspace and carries the reason of the
    streamer. *)
Theorem plans_of_a_source_are_few_and_numbered self ks source range_vec :
  let plans := thread_plans (stream_source self ks source range_vec) in
  length plans ≤ 19
  ∧ map sp_number plans = map Z.of_nat (seq 0 (length plans))
  ∧ Forall (λ sp, sp_description sp = _description self ∧ sp_keyspace sp = ks
                  ∧ sp_reason sp = _reason self) plans.
Proof.
  intros plans. subst plans.
  destruct (stream_ranges_progress self ks source range_vec)
    as (Hfew & Hnumbers & Hnames & _).
  assert (thread_plans (stream_source self ks source range_vec)
          = thread_plans (stream_ranges self ks source range_vec)) as ->.
  { unfold stream_source. by destruct (thread_exception _). }
  split_and!; [done|done|].
  eapply Forall_impl; [exact Hnames|]. cbn. tauto.
Qed.

(** X10: the last line [stream_async] logs agrees with how it ends. When it
    returns, no range is left in any work list and the line says that the
    job succeeded with 0 ranges remaining; when it throws, some range is left
    and the line is the warning that the job failed, with the number of
    ranges left. *)
Theorem report_agrees_with_outcome self :
  let r := stream_async self in
  let n := ranges_remaining (_to_stream r.1.1) in
  match outcome r.2 with
  | inr _ =>
      n = 0 ∧ last (logged r.2) = Some (info, stream_succeeded (_description self) 0)
  | inl _ =>
      n ≠ 0 ∧ last (logged r.2) = Some (warn, stream_failed (_description self) n)
  end.
Proof.
  intros r n. subst r n. unfold stream_async.
  cbn [fst snd outcome logged].
  rewrite !nr_ranges_to_stream_counts.
  cbn [set_to_stream _to_stream].
  pose proof (stream_keyspaces_progress self (_to_stream self)) as Hleft.
  cbn zeta in Hleft.
  destruct (sr_exception (stream_keyspaces self (_to_stream self))) as [e|].
  - split; [done|]. rewrite !app_assoc.
    case_decide; [|done]. by rewrite last_snoc.
  - split; [done|]. rewrite !app_assoc. rewrite Hleft.
    case_decide; [done|]. by rewrite last_snoc.
Qed.

Lemma concat_Permutation {A} (l l' : list (list A)) :
  l ≡ₚ l' → concat l ≡ₚ concat l'.
Proof.
  induction 1 as [|x l l' _ IH|x y l|l l' l'' _ IH _ IH']; cbn.
  - done.
  - by rewrite IH.
  - rewrite !app_assoc. by rewrite (Permutation_app_comm x y).
  - by etransitivity.
Qed.

(** The plans of a thread are among those of its keyspace, in their
    order. *)
Lemma thread_plans_sublist self ks m source range_vec :
  m !! source = Some range_vec →
  thread_plans (stream_source self ks source range_vec)
    `sublist_of` kr_plans (stream_keyspace self ks m).
Proof.
  intros Hsource. unfold stream_keyspace. cbn [kr_plans].
  apply interleaved_order, list_elem_of_In.
  apply in_map, in_map_iff. exists (source, range_vec). split; [done|].
  by apply list_elem_of_In, elem_of_map_to_list.
Qed.

(** *** Runs that nothing disturbs *)

Section undisturbed.
Context (self : streamer).
Hypothesis plans_run : ∀ sp, execute (_stream_manager self) sp = None.
Hypothesis no_abort : ∀ source ks index,
  abort_requested (_abort_source self) source ks index = false.

Lemma do_streaming_succeeds ks source total range_vec st :
  thread_exception (do_streaming self ks source total range_vec st) = None.
Proof. unfold do_streaming. cbn zeta. by rewrite no_abort, plans_run. Qed.

Lemma stream_loop_succeeds ks source total per_plan range_vec st :
  thread_exception (stream_loop self ks source total per_plan range_vec st) = None.
Proof.
  revert st. induction range_vec as [|r rest IH]; intros st; [done|].
  cbn [stream_loop]. case_decide; [apply IH|].
  rewrite do_streaming_succeeds. cbn [followed_by thread_exception]. apply IH.
Qed.

Lemma stream_source_succeeds ks source range_vec :
  thread_exception (stream_source self ks source range_vec) = None.
Proof.
  assert (thread_exception (stream_ranges self ks source range_vec) = None) as Hexc.
  { unfold stream_ranges, and_then. rewrite stream_loop_succeeds.
    cbn [followed_by thread_exception]. case_decide; [|done].
    apply do_streaming_succeeds. }
  unfold stream_source. by rewrite Hexc.
Qed.

Lemma stream_keyspace_succeeds ks m :
  kr_exception (stream_keyspace self ks m) = None
  ∧ kr_ip_range_vec (stream_keyspace self ks m) = (λ _, []) <$> m.
Proof.
  split.
  - apply kr_exception_None. intros. apply stream_source_succeeds.
  - unfold stream_keyspace. cbn [kr_ip_range_vec]. apply map_eq. intros source.
    rewrite map_lookup_imap, lookup_fmap.
    destruct (m !! source) as [range_vec|]; [|done]. cbn. f_equal.
    pose proof (stream_source_progress self ks source range_vec) as Hleft.
    cbn zeta in Hleft. by rewrite stream_source_succeeds in Hleft.
Qed.

Lemma plans_of_source_carry_its_ranges ks source range_vec :
  _nr_rx_added self ≠ 0%Z ∨ _nr_tx_added self ≠ 0%Z →
  concat (map ranges_of_plan (thread_plans (stream_source self ks source range_vec)))
  = range_vec.
Proof.
  intros Hdir.
  destruct (stream_source_spec self ks source range_vec Hdir)
    as (ran & attempted & failed & undispatched & Hplans & _ & Hranges & Hexc).
  rewrite stream_source_succeeds in Hexc.
  destruct Hexc as (-> & -> & -> & _).
  by rewrite Hplans, Hranges, !app_nil_r.
Qed.

Lemma plans_of_keyspace_carry_its_ranges ks m :
  _nr_rx_added self ≠ 0%Z ∨ _nr_tx_added self ≠ 0%Z →
  concat (map ranges_of_plan (kr_plans (stream_keyspace self ks m)))
  ≡ₚ concat (map snd (map_to_list m)).
Proof.
  intros Hdir. unfold stream_keyspace. cbn [kr_plans].
  rewrite (concat_Permutation _ _
             (Permutation_map ranges_of_plan (interleaved_elements _))).
  induction (map_to_list m) as [|[source range_vec] xs IH]; [done|].
  cbn [map concat fst snd]. rewrite map_app, concat_app, IH.
  by rewrite plans_of_source_carry_its_ranges.
Qed.

Lemma stream_keyspaces_succeed to_stream :
  let sr := stream_keyspaces self to_stream in
  sr_exception sr = None
  ∧ sr_to_stream sr = map (λ stream, (stream.1, (λ _, []) <$> stream.2)) to_stream
  ∧ (_nr_rx_added self ≠ 0%Z ∨ _nr_tx_added self ≠ 0%Z →
     concat (map ranges_of_plan (sr_plans sr))
     ≡ₚ concat (map (λ stream, concat (map snd (map_to_list stream.2))) to_stream))
  ∧ ∀ ks m, (ks, m) ∈ to_stream →
      kr_plans (stream_keyspace self ks m) `sublist_of` sr_plans sr.
Proof.
  induction to_stream as [|[ks m] rest IH].
  { split_and!; [done..|]. by intros ? ? ?%elem_of_nil. }
  cbn [stream_keyspaces fst snd].
  destruct (stream_keyspace_succeeds ks m) as [-> Hleft].
  cbn zeta in IH. destruct IH as (Hexc & Hrest & Hplans & Hsub).
  cbn [sr_exception sr_to_stream sr_plans map fst snd concat].
  split_and!; [done|by rewrite Hleft, Hrest| |].
  - intros Hdir. rewrite map_app, concat_app, (Hplans Hdir).
    by rewrite plans_of_keyspace_carry_its_ranges.
  - intros ks' m' [[= -> ->]|Hin]%elem_of_cons.
    + by apply sublist_inserts_r.
    + by apply sublist_inserts_l, Hsub.
Qed.

End undisturbed.

(** X11: when the transport runs every plan and no abort is requested,
    [stream_async] returns, and it leaves every source of every keyspace an
    empty work list. If a direction was set, the plans handed to the
    transport carry the ranges of the work lists, each range once; the plans
    of the sources of a keyspace may be interleaved, but those of one source
    are handed over in their order and carry its work list from its first
    range to its last. *)
Theorem undisturbed_run_streams_everything self :
  (∀ sp, execute (_stream_manager self) sp = None) →
  (∀ source ks index,
     abort_requested (_abort_source self) source ks index = false) →
  let r := stream_async self in
  outcome r.2 = inr tt
  ∧ _to_stream r.1.1
    = map (λ stream, (stream.1, (λ _, []) <$> stream.2)) (_to_stream self)
  ∧ (_nr_rx_added self ≠ 0%Z ∨ _nr_tx_added self ≠ 0%Z →
     concat (map ranges_of_plan r.1.2)
     ≡ₚ concat (map (λ stream, concat (map snd (map_to_list stream.2)))
                 (_to_stream self))
     ∧ ∀ ks m source range_vec,
         (ks, m) ∈ _to_stream self → m !! source = Some range_vec →
         let plans := thread_plans (stream_source self ks source range_vec) in
         plans `sublist_of` r.1.2
         ∧ concat (map ranges_of_plan plans) = range_vec).
Proof.
  intros Hrun Hno r. subst r.
  destruct (stream_keyspaces_succeed self Hrun Hno (_to_stream self))
    as (Hexc & Hleft & Hplans & Hsub).
  unfold stream_async. cbn [fst snd outcome set_to_stream _to_stream].
  rewrite Hexc. split_and!; [done|done|]. intros Hdir.
  split; [by apply Hplans|]. intros ks m source range_vec Hin Hsource.
  split; [|by apply plans_of_source_carry_its_ranges].
  etransitivity; [|by apply Hsub]. by apply thread_plans_sublist.
Qed.

(** *** Runs that are aborted *)

Section aborted.
Context (self : streamer).
Hypothesis abort : ∀ source ks index,
  abort_requested (_abort_source self) source ks index = true.

Lemma do_streaming_aborted ks source total range_vec st :
  let t := do_streaming self ks source total range_vec st in
  thread_plans t = [] ∧ thread_exception t = Some abort_requested_exception
  ∧ thread_range_vec t = range_vec
  ∧ ranges_to_stream (thread_locals t) = ranges_to_stream st.
Proof. unfold do_streaming. cbn zeta. by rewrite abort. Qed.

Lemma stream_loop_aborted ks source total per_plan range_vec st :
  let t := stream_loop self ks source total per_plan range_vec st in
  thread_plans t = []
  ∧ ranges_to_stream (thread_locals t) ++ thread_range_vec t
    = ranges_to_stream st ++ range_vec
  ∧ match thread_exception t with
    | None => thread_range_vec t = []
    | Some e =>
        e = abort_requested_exception ∧ ranges_to_stream (thread_locals t) ≠ []
    end.
Proof.
  revert st. induction range_vec as [|r rest IH]; intros st.
  - cbn. by rewrite app_nil_r.
  - cbn [stream_loop]. case_decide.
    + match goal with |- context [stream_loop _ _ _ _ _ rest ?st1] =>
        destruct (IH st1) as (Hplans & Hranges & Hexc)
      end.
      cbn [ranges_to_stream] in Hranges.
      split_and!; [done|by rewrite Hranges, <- app_assoc|done].
    + match goal with |- context [do_streaming _ _ _ _ _ ?st1] =>
        destruct (do_streaming_aborted ks source total rest st1)
          as (Hplans & Hexc & Hrv & Hkept)
      end.
      cbn zeta. rewrite !Hexc, Hplans, Hrv, Hkept. cbn [ranges_to_stream].
      split_and!; [done|by rewrite <- app_assoc|done|].
      by intros [_ ?]%app_eq_nil.
Qed.

Lemma stream_source_aborted ks source range_vec :
  let t := stream_source self ks source range_vec in
  thread_plans t = []
  ∧ thread_range_vec t ≡ₚ range_vec
  ∧ thread_exception t
    = match range_vec with
      | [] => None
      | _ => Some abort_requested_exception
      end.
Proof.
  intros t. subst t.
  set (st0 := {| ranges_to_stream := []; sp_index := 0%Z;
                 nr_ranges_streamed := 0%Z |} : locals token_range).
  assert (let tr := stream_ranges self ks source range_vec in
          thread_plans tr = []
          ∧ ranges_to_stream (thread_locals tr) ++ thread_range_vec tr = range_vec
          ∧ thread_exception tr
            = match range_vec with
              | [] => None
              | _ => Some abort_requested_exception
              end) as (Hplans & Hranges & Hexc).
  { unfold stream_ranges, and_then.
    destruct (stream_loop_aborted ks source (length range_vec)
                (length range_vec / 10) range_vec st0)
      as (Hplans & Hranges & Hexc). fold st0.
    set (tl := stream_loop self ks source (length range_vec)
                 (length range_vec / 10) range_vec st0) in *.
    cbn [st0 ranges_to_stream app] in Hranges.
    destruct (thread_exception tl) as [e|] eqn:Htl.
    - rewrite Htl. destruct Hexc as [-> Hleft]. split_and!; [done|done|].
      destruct range_vec; [|done].
      by apply app_eq_nil in Hranges as [? _].
    - cbn [followed_by thread_plans thread_exception thread_range_vec thread_locals].
      rewrite Hexc, app_nil_r in Hranges. case_decide as Hsome.
      + destruct (do_streaming_aborted ks source (length range_vec)
                    (thread_range_vec tl) (thread_locals tl))
          as (Hnone & Haborted & Hrv & Hkept).
        rewrite Hplans, Hnone, Haborted, Hrv, Hkept, Hexc, !app_nil_r.
        split_and!; [done|done|]. rewrite Hranges in Hsome.
        destruct range_vec; [cbn in Hsome; lia|done].
      + cbn. rewrite Hplans, Hexc, !app_nil_r. split_and!; [done|done|].
        rewrite Hranges in Hsome. by destruct range_vec; [|cbn in Hsome; lia]. }
  unfold stream_source.
  set (tr := stream_ranges self ks source range_vec) in *.
  destruct (thread_exception tr) as [e|];
    cbn [thread_plans thread_exception thread_range_vec].
  - split_and!; [done| |done].
    rewrite foldl_push_back, <- Hranges. apply Permutation_app_comm.
  - split_and!; [done| |done].
    destruct range_vec; [|done].
    apply app_eq_nil in Hranges as [_ ->]. done.
Qed.

Lemma stream_keyspace_aborted ks m :
  let kr := stream_keyspace self ks m in
  let n := sum_list (map (λ ip_range, length ip_range.2) (map_to_list m)) in
  kr_plans kr = []
  ∧ sum_list (map (λ ip_range, length ip_range.2)
                (map_to_list (kr_ip_range_vec kr))) = n
  ∧ kr_exception kr
    = if decide (n = 0) then None else Some abort_requested_exception.
Proof.
  intros kr n. subst kr n. split_and!.
  - unfold stream_keyspace. cbn [kr_plans].
    apply Permutation_nil_r. rewrite interleaved_elements.
    induction (map_to_list m) as [|[source range_vec] xs IH]; [done|].
    cbn [map concat fst snd]. rewrite IH.
    by destruct (stream_source_aborted ks source range_vec) as (-> & _).
  - unfold stream_keyspace. cbn [kr_ip_range_vec].
    rewrite (sum_of_work_lists_left
               (λ source range_vec,
                  thread_range_vec (stream_source self ks source range_vec))).
    f_equal. apply map_ext. intros [source range_vec]. cbn [fst snd].
    destruct (stream_source_aborted ks source range_vec) as (_ & Hperm & _).
    by rewrite Hperm.
  - destruct (kr_exception (stream_keyspace self ks m)) as [e|] eqn:Hexc.
    + apply kr_exception_Some in Hexc as (source & range_vec & Hin & Hsource).
      destruct (stream_source_aborted ks source range_vec) as (_ & _ & Haborted).
      rewrite Hsource in Haborted.
      apply elem_of_map_to_list in Hin.
      pose proof (sum_list_ge
        (λ ip_range : inet_address * list token_range, length ip_range.2)
        _ _ Hin) as Hge.
      destruct range_vec; [done|]. injection Haborted as ->.
      cbn [snd length] in Hge. case_decide; [lia|done].
    + rewrite decide_True; [done|].
      apply sum_list_zero. intros [source range_vec] Hin%elem_of_map_to_list.
      pose proof (proj1 (kr_exception_None self ks m) Hexc source range_vec Hin)
        as Hsource.
      destruct (stream_source_aborted ks source range_vec) as (_ & _ & Haborted).
      rewrite Hsource in Haborted. by destruct range_vec.
Qed.

Lemma stream_keyspaces_aborted to_stream :
  let sr := stream_keyspaces self to_stream in
  sr_plans sr = []
  ∧ ranges_remaining (sr_to_stream sr) = ranges_remaining to_stream
  ∧ sr_exception sr
    = if decide (ranges_remaining to_stream = 0) then None
      else Some abort_requested_exception.
Proof.
  induction to_stream as [|[ks m] rest IH]; [done|].
  cbn [stream_keyspaces fst snd].
  destruct (stream_keyspace_aborted ks m) as (Hplans & Hleft & Hexc).
  cbn zeta in IH. destruct IH as (Hnone & Hrest & Hlater).
  rewrite Hexc. case_decide as Hzero;
    cbn [sr_plans sr_to_stream sr_exception];
    rewrite !ranges_remaining_cons, Hleft.
  - rewrite Hplans, Hnone, Hrest, Hlater, Hzero. split_and!; [done|done|].
    cbn [Nat.add]. done.
  - split_and!; [done|done|]. by rewrite decide_False by lia.
Qed.

End aborted.

(** X12: when an abort is requested throughout the run, [stream_async]
    hands no plan to the transport and leaves as many ranges as there were;
    it throws [abort_requested_exception], unless there was no range to
    stream, in which case it returns. *)
Theorem aborted_run_dispatches_nothing self :
  (∀ source ks index,
     abort_requested (_abort_source self) source ks index = true) →
  let r := stream_async self in
  r.1.2 = []
  ∧ ranges_remaining (_to_stream r.1.1) = ranges_remaining (_to_stream self)
  ∧ outcome r.2
    = if decide (ranges_remaining (_to_stream self) = 0) then inr tt
      else inl abort_requested_exception.
Proof.
  intros Habort r. subst r.
  destruct (stream_keyspaces_aborted self Habort (_to_stream self))
    as (Hplans & Hleft & Hexc).
  unfold stream_async. cbn [fst snd outcome set_to_stream _to_stream].
  rewrite Hexc. split_and!; [done|done|]. by case_decide.
Qed.

(** *** The keyspaces after the one that fails *)

Lemma stream_keyspaces_stop self pre ks m post e :
  Forall (λ stream, kr_exception (stream_keyspace self stream.1 stream.2) = None) pre →
  kr_exception (stream_keyspace self ks m) = Some e →
  let sr := stream_keyspaces self (pre ++ (ks, m) :: post) in
  sr_exception sr = Some e
  ∧ sr_to_stream sr
    = map (λ stream,
             (stream.1, kr_ip_range_vec (stream_keyspace self stream.1 stream.2)))
        (pre ++ [(ks, m)]) ++ post
  ∧ sr_plans sr
    = concat (map (λ stream, kr_plans (stream_keyspace self stream.1 stream.2))
                (pre ++ [(ks, m)])).
Proof.
  intros Hpre Hks. induction Hpre as [|[k m'] pre Hnone _ IH].
  - cbn [app stream_keyspaces fst snd]. rewrite Hks. cbn.
    by rewrite app_nil_r.
  - cbn [app stream_keyspaces fst snd] in *. rewrite Hnone.
    cbn zeta in IH. destruct IH as (Hexc & Hleft & Hplans).
    cbn [sr_exception sr_to_stream sr_plans map concat fst snd app].
    by rewrite Hexc, Hleft, Hplans.
Qed.

(** X13: [stream_async] stops at the first keyspace one of whose sources
    fails. The exception it throws is that of a source of that keyspace; the
    entries of the run after that keyspace are left as they were, and no
    plan is handed to the transport for them. *)
Theorem later_keyspaces_are_not_streamed
    self pre ks m post source range_vec :
  _to_stream self = pre ++ (ks, m) :: post →
  Forall (λ stream, ∀ source range_vec,
            stream.2 !! source = Some range_vec →
            thread_exception (stream_source self stream.1 source range_vec) = None)
    pre →
  m !! source = Some range_vec →
  thread_exception (stream_source self ks source range_vec) ≠ None →
  let r := stream_async self in
  let streamed := pre ++ [(ks, m)] in
  (∃ e source' range_vec',
     outcome r.2 = inl e ∧ m !! source' = Some range_vec'
     ∧ thread_exception (stream_source self ks source' range_vec') = Some e)
  ∧ _to_stream r.1.1
    = map (λ stream,
             (stream.1, kr_ip_range_vec (stream_keyspace self stream.1 stream.2)))
        streamed ++ post
  ∧ r.1.2
    = concat (map (λ stream, kr_plans (stream_keyspace self stream.1 stream.2))
                streamed).
Proof.
  intros Hrun Hpre Hin Hfails r streamed. subst r streamed.
  destruct (kr_exception (stream_keyspace self ks m)) as [e|] eqn:Hks.
  2: { destruct Hfails. by apply (proj1 (kr_exception_None self ks m) Hks). }
  assert (Forall (λ stream,
            kr_exception (stream_keyspace self stream.1 stream.2) = None) pre)
    as Hnone.
  { eapply Forall_impl; [exact Hpre|]. intros [k m'] Hall.
    by apply kr_exception_None. }
  destruct (stream_keyspaces_stop self pre ks m post e Hnone Hks)
    as (Hexc & Hleft & Hplans).
  unfold stream_async. cbn [fst snd outcome set_to_stream _to_stream].
  rewrite Hrun, Hexc. split_and!; [|done|done].
  apply kr_exception_Some in Hks as (source' & range_vec' & ? & ?).
  by exists e, source', range_vec'.
Qed.

End runs.

(** ** What is left after a failure *)

Section failed_chunk.
Context {inet_address token_range token topology token_metadata : Type}.
Context `{Countable inet_address, Countable token_range, Countable token}.
Context `{!RingRange token_range}.
Context `{!TokenMetadata inet_address token topology token_metadata}.
Context `{!UnorderedMultimap string (gmap inet_address (list token_range))}.
Context {reactor : ParallelForEach}.

Local Abbreviation streamer :=
  (range_streamer inet_address token_range token topology token_metadata).
Local Abbreviation fetch_map := (gmap inet_address (list token_range)).

Implicit Types (self : streamer) (ks : string) (source : inet_address).
Implicit Types (range_vec : list token_range) (m : fetch_map).






End failed_chunk.

(** ** The visitor that feeds a consumer *)

Section consumer_adaptor.
Import FrozenMutation.
Context {Consumer Result Generator : Type}.
Context `{!FlattenedConsumerV2 Consumer Result}.
Context `{!RangeTombstoneChangeGenerator Generator}.

Local Abbreviation adaptor := (frozen_mutation_consumer_adaptor Consumer Generator).

Implicit Types (a : adaptor) (v : visit) (vs : list visit).

Lemma offer_stopped call a :
  _stop_consuming a = yes → offer call a = a.
Proof. unfold offer. by intros ->. Qed.

Lemma offer_all_stopped {A} (call : A → Consumer → stop_iteration * Consumer)
    (xs : list A) a :
  _stop_consuming a = yes → foldl (λ a x, offer (call x) a) a xs = a.
Proof.
  intros Hstop. induction xs as [|x xs IH]; [done|].
  cbn [foldl]. by rewrite offer_stopped.
Qed.

(** A flush makes no call on a consumer that asked to stop. *)
Lemma flush_stopped pos a :
  _stop_consuming a = yes →
  let a' := flush_rows_and_tombstones pos a in
  _consumer a' = _consumer a ∧ _stop_consuming a' = yes.
Proof.
  intros Hstop. unfold flush_rows_and_tombstones.
  set (a1 := match _static_row a with
             | Some (c :: r) =>
                 offer (consume_static_row (c :: r)) (set_static_row (Some []) a)
             | _ => a
             end).
  assert (_consumer a1 = _consumer a ∧ _stop_consuming a1 = yes) as [Hc1 Hs1].
  { subst a1. destruct (_static_row a) as [[|c r]|]; [done| |done].
    by rewrite offer_stopped. }
  cbn zeta. rewrite offer_all_stopped by done.
  cbn [set_rt_gen _current_row_entry].
  destruct (_current_row_entry a1); [|done].
  by rewrite offer_stopped.
Qed.

Lemma accept_stopped a v a' :
  _stop_consuming a = yes → accept a v = inr a' →
  _stop_consuming a' = yes
  ∧ ((∀ t, v ≠ accept_partition_tombstone t) → _consumer a' = _consumer a).
Proof.
  intros Hstop. destruct v as [t|id cell|rt|key deleted_at rm dummy continuous|id cell];
    cbn [accept].
  - intros [= <-]. split; [done|]. intros Hv. by destruct (Hv t).
  - by intros [= <-].
  - intros [= <-]. by destruct (flush_stopped (position rt) a Hstop).
  - intros [= <-]. by destruct (flush_stopped key a Hstop).
  - destruct (_current_row_entry a); [|done]. by intros [= <-].
Qed.

Lemma accept_all_stopped vs a :
  _stop_consuming a = yes →
  Forall (λ v, ∀ t, v ≠ accept_partition_tombstone t) vs →
  _consumer (accept_all vs a).1 = _consumer a
  ∧ _stop_consuming (accept_all vs a).1 = yes.
Proof.
  intros Hstop Hvs. revert a Hstop.
  induction Hvs as [|v vs Hv _ IH]; intros a Hstop; [done|].
  cbn [accept_all]. destruct (accept a v) as [e|a'] eqn:Haccept; [done|].
  destruct (accept_stopped a v a' Hstop Haccept) as [Hstop' Hsame].
  destruct (IH a' Hstop') as [-> ->]. by rewrite Hsame.
Qed.

(** X14: once the consumer has asked to stop, the visitor passes it nothing
    of what it visits, apart from partition tombstones, which it passes
    without looking at the request; the end of the partition and the end of
    the stream are still announced, and the result says that the consumer
    stopped. *)
Theorem stopped_consumer_is_only_told_the_end vs a :
  _stop_consuming a = yes →
  Forall (λ v, ∀ t, v ≠ accept_partition_tombstone t) vs →
  let a' := (accept_all vs a).1 in
  let r := on_end_of_partition a' in
  let ended := consume_end_of_stream (consume_end_of_partition (_consumer a)).2 in
  _consumer a' = _consumer a
  ∧ _consumer r.1 = ended.2
  ∧ result r.2 = ended.1
  ∧ stop r.2 = yes.
Proof.
  intros Hstop Hvs a' r ended. subst a' r ended.
  destruct (accept_all_stopped vs a Hstop Hvs) as [Hsame Hstop'].
  split; [done|]. unfold on_end_of_partition. cbn zeta.
  destruct (flush_stopped after_all_clustered_rows (accept_all vs a).1 Hstop')
    as [Hflushed Hstill].
  cbn [fst snd set_consumer _consumer _stop_consuming result stop].
  rewrite Hflushed, Hsame, Hstill.
  by destruct (consume_end_of_partition (_consumer a)).1.
Qed.

(** The cells visited after a row go to that row, in the order visited, and
    the consumer is not called. *)
Lemma accept_row_cells (cs : row) a e :
  _current_row_entry a = Some e →
  accept_all (map (λ c, accept_row_cell c.1 c.2) cs) a
  = (set_current_row_entry
       (Some {| entry_position := entry_position e; entry_dummy := entry_dummy e;
                entry_continuous := entry_continuous e;
                entry_row :=
                  {| deleted_at := deleted_at (entry_row e);
                     created_at := created_at (entry_row e);
                     cells := cells (entry_row e) ++ cs |} |}) a, None).
Proof.
  revert a e. induction cs as [|[id cell] cs IH]; intros a e Hrow.
  - cbn. rewrite app_nil_r. destruct a, e as [? ? ? []]. cbn in *. by subst.
  - cbn [map accept_all accept fst snd]. rewrite Hrow.
    rewrite (IH _ (append_row_cell id cell e)) by done.
    unfold append_row_cell, append_cell, set_current_row_entry. cbn.
    by rewrite <- app_assoc.
Qed.

(** A flush when no static row is waiting and the generator has no change
    to emit: the row at hand, if any, is offered to the consumer. *)
Lemma flush_row pos a g :
  _static_row a = None → flush pos (_rt_gen a) = ([], g) →
  flush_rows_and_tombstones pos a
  = match _current_row_entry a with
    | Some row_entry =>
        offer (consume_clustering_row row_entry)
          (set_current_row_entry None (set_rt_gen g a))
    | None => set_rt_gen g a
    end.
Proof.
  intros Hstatic Hflush. unfold flush_rows_and_tombstones.
  rewrite Hstatic. cbn zeta. by rewrite Hflush.
Qed.

(** X15: a row is passed to the consumer as one clustering row, with the
    cells visited after it in the order they were visited, when the visitor
    reaches what comes next: nothing is passed while the row and its cells
    are visited, and the flush that follows passes the row once. Here the
    consumer has not asked to stop, no static row or earlier row is waiting,
    and the generator has no range tombstone change to emit. *)
Theorem row_is_passed_with_its_cells
    a key deleted_at rm dummy continuous (cs : row) pos g1 g2 :
  _stop_consuming a = no →
  _static_row a = None →
  _current_row_entry a = None →
  flush key (_rt_gen a) = ([], g1) →
  flush pos g1 = ([], g2) →
  let visits :=
    accept_row key deleted_at rm dummy continuous
    :: map (λ c, accept_row_cell c.1 c.2) cs in
  let passed :=
    consume_clustering_row
      {| entry_position := key; entry_dummy := dummy;
         entry_continuous := continuous;
         entry_row := {| deleted_at := deleted_at; created_at := rm;
                         cells := cs |} |}
      (_consumer a) in
  ∃ a1,
    accept_all visits a = (a1, None)
    ∧ _consumer a1 = _consumer a
    ∧ let a2 := flush_rows_and_tombstones pos a1 in
      _consumer a2 = passed.2 ∧ _stop_consuming a2 = passed.1
      ∧ _current_row_entry a2 = None.
Proof.
  intros Hstop Hstatic Hrow Hflush1 Hflush2 visits passed. subst visits passed.
  cbn [accept_all accept].
  rewrite (flush_row key a g1 Hstatic Hflush1), Hrow.
  erewrite accept_row_cells; [|reflexivity].
  eexists. split; [reflexivity|]. split; [done|]. cbn zeta.
  erewrite flush_row; [|exact Hstatic|exact Hflush2].
  cbn [_current_row_entry set_current_row_entry]. unfold offer.
  cbn [_stop_consuming set_current_row_entry set_rt_gen]. rewrite Hstop.
  by cbn.
Qed.

End consumer_adaptor.

(** ** The further properties on the ring of three nodes *)

Section further_examples.
Import Example ExampleRuns.

Local Abbreviation joining := (streamer bootstrap 2 0 [] 0).

(** The range [(50, 100)] comes from [B], the first candidate after the
    local node and the filtered node [D]. *)
Lemma range_is_fetched_from_first_candidate_witness :
  let sources : gmap (Z * Z) (list nat) :=
    {[ (0, 50)%Z := [C; B]; (50, 100)%Z := [A; D; B] ]} in
  let planned := get_range_fetch_map env joining sources [not_D] "ks" in
  let m : gmap nat (list (Z * Z)) := {[ C := [(0, 50)%Z]; B := [(50, 100)%Z] ]} in
  planned = (logged planned, inr m)
  ∧ (∃ v, m !! B = Some v ∧ (50, 100)%Z ∈ v)
  ∧ ∀ a' v', m !! a' = Some v' → (50, 100)%Z ∈ v' → a' = B.
Proof.
  intros sources planned m.
  assert (planned = (logged planned, inr m)) as Hplanned
    by (vm_compute; reflexivity).
  split; [exact Hplanned|].
  refine (range_is_fetched_from_first_candidate env joining sources [not_D] "ks"
            (logged planned) m (50, 100)%Z [A; D] B [] Hplanned _ _ _ _).
  - vm_compute. reflexivity.
  - intros b Hb. apply elem_of_cons in Hb as [->|Hb]; [left; reflexivity|].
    apply list_elem_of_singleton in Hb. subst b. right. vm_compute. reflexivity.
  - vm_compute. lia.
  - vm_compute. reflexivity.
Defined.

(** No ring range contains [(300, 400)]: normal resolution names it. *)
Lemma normal_sources_are_found_or_named_witness :
  let desired := [(0, 50)%Z; (300, 400)%Z] in
  outcome (get_all_ranges_with_sources_for env joining "ks" desired)
  = inl (runtime_error (no_sources_found_for (300, 400)%Z)).
Proof.
  intros desired.
  refine (proj2 (normal_sources_are_found_or_named env joining "ks" desired)
            [(0, 50)%Z] (300, 400)%Z [] eq_refl _ _).
  - intros d Hd. apply list_elem_of_singleton in Hd. subst d.
    exists (0, 100)%Z, [B; C]. split; vm_compute; reflexivity.
  - intros (src & eps & Hring & Hcontains).
    apply elem_of_map_to_list in Hring. vm_compute in Hring.
    apply elem_of_cons in Hring as [Heq|Hring].
    + injection Heq as -> _. vm_compute in Hcontains. discriminate.
    + apply list_elem_of_singleton in Hring. injection Hring as -> _.
      vm_compute in Hcontains. discriminate.
Defined.

(** The sources of [(0, 50)] in normal mode: the replicas of the ring range
    [(0, 100)], nearest first. *)
Lemma normal_sources_are_the_candidates_witness :
  let resolution := get_all_ranges_with_sources_for env joining "ks" [(0, 50)%Z] in
  let rs : gmap (Z * Z) (list nat) := {[ (0, 50)%Z := [C; B] ]} in
  let ring := get_range_addresses (get_effective_replication_map (some_keyspace 2)) in
  resolution = (logged resolution, inr rs)
  ∧ ∀ d, rs !! d =
      if decide (d ∈ [(0, 50)%Z]) then
        match candidates (get_local_snitch_ptr env) A d (map_to_list ring) with
        | [] => None
        | c :: cs => Some (c :: cs)
        end
      else None.
Proof.
  intros resolution rs ring.
  assert (resolution = (logged resolution, inr rs)) as Hres
    by (vm_compute; reflexivity).
  split; [exact Hres|].
  refine (normal_sources_are_the_candidates env joining "ks" [(0, 50)%Z]
            (logged resolution) rs Hres _).
  apply NoDup_singleton.
Defined.

(** The strict source of [(0, 50)] is [B], which gossip holds alive. *)
Lemma strict_sources_are_alive_witness :
  let resolution :=
    get_all_ranges_with_strict_sources_for joining "ks" [(0, 50)%Z] gossip in
  let rs : gmap (Z * Z) (list nat) := {[ (0, 50)%Z := [B] ]} in
  outcome resolution = inr rs
  ∧ (∀ d, is_Some (rs !! d) ↔ d ∈ [(0, 50)%Z])
  ∧ ∀ d, d ∈ [(0, 50)%Z] →
      ∃ source, rs !! d = Some [source]
        ∧ (is_enabled gossip = true → is_alive gossip source = true).
Proof.
  intros resolution rs.
  assert (outcome resolution = inr rs) as Hout by (vm_compute; reflexivity).
  split; [exact Hout|].
  exact (strict_sources_are_alive joining "ks" [(0, 50)%Z] gossip rs Hout).
Defined.

(** The same range asked for twice. *)
Lemma strict_sources_reject_repeated_ranges_witness :
  let desired := [(0, 50)%Z; (0, 50)%Z] in
  ¬ NoDup desired
  ∧ ∃ e, outcome (get_all_ranges_with_strict_sources_for joining "ks" desired gossip)
         = inl e.
Proof.
  intros desired.
  assert (¬ NoDup desired) as Hdup.
  { intros [Hnotin _]%NoDup_cons. apply Hnotin, list_elem_of_singleton.
    reflexivity. }
  split; [exact Hdup|].
  exact (strict_sources_reject_repeated_ranges joining "ks" desired gossip Hdup).
Defined.

(** A plan of one range for a fresh run, in either direction. *)
Lemma adding_a_plan_adds_its_ranges_witness :
  let m : gmap nat (list (Z * Z)) := {[ B := [(0, 50)%Z] ]} in
  let added (r : range_streamer nat (Z * Z) Z unit (list (Z * nat))
                 * Effects.M nat (Z * Z) unit) :=
    outcome r.2 = inr tt
    ∧ _to_stream r.1 ≡ₚ _to_stream joining ++ [("ks", m)]
    ∧ outcome (nr_ranges_to_stream r.1) =
        inr (ranges_remaining (_to_stream joining)
             + sum_list (map (λ ip_range, length ip_range.2) (map_to_list m))) in
  added (add_rx_ranges 32 joining "ks" m) ∧ added (add_tx_ranges 32 joining "ks" m).
Proof.
  intros m added.
  pose proof (adding_a_plan_adds_its_ranges 32 joining "ks" m) as [Hrx Htx].
  split; [exact (Hrx eq_refl)|exact (Htx eq_refl)].
Defined.

(** On the multimap of the examples the plan added last is met first. *)
Lemma emplace_example :
  let m1 : gmap nat (list (Z * Z)) := {[ B := [(0, 50)%Z] ]} in
  let m2 : gmap nat (list (Z * Z)) := {[ C := [(50, 100)%Z] ]} in
  let self := (add_rx_ranges 32 joining "ks1" m1).1 in
  _to_stream (add_rx_ranges 32 self "ks2" m2).1 = [("ks2", m2); ("ks1", m1)].
Proof. vm_compute. reflexivity. Qed.

(** [add_ranges] for a range that no ring range contains. *)
Lemma failed_add_ranges_fixes_the_direction_witness :
  let added := add_ranges env 32 joining "ks" [(300, 400)%Z] gossip true in
  outcome added.2 = inl (runtime_error (no_sources_found_for (300, 400)%Z))
  ∧ _to_stream added.1 = _to_stream joining
  ∧ ∀ ks' m,
      add_tx_ranges 32 added.1 ks' m
      = (added.1, throw (runtime_error mixed_sending_and_receiving)).
Proof.
  intros added.
  assert (outcome added.2 = inl (runtime_error (no_sources_found_for (300, 400)%Z)))
    as Hfailed by (vm_compute; reflexivity).
  split; [exact Hfailed|].
  refine (failed_add_ranges_fixes_the_direction env 32 joining "ks"
            [(300, 400)%Z] gossip true _ eq_refl eq_refl _ Hfailed).
  vm_compute. reflexivity.
Defined.

(** Two sources on the reliable transport, with the reactor that runs the
    last thread first: the plans of [C] come before those of [B]. *)
Lemma undisturbed_run_streams_everything_witness :
  let job := [("ks", {[ B := [(0, 10)%Z; (10, 20)%Z];
                        C := [(20, 30)%Z; (30, 40)%Z] ]})] in
  let self := streamer_on reliable false job in
  let r := stream_async (reactor := last_thread_first) self in
  outcome r.2 = inr tt
  ∧ _to_stream r.1.1
    = map (λ stream, (stream.1, (λ _, []) <$> stream.2)) job
  ∧ (_nr_rx_added self ≠ 0%Z ∨ _nr_tx_added self ≠ 0%Z →
     concat (map ranges_of_plan r.1.2)
     ≡ₚ concat (map (λ stream, concat (map snd (map_to_list stream.2))) job)
     ∧ ∀ ks m source range_vec,
         (ks, m) ∈ job → m !! source = Some range_vec →
         let plans := thread_plans (stream_source self ks source range_vec) in
         plans `sublist_of` r.1.2
         ∧ concat (map ranges_of_plan plans) = range_vec).
Proof.
  intros job self r.
  refine (undisturbed_run_streams_everything (reactor := last_thread_first)
            self _ _).
  - intros sp. reflexivity.
  - intros source ks index. reflexivity.
Defined.

Lemma interleaved_plans_example :
  let job := [("ks", {[ B := [(0, 10)%Z; (10, 20)%Z];
                        C := [(20, 30)%Z; (30, 40)%Z] ]})] in
  let self := streamer_on reliable false job in
  concat (map ranges_of_plan (stream_async (reactor := last_thread_first) self).1.2)
  = [(20, 30); (30, 40); (0, 10); (10, 20)]%Z
  ∧ concat (map ranges_of_plan (stream_async self).1.2)
    = [(0, 10); (10, 20); (20, 30); (30, 40)]%Z.
Proof. split; vm_compute; reflexivity. Qed.

(** The same job with an abort requested. *)
Lemma aborted_run_dispatches_nothing_witness :
  let job := [("ks", {[ B := twenty_ranges ]})] in
  let self := streamer_on reliable true job in
  let r := stream_async self in
  r.1.2 = []
  ∧ ranges_remaining (_to_stream r.1.1) = ranges_remaining job
  ∧ outcome r.2
    = if decide (ranges_remaining job = 0) then inr tt
      else inl abort_requested_exception.
Proof.
  intros job self r.
  refine (aborted_run_dispatches_nothing self _).
  intros source ks index. reflexivity.
Defined.

(** The second plan of a source fails: the first keyspace is streamed, the
    second fails, the third is left as it was. *)
Lemma later_keyspaces_are_not_streamed_witness :
  let self := streamer bootstrap 2 1 three_keyspaces 1 in
  let r := stream_async self in
  let pre := [("ks1", {[ B := [(0, 10)%Z] ]})] in
  let m : gmap nat (list (Z * Z)) := {[ C := [(0, 10)%Z; (10, 20)%Z] ]} in
  let post := [("ks3", {[ B := [(20, 30)%Z] ]})] in
  let streamed := pre ++ [("ks2", m)] in
  (∃ e source' range_vec',
     outcome r.2 = inl e ∧ m !! source' = Some range_vec'
     ∧ thread_exception (stream_source self "ks2" source' range_vec') = Some e)
  ∧ _to_stream r.1.1
    = map (λ stream,
             (stream.1, kr_ip_range_vec (stream_keyspace self stream.1 stream.2)))
        streamed ++ post
  ∧ r.1.2
    = concat (map (λ stream, kr_plans (stream_keyspace self stream.1 stream.2))
                streamed).
Proof.
  intros self r pre m post streamed.
  refine (later_keyspaces_are_not_streamed self pre "ks2" m post C
            [(0, 10)%Z; (10, 20)%Z] eq_refl _ _ _).
  - apply Forall_singleton. intros source range_vec Hsource.
    cbn [fst snd] in *. apply lookup_singleton_Some in Hsource as [<- <-].
    vm_compute. reflexivity.
  - vm_compute. reflexivity.
  - vm_compute. discriminate.
Defined.


(** The same failure in a run of three keyspaces, the source [B] being in
    the second with another source: the first keyspace is streamed, the
    third is not, and twenty ranges remain, the sixteen never dispatched and
    the two of the failed chunk of [B] and the two of the third keyspace. *)
Lemma failed_chunk_example :
  let job := [("ks0", {[ C := [(0, 10)%Z] ]});
              ("ks", {[ B := twenty_ranges; C := [(0, 10)%Z] ]});
              ("ks2", {[ C := [(0, 10)%Z; (10, 20)%Z] ]})] in
  let self := streamer bootstrap 2 1 job 1 in
  let r := stream_async self in
  outcome r.2 = inl (stream_exception "connection reset")
  ∧ _to_stream r.1.1
    = [("ks0", {[ C := [] ]});
       ("ks", {[ B := drop 4 twenty_ranges ++ take 2 (drop 2 twenty_ranges);
                 C := [] ]});
       ("ks2", {[ C := [(0, 10)%Z; (10, 20)%Z] ]})]
  ∧ outcome (nr_ranges_to_stream r.1.1) = inr 20.
Proof. split_and!; vm_compute; reflexivity. Qed.



(** The same on a counter of two bits, where four calls are enough. *)
Lemma counter_of_two_bits_example :
  let m : gmap nat (list (Z * Z)) := {[ B := [(0, 50)%Z] ]} in
  let r := run env 2 (replicate 4 (call_add_rx_ranges "ks" m)) joining in
  r.2 = replicate 4 (call_add_rx_ranges "ks" m, inr tt)
  ∧ _nr_rx_added r.1 = 0%Z
  ∧ outcome (add_tx_ranges 2 r.1 "ks" m).2 = inr tt.
Proof. split_and!; vm_compute; reflexivity. Qed.

(** Nineteen ranges make nineteen plans of one range, numbered from 0. *)
Lemma nineteen_plans_example :
  let self := streamer_on reliable false [] in
  map sp_number (thread_plans (stream_source self "ks" B (take 19 twenty_ranges)))
  = map Z.of_nat (seq 0 19).
Proof. vm_compute. reflexivity. Qed.

End further_examples.

Section further_examples_of_consuming.
Import FrozenMutation ExampleMutation.

(** A consumer that asked to stop is not passed the row of the mutation. *)
Lemma stopped_consumer_is_only_told_the_end_witness :
  let a := set_consumer ["consume_new_partition"] yes
             (new_adaptor (Generator := list range_tombstone) s1 []) in
  let vs := write_row the_row in
  let a' := (accept_all vs a).1 in
  let r := on_end_of_partition a' in
  let ended :=
    consume_end_of_stream (consume_end_of_partition (_consumer a)).2 in
  _consumer a' = _consumer a
  ∧ _consumer r.1 = ended.2
  ∧ result r.2 = ended.1
  ∧ stop r.2 = yes.
Proof.
  intros a vs a' r ended.
  refine (stopped_consumer_is_only_told_the_end vs a eq_refl _).
  vm_compute. repeat constructor; intros t; discriminate.
Defined.

(** The row of the mutation and its two cells. *)
Lemma row_is_passed_with_its_cells_witness :
  let a := new_adaptor (Generator := list range_tombstone) s1
             ["consume_new_partition"] in
  let cs := cells (entry_row the_row) in
  let visits :=
    accept_row (for_key []) no_tombstone no_marker false true
    :: map (λ c, accept_row_cell c.1 c.2) cs in
  let passed := consume_clustering_row the_row (_consumer a) in
  ∃ a1,
    accept_all visits a = (a1, None)
    ∧ _consumer a1 = _consumer a
    ∧ let a2 := flush_rows_and_tombstones after_all_clustered_rows a1 in
      _consumer a2 = passed.2 ∧ _stop_consuming a2 = passed.1
      ∧ _current_row_entry a2 = None.
Proof.
  intros a cs visits passed.
  exact (row_is_passed_with_its_cells a (for_key []) no_tombstone no_marker
           false true cs after_all_clustered_rows [] []
           eq_refl eq_refl eq_refl eq_refl eq_refl).
Defined.

End further_examples_of_consuming.

